(** * Azul engine: a shallow embedding of [games/Azul-test.py]

    The Python classes [Azul_game] (rules, scoring, action codec) and
    [Azul] (the step entry point) are embedded as functions over an
    explicit game record.  Python lists and numpy arrays are lists of
    integers indexed the way Python indexes them (negative indices wrap
    once, anything else raises [IndexError]); methods that mutate [self]
    live in a state monad that can raise and that keeps the state reached
    when the exception leaves the method. *)

From Stdlib Require Import ZArith List Bool Lia.
From stdpp Require Import base list.

Open Scope Z_scope.

(** ** Python sequences *)

Module Py.

(** [l[i]] for an integer [i]: positions [0 .. len-1], or [-len .. -1]
    counted from the end; everything else is an [IndexError] ([None]). *)
Definition idx {A} (l : list A) (i : Z) : option nat :=
  let n := Z.of_nat (length l) in
  if (0 <=? i) && (i <? n) then Some (Z.to_nat i)
  else if (- n <=? i) && (i <? 0) then Some (Z.to_nat (i + n))
  else None.

Definition get {A} (l : list A) (i : Z) : option A :=
  match idx l i with
  | Some k => l !! k
  | None => None
  end.

Definition set {A} (l : list A) (i : Z) (v : A) : option (list A) :=
  match idx l i with
  | Some k => Some (<[k:=v]> l)
  | None => None
  end.

(** [m[i][j]] and [m[i][j] = v] on a list of lists (or a 2-D array). *)
Definition get2 {A} (m : list (list A)) (i j : Z) : option A :=
  match get m i with
  | Some r => get r j
  | None => None
  end.

Definition set2 {A} (m : list (list A)) (i j : Z) (v : A)
  : option (list (list A)) :=
  match get m i with
  | Some r =>
      match set r j v with
      | Some r' => set m i r'
      | None => None
      end
  | None => None
  end.

(** [range(n)] *)
Definition range (n : Z) : list Z := map Z.of_nat (seq 0 (Z.to_nat n)).

(** Truth value of an integer in a condition. *)
Definition truthy (x : Z) : bool := negb (x =? 0).

(** [int(a / b)]: true division followed by truncation towards zero.
    The float quotient truncates to the exact integer quotient for the
    magnitudes an action id has (far below 2^53); the decoder only
    divides non-negative numbers. *)
Definition int_div (a b : Z) : Z := Z.quot a b.

End Py.

(** ** The game object *)

Inductive player := P1 | P2.

Definition player_eqb (a b : player) : bool :=
  match a, b with
  | P1, P1 | P2, P2 => true
  | _, _ => false
  end.

Definition other (p : player) : player :=
  match p with P1 => P2 | P2 => P1 end.

Record Azul_game := mkGame {
  p1_score : Z;
  p2_score : Z;
  player_turn : player;
  initial_player : player;
  new_first_player : bool;
  board_p1 : list (list Z);
  board_p2 : list (list Z);
  rows_p1 : list (list Z);
  rows_p2 : list (list Z);
  penalty_row_p1 : list Z;
  penalty_row_p2 : list Z;
  drawing_pit : list (list Z);
  gameover : bool;
  is_done_phase : bool;
  inserted_tile_in_column_for_action : Z;
  penality_for_action : Z
}.

(** Field assignments [self.f = v]. *)
Definition set_p1_score v g :=
  mkGame v (p2_score g) (player_turn g) (initial_player g)
    (new_first_player g) (board_p1 g) (board_p2 g) (rows_p1 g) (rows_p2 g)
    (penalty_row_p1 g) (penalty_row_p2 g) (drawing_pit g) (gameover g)
    (is_done_phase g) (inserted_tile_in_column_for_action g)
    (penality_for_action g).
Definition set_p2_score v g :=
  mkGame (p1_score g) v (player_turn g) (initial_player g)
    (new_first_player g) (board_p1 g) (board_p2 g) (rows_p1 g) (rows_p2 g)
    (penalty_row_p1 g) (penalty_row_p2 g) (drawing_pit g) (gameover g)
    (is_done_phase g) (inserted_tile_in_column_for_action g)
    (penality_for_action g).
Definition set_player_turn v g :=
  mkGame (p1_score g) (p2_score g) v (initial_player g)
    (new_first_player g) (board_p1 g) (board_p2 g) (rows_p1 g) (rows_p2 g)
    (penalty_row_p1 g) (penalty_row_p2 g) (drawing_pit g) (gameover g)
    (is_done_phase g) (inserted_tile_in_column_for_action g)
    (penality_for_action g).
Definition set_initial_player v g :=
  mkGame (p1_score g) (p2_score g) (player_turn g) v
    (new_first_player g) (board_p1 g) (board_p2 g) (rows_p1 g) (rows_p2 g)
    (penalty_row_p1 g) (penalty_row_p2 g) (drawing_pit g) (gameover g)
    (is_done_phase g) (inserted_tile_in_column_for_action g)
    (penality_for_action g).
Definition set_new_first_player v g :=
  mkGame (p1_score g) (p2_score g) (player_turn g) (initial_player g)
    v (board_p1 g) (board_p2 g) (rows_p1 g) (rows_p2 g)
    (penalty_row_p1 g) (penalty_row_p2 g) (drawing_pit g) (gameover g)
    (is_done_phase g) (inserted_tile_in_column_for_action g)
    (penality_for_action g).
Definition set_board_p1 v g :=
  mkGame (p1_score g) (p2_score g) (player_turn g) (initial_player g)
    (new_first_player g) v (board_p2 g) (rows_p1 g) (rows_p2 g)
    (penalty_row_p1 g) (penalty_row_p2 g) (drawing_pit g) (gameover g)
    (is_done_phase g) (inserted_tile_in_column_for_action g)
    (penality_for_action g).
Definition set_board_p2 v g :=
  mkGame (p1_score g) (p2_score g) (player_turn g) (initial_player g)
    (new_first_player g) (board_p1 g) v (rows_p1 g) (rows_p2 g)
    (penalty_row_p1 g) (penalty_row_p2 g) (drawing_pit g) (gameover g)
    (is_done_phase g) (inserted_tile_in_column_for_action g)
    (penality_for_action g).
Definition set_rows_p1 v g :=
  mkGame (p1_score g) (p2_score g) (player_turn g) (initial_player g)
    (new_first_player g) (board_p1 g) (board_p2 g) v (rows_p2 g)
    (penalty_row_p1 g) (penalty_row_p2 g) (drawing_pit g) (gameover g)
    (is_done_phase g) (inserted_tile_in_column_for_action g)
    (penality_for_action g).
Definition set_rows_p2 v g :=
  mkGame (p1_score g) (p2_score g) (player_turn g) (initial_player g)
    (new_first_player g) (board_p1 g) (board_p2 g) (rows_p1 g) v
    (penalty_row_p1 g) (penalty_row_p2 g) (drawing_pit g) (gameover g)
    (is_done_phase g) (inserted_tile_in_column_for_action g)
    (penality_for_action g).
Definition set_penalty_row_p1 v g :=
  mkGame (p1_score g) (p2_score g) (player_turn g) (initial_player g)
    (new_first_player g) (board_p1 g) (board_p2 g) (rows_p1 g) (rows_p2 g)
    v (penalty_row_p2 g) (drawing_pit g) (gameover g)
    (is_done_phase g) (inserted_tile_in_column_for_action g)
    (penality_for_action g).
Definition set_penalty_row_p2 v g :=
  mkGame (p1_score g) (p2_score g) (player_turn g) (initial_player g)
    (new_first_player g) (board_p1 g) (board_p2 g) (rows_p1 g) (rows_p2 g)
    (penalty_row_p1 g) v (drawing_pit g) (gameover g)
    (is_done_phase g) (inserted_tile_in_column_for_action g)
    (penality_for_action g).
Definition set_drawing_pit v g :=
  mkGame (p1_score g) (p2_score g) (player_turn g) (initial_player g)
    (new_first_player g) (board_p1 g) (board_p2 g) (rows_p1 g) (rows_p2 g)
    (penalty_row_p1 g) (penalty_row_p2 g) v (gameover g)
    (is_done_phase g) (inserted_tile_in_column_for_action g)
    (penality_for_action g).
Definition set_gameover v g :=
  mkGame (p1_score g) (p2_score g) (player_turn g) (initial_player g)
    (new_first_player g) (board_p1 g) (board_p2 g) (rows_p1 g) (rows_p2 g)
    (penalty_row_p1 g) (penalty_row_p2 g) (drawing_pit g) v
    (is_done_phase g) (inserted_tile_in_column_for_action g)
    (penality_for_action g).
Definition set_is_done_phase v g :=
  mkGame (p1_score g) (p2_score g) (player_turn g) (initial_player g)
    (new_first_player g) (board_p1 g) (board_p2 g) (rows_p1 g) (rows_p2 g)
    (penalty_row_p1 g) (penalty_row_p2 g) (drawing_pit g) (gameover g)
    v (inserted_tile_in_column_for_action g)
    (penality_for_action g).
Definition set_inserted_tile_in_column_for_action v g :=
  mkGame (p1_score g) (p2_score g) (player_turn g) (initial_player g)
    (new_first_player g) (board_p1 g) (board_p2 g) (rows_p1 g) (rows_p2 g)
    (penalty_row_p1 g) (penalty_row_p2 g) (drawing_pit g) (gameover g)
    (is_done_phase g) v
    (penality_for_action g).
Definition set_penality_for_action v g :=
  mkGame (p1_score g) (p2_score g) (player_turn g) (initial_player g)
    (new_first_player g) (board_p1 g) (board_p2 g) (rows_p1 g) (rows_p2 g)
    (penalty_row_p1 g) (penalty_row_p2 g) (drawing_pit g) (gameover g)
    (is_done_phase g) (inserted_tile_in_column_for_action g)
    v.

(** The per-player aliases the methods take with
    [if player == "P1": rows = self.rows_p1 else: rows = self.rows_p2]. *)
Definition rows_of (p : player) g :=
  match p with P1 => rows_p1 g | P2 => rows_p2 g end.
Definition board_of (p : player) g :=
  match p with P1 => board_p1 g | P2 => board_p2 g end.
Definition penalty_of (p : player) g :=
  match p with P1 => penalty_row_p1 g | P2 => penalty_row_p2 g end.
Definition score_of (p : player) g :=
  match p with P1 => p1_score g | P2 => p2_score g end.
Definition set_rows_of (p : player) v g :=
  match p with P1 => set_rows_p1 v g | P2 => set_rows_p2 v g end.
Definition set_board_of (p : player) v g :=
  match p with P1 => set_board_p1 v g | P2 => set_board_p2 v g end.
Definition set_penalty_of (p : player) v g :=
  match p with P1 => set_penalty_row_p1 v g | P2 => set_penalty_row_p2 v g end.
Definition set_score_of (p : player) v g :=
  match p with P1 => set_p1_score v g | P2 => set_p2_score v g end.

(** ** Methods that mutate [self]: state plus exceptions *)

Inductive exn := IndexError.

Inductive outcome (A : Type) :=
| Ok (a : A)
| Raise (e : exn).
Arguments Ok {A} a.
Arguments Raise {A} e.

Definition M (A : Type) : Type := Azul_game -> outcome A * Azul_game.

Definition ret {A} (a : A) : M A := fun g => (Ok a, g).
Definition raise {A} (e : exn) : M A := fun g => (Raise e, g).
Definition bind {A B} (m : M A) (f : A -> M B) : M B :=
  fun g =>
    match m g with
    | (Ok a, g') => f a g'
    | (Raise e, g') => (Raise e, g')
    end.
Definition gets {A} (f : Azul_game -> A) : M A := fun g => (Ok (f g), g).
Definition modify (f : Azul_game -> Azul_game) : M unit :=
  fun g => (Ok tt, f g).
Definition lift {A} (o : option A) : M A :=
  match o with
  | Some a => ret a
  | None => raise IndexError
  end.

Declare Scope azul_scope.
Delimit Scope azul_scope with azul.
Bind Scope azul_scope with M.
Notation "x <- m ;; k" := (bind m (fun x => k))
  (at level 100, m at next level, k at level 200, right associativity)
  : azul_scope.
Notation "m ;; k" := (bind m (fun _ => k))
  (at level 100, k at level 200, right associativity) : azul_scope.
Open Scope azul_scope.

(** [for x in l: body], and the same loop threading a local variable. *)
Fixpoint for_each {A} (l : list A) (body : A -> M unit) : M unit :=
  match l with
  | [] => ret tt
  | x :: l' => body x ;; for_each l' body
  end.

Fixpoint for_fold {A S} (l : list A) (s : S) (body : A -> S -> M S) : M S :=
  match l with
  | [] => ret s
  | x :: l' => s' <- body x s ;; for_fold l' s' body
  end.

(** Reads and writes of the list-valued fields. *)
Definition read1 (sel : Azul_game -> list Z) (i : Z) : M Z :=
  fun g => lift (Py.get (sel g) i) g.
Definition read2 (sel : Azul_game -> list (list Z)) (i j : Z) : M Z :=
  fun g => lift (Py.get2 (sel g) i j) g.
Definition write1 (sel : Azul_game -> list Z)
    (upd : list Z -> Azul_game -> Azul_game) (i v : Z) : M unit :=
  fun g =>
    match Py.set (sel g) i v with
    | Some l => (Ok tt, upd l g)
    | None => (Raise IndexError, g)
    end.
Definition write2 (sel : Azul_game -> list (list Z))
    (upd : list (list Z) -> Azul_game -> Azul_game) (i j v : Z) : M unit :=
  fun g =>
    match Py.set2 (sel g) i j v with
    | Some m => (Ok tt, upd m g)
    | None => (Raise IndexError, g)
    end.

(** ** ActionCodec *)

Definition from_action_to_tuple_action (action : Z) : Z * Z * Z :=
  if action <? 6 then (action, 0, 0)
  else if action <? 30 then (action mod 6, Py.int_div action 6, 0)
  else (action mod 6,
        Py.int_div (action mod (6 * 5)) 6,
        Py.int_div action (6 * 5)).

Definition from_tuple_action_to_action
    (action_pit_choice action_tile_type action_column_choice : Z) : Z :=
  action_pit_choice + action_tile_type * 6 + action_column_choice * 6 * 5.

(** ** RuleEngine *)

Definition valid_move (player : player)
    (pit_choice tile_type column_choice : Z) : M bool :=
  drawed_tile <- read2 drawing_pit pit_choice tile_type ;;
  if drawed_tile =? 0 then ret false
  else if negb (column_choice =? 5) then
    let position := (tile_type + column_choice) mod 5 in
    cell <- read2 (board_of player) column_choice position ;;
    if cell =? 1 then ret false
    else
      first <- read2 (rows_of player) column_choice 0 ;;
      if (first =? 0) || (first =? tile_type + 1) then ret true
      else ret false
  else ret true.

(** The answer of [valid_move] as a function of the three containers it
    reads. *)
Definition legal (pit board rows : list (list Z))
    (pit_choice tile_type column_choice : Z) : outcome bool :=
  match Py.get2 pit pit_choice tile_type with
  | None => Raise IndexError
  | Some drawed_tile =>
      if drawed_tile =? 0 then Ok false
      else if negb (column_choice =? 5) then
        match Py.get2 board column_choice
                ((tile_type + column_choice) mod 5) with
        | None => Raise IndexError
        | Some cell =>
            if cell =? 1 then Ok false
            else
              match Py.get2 rows column_choice 0 with
              | None => Raise IndexError
              | Some first =>
                  Ok ((first =? 0) || (first =? tile_type + 1))
              end
        end
      else Ok true
  end.

Definition take_tile_from_pit (pit_choice tile_type : Z) (player : player)
  : M Z :=
  drawed_tiles <- read2 drawing_pit pit_choice tile_type ;;
  write2 drawing_pit set_drawing_pit pit_choice tile_type 0 ;;
  nfp <- gets new_first_player ;;
  (if negb nfp
   then modify (set_new_first_player false) ;;
        modify (set_initial_player player)
   else ret tt) ;;
  (if negb (pit_choice =? 5)
   then for_each (Py.range 5) (fun i =>
          discarded_tile <- read2 drawing_pit pit_choice i ;;
          write2 drawing_pit set_drawing_pit pit_choice i 0 ;;
          center <- read2 drawing_pit 5 i ;;
          write2 drawing_pit set_drawing_pit 5 i (center + discarded_tile))
   else ret tt) ;;
  ret drawed_tiles.

(** Cost of penalty slot [i]. *)
Definition penalty_tier (i : Z) : Z :=
  if i <? 2 then 1 else if i <? 5 then 2 else 3.

Definition insert_tiles_in_penalty_column (number_of_tiles : Z)
    (player : player) : M unit :=
  modify (set_penality_for_action 0) ;;
  for_fold (Py.range 7) number_of_tiles (fun i number_of_tiles =>
    slot <- read1 (penalty_of player) i ;;
    if (slot =? 0) && (0 <? number_of_tiles) then
      write1 (penalty_of player) (set_penalty_of player) i 1 ;;
      modify (fun g =>
        set_penality_for_action (penality_for_action g + penalty_tier i) g) ;;
      ret (number_of_tiles - 1)
    else ret number_of_tiles) ;;
  ret tt.

Definition insert_tiles_in_column (tile_type drawed_tiles column_choice : Z)
    (player : player) : M unit :=
  if column_choice =? 5 then
    insert_tiles_in_penalty_column drawed_tiles player
  else
    modify (set_inserted_tile_in_column_for_action 0) ;;
    number_of_drawed_tile <-
      for_fold (Py.range (column_choice + 1)) drawed_tiles
        (fun i number_of_drawed_tile =>
           slot <- read2 (rows_of player) column_choice i ;;
           if (slot =? 0) && (0 <? number_of_drawed_tile) then
             write2 (rows_of player) (set_rows_of player)
               column_choice i (tile_type + 1) ;;
             modify (fun g => set_inserted_tile_in_column_for_action
                       (inserted_tile_in_column_for_action g + 1) g) ;;
             ret (number_of_drawed_tile - 1)
           else ret number_of_drawed_tile) ;;
    insert_tiles_in_penalty_column number_of_drawed_tile player.

Definition play_turn (player : player)
    (pit_choice tile_type column_choice : Z) : M bool :=
  modify (set_penality_for_action 0) ;;
  valid <- valid_move player pit_choice tile_type column_choice ;;
  if valid then
    drawed_tiles <- take_tile_from_pit pit_choice tile_type player ;;
    nfp <- gets new_first_player ;;
    (if (pit_choice =? 5) && nfp
     then modify (set_initial_player player) ;;
          modify (set_new_first_player false) ;;
          insert_tiles_in_penalty_column 1 player
     else ret tt) ;;
    (if negb (column_choice =? 5)
     then insert_tiles_in_column tile_type drawed_tiles column_choice player
     else insert_tiles_in_penalty_column drawed_tiles player) ;;
    turn <- gets player_turn ;;
    modify (set_player_turn (other turn)) ;;
    ret true
  else ret false.

(** ** ScoringEngine *)

Definition clear_row (index_row : Z) (player : player) : M unit :=
  for_each (Py.range (index_row + 1)) (fun i =>
    write2 (rows_of player) (set_rows_of player) index_row i 0).

(** The scan of [compute_row_point]: [i] counts the cells seen so far;
    before [target] an empty cell resets the run, from [target] on it
    ends the loop. *)
Fixpoint scan_row (cells : list Z) (i target score : Z) : Z :=
  match cells with
  | [] => score
  | elem :: rest =>
      if i <? target then
        scan_row rest (i + 1) target
          (if Py.truthy elem then score + 1 else 0)
      else if Py.truthy elem then scan_row rest (i + 1) target (score + 1)
      else score
  end.

Definition compute_row_point (index_row index_column : Z) (player : player)
  : M Z :=
  scoreboard <- gets (board_of player) ;;
  cells <- lift (Py.get scoreboard index_row) ;;
  ret (scan_row cells 0 index_column 0 - 1).

(** The scan of [compute_column_point] reads [row[index_column]] in each
    row it visits. *)
Fixpoint scan_column (rows : list (list Z)) (i index_row index_column point : Z)
  : option Z :=
  match rows with
  | [] => Some point
  | row :: rest =>
      match Py.get row index_column with
      | None => None
      | Some cell =>
          if i <? index_row then
            scan_column rest (i + 1) index_row index_column
              (if Py.truthy cell then point + 1 else 0)
          else if Py.truthy cell then
            scan_column rest (i + 1) index_row index_column (point + 1)
          else Some point
      end
  end.

Definition compute_column_point (index_row index_column : Z)
    (player : player) : M Z :=
  scoreboard <- gets (board_of player) ;;
  point <- lift (scan_column scoreboard 0 index_row index_column 0) ;;
  ret (point - 1).

Definition add_tile_to_scoreboard (tile : Z) (player : player)
    (index_row : Z) : M Z :=
  let index_column := (tile - 1 + index_row) mod 5 in
  write2 (board_of player) (set_board_of player) index_row index_column 1 ;;
  score_row <- compute_row_point index_row index_column player ;;
  score_column <- compute_column_point index_row index_column player ;;
  ret (1 + score_row + score_column).

Definition update_score (player : player) (points : Z) : M unit :=
  modify (fun g =>
    if 0 <? score_of player g + points
    then set_score_of player (score_of player g + points) g
    else set_score_of player 0 g).

Definition calculate_penality (player : player) : M unit :=
  penality <- for_fold (Py.range 7) 0 (fun i penality =>
    slot <- read1 (penalty_of player) i ;;
    if Py.truthy slot then ret (penality - penalty_tier i)
    else ret penality) ;;
  update_score player penality.

(** [completed_row]: every element equals the first one and is not 0. *)
Definition row_is_completed (row : list Z) (first_elem : Z) : bool :=
  forallb (fun elem => negb (negb (elem =? first_elem) || (elem =? 0))) row.

(** Body of the loop [for row in rows] of [calculate_score], for the row
    at position [index_row]. *)
Definition calculate_score_row (player : player) (index_row : Z) : M unit :=
  rows <- gets (rows_of player) ;;
  row <- lift (Py.get rows index_row) ;;
  first_elem <- lift (Py.get row 0) ;;
  if row_is_completed row first_elem then
    clear_row index_row player ;;
    partial_score <- add_tile_to_scoreboard first_elem player index_row ;;
    update_score player partial_score
  else ret tt.

Definition calculate_score (player : player) : M unit :=
  rows <- gets (rows_of player) ;;
  for_each (Py.range (Z.of_nat (length rows)))
    (calculate_score_row player) ;;
  calculate_penality player.

(** ** LegalMoveGenerator *)

Definition valid_actions (player : player) : M (list (Z * Z * Z)) :=
  for_fold (Py.range 6) [] (fun i acc =>
    for_fold (Py.range 5) acc (fun j acc =>
      for_fold (Py.range 6) acc (fun k acc =>
        ok <- valid_move player i j k ;;
        if ok then ret (acc ++ [(i, j, k)]) else ret acc))).

(** ** RoundController *)

Definition pits_empty (pits : list (list Z)) : bool :=
  forallb (fun pit => forallb (fun tile_type => tile_type =? 0) pit) pits.

Definition is_turn_done : M unit :=
  modify (fun g => set_is_done_phase (pits_empty (drawing_pit g)) g).

Definition sum_list (l : list Z) : Z := fold_left Z.add l 0.

Definition has_full_row (board : list (list Z)) : bool :=
  existsb (fun row => sum_list row =? 5) board.

Definition is_game_done : M unit :=
  is_turn_done ;;
  done <- gets is_done_phase ;;
  if done then
    b1 <- gets board_p1 ;;
    if has_full_row b1 then modify (set_gameover true)
    else
      b2 <- gets board_p2 ;;
      if has_full_row b2 then modify (set_gameover true)
      else modify (set_gameover false)
  else ret tt.

(** ** End-game bonus *)

Definition count_eq (v : Z) (l : list Z) : Z :=
  Z.of_nat (length (List.filter (fun x => x =? v) l)).

Definition row_completed_score (scoreboard : list (list Z)) : Z :=
  Z.of_nat (length (List.filter (fun row => count_eq 1 row =? 5) scoreboard))
  * 2.

(** [cumulative = cumulative + row] adds a wall row, a numpy vector of
    width 5, element by element. *)
Definition column_sums (scoreboard : list (list Z)) : list Z :=
  fold_left (fun cumulative row => zip_with Z.add cumulative row)
    scoreboard [0; 0; 0; 0; 0].

Definition column_completed_score (scoreboard : list (list Z)) : Z :=
  count_eq 5 (column_sums scoreboard) * 5.

(** A loop over [l] that threads an accumulator and stops at the first
    failing read. *)
Fixpoint fold_opt {A S} (body : S -> A -> option S) (s : S) (l : list A)
  : option S :=
  match l with
  | [] => Some s
  | x :: l' =>
      match body s x with
      | Some s' => fold_opt body s' l'
      | None => None
      end
  end.

(** The double loop shared by [tile_completed_score] and
    [action_analisys_color]: every cell equal to 1 adds [weight i] to
    [tile_array[(i+j) % 5]]. *)
Definition tile_array_of (weight : Z -> Z) (scoreboard : list (list Z))
  : option (list Z) :=
  fold_opt (fun tile_array ij =>
      let '(i, j) := ij in
      cell ← Py.get2 scoreboard i j;
      if cell =? 1 then
        old ← Py.get tile_array ((i + j) mod 5);
        Py.set tile_array ((i + j) mod 5) (old + weight i)
      else Some tile_array)
    [0; 0; 0; 0; 0]
    (i ← Py.range 5; j ← Py.range 5; [(i, j)]).

Definition tile_completed_score (scoreboard : list (list Z)) : option Z :=
  tile_array ← tile_array_of (fun _ => 1) scoreboard;
  Some (count_eq 5 tile_array * 7).

Definition final_points (scoreboard : list (list Z)) : option Z :=
  tiles ← tile_completed_score scoreboard;
  Some (row_completed_score scoreboard
        + column_completed_score scoreboard + tiles).

Definition compute_final_points : M unit :=
  b1 <- gets board_p1 ;;
  bonus1 <- lift (final_points b1) ;;
  modify (fun g => set_p1_score (p1_score g + bonus1) g) ;;
  b2 <- gets board_p2 ;;
  bonus2 <- lift (final_points b2) ;;
  modify (fun g => set_p2_score (p2_score g + bonus2) g).

(** ** MoveAnalyzer *)

Definition compute_expected_row_points (column_choice tile_type : Z)
    (board : list (list Z)) : option Z :=
  row_choice ← Py.get board column_choice;
  let index_of_inserted_element := (tile_type + column_choice) mod 5 in
  fold_opt (fun expected_row_points i =>
      if i =? index_of_inserted_element then Some (expected_row_points + 1)
      else
        cell ← Py.get row_choice i;
        if cell =? 1 then Some (expected_row_points + 1)
        else Some expected_row_points)
    0 (Py.range 5).

(** Inner loop of [compute_expected_column_points] over one staging row:
    [inr v] is the early [return v]. *)
Fixpoint expected_column_inner (row : list Z) (flag : bool) (points : Z)
  : Z + Z :=
  match row with
  | [] => inl points
  | tile :: rest =>
      if tile =? 0 then
        if negb flag then expected_column_inner rest flag 0
        else inr points
      else expected_column_inner rest flag (points + 1)
  end.

Fixpoint expected_column_loop (row_array board : list (list Z))
    (column_choice tile_type : Z) (indices : list Z) (flag : bool)
    (points : Z)
  : option Z :=
  match indices with
  | [] => Some points
  | i :: rest =>
      if i =? column_choice then
        expected_column_loop row_array board column_choice tile_type rest
          true (points + 1)
      else
        cell ← Py.get2 board i tile_type;
        if negb (cell =? 0) then
          expected_column_loop row_array board column_choice tile_type rest
            flag (points + 1)
        else
          row ← Py.get row_array i;
          match expected_column_inner row flag points with
          | inl points' =>
              expected_column_loop row_array board column_choice tile_type
                rest flag points'
          | inr result => Some result
          end
  end.

Definition compute_expected_column_points (row_array : list (list Z))
    (column_choice tile_type : Z) (board : list (list Z)) : option Z :=
  expected_column_loop row_array board column_choice tile_type
    (Py.range 5) false 0.

Definition action_analisys_row (board : list (list Z)) (column_choice : Z)
  : option Z :=
  row ← Py.get board column_choice;
  Some (Z.of_nat (length (List.filter Py.truthy row))).

Definition action_analisys_column (board : list (list Z)) (tile_type : Z)
  : option Z :=
  Py.get (column_sums board) tile_type.

Definition action_analisys_color (board : list (list Z)) (tile_type : Z)
  : option Z :=
  tile_array ← tile_array_of (fun i => 1 * i) board;
  Py.get tile_array tile_type.

(** Returns [(row, column, color, expected_row_points,
    expected_column_point, column_completed)]. *)
Definition action_analisys (player : player) (tile_type column_choice : Z)
  : M (Z * Z * Z * Z * Z * Z) :=
  board <- gets (board_of player) ;;
  row_array <- gets (rows_of player) ;;
  if column_choice =? 5 then ret (0, 0, 0, 0, 0, 0)
  else
    staged <- lift (Py.get row_array column_choice) ;;
    let count_tiles_in_column := count_eq (tile_type + 1) staged in
    let full := count_tiles_in_column =? column_choice + 1 in
    expected_row_points <-
      (if full
       then lift (compute_expected_row_points column_choice tile_type board)
       else ret 0) ;;
    expected_column_point <-
      (if full
       then lift (compute_expected_column_points row_array column_choice
                    tile_type board)
       else ret 0) ;;
    in_row <- lift (action_analisys_row board column_choice) ;;
    in_column <- lift (action_analisys_column board tile_type) ;;
    in_color <- lift (action_analisys_color board tile_type) ;;
    ret (count_tiles_in_column + in_row,
         count_tiles_in_column + in_column,
         count_tiles_in_column + in_color,
         expected_row_points, expected_column_point,
         if full then 1 else 0).

(** ** Round set-up and construction *)

(** [draws i j] is the value of the [j]-th [np.random.randint(0, 5)] made
    for factory [i]. *)
Definition fill_pit (draws : Z -> Z) : option (list Z) :=
  fold_opt (fun pit j =>
      old ← Py.get pit (draws j);
      Py.set pit (draws j) (old + 1))
    [0; 0; 0; 0; 0] (Py.range 4).

Definition create_drawing_pit (draws : Z -> Z -> Z) : M unit :=
  modify (set_new_first_player true) ;;
  modify (fun g => set_player_turn (initial_player g) g) ;;
  modify (set_is_done_phase false) ;;
  pit_collection <- for_fold (Py.range 5) [] (fun i pit_collection =>
    pit <- lift (fill_pit (draws i)) ;;
    ret (pit_collection ++ [pit])) ;;
  let discard_pit := [0; 0; 0; 0; 0] in
  modify (set_penalty_row_p1 [0; 0; 0; 0; 0; 0; 0]) ;;
  modify (set_penalty_row_p2 [0; 0; 0; 0; 0; 0; 0]) ;;
  modify (set_drawing_pit (pit_collection ++ [discard_pit])).

Definition initialize_rows : list (list Z) :=
  [[0]; [0; 0]; [0; 0; 0]; [0; 0; 0; 0]; [0; 0; 0; 0; 0]].

Definition zeros_5x5 : list (list Z) := replicate 5 (replicate 5 0).

(** [Azul_game()]: the fields set before [create_drawing_pit], the call,
    then the remaining fields. *)
Definition Azul_game_init (draws : Z -> Z -> Z) : outcome unit * Azul_game :=
  (create_drawing_pit draws ;;
   modify (set_gameover false) ;;
   modify (set_is_done_phase false) ;;
   modify (set_inserted_tile_in_column_for_action 0) ;;
   modify (set_penality_for_action 0))
    {| p1_score := 0; p2_score := 0;
       player_turn := P1; initial_player := P1; new_first_player := true;
       board_p1 := zeros_5x5; board_p2 := zeros_5x5;
       rows_p1 := initialize_rows; rows_p2 := initialize_rows;
       penalty_row_p1 := [0; 0; 0; 0; 0; 0; 0];
       penalty_row_p2 := [0; 0; 0; 0; 0; 0; 0];
       drawing_pit := [];
       gameover := false; is_done_phase := false;
       inserted_tile_in_column_for_action := 0;
       penality_for_action := 0 |}.

(** ** The environment [Azul] *)

Module Azul.

Record env := mkEnv {
  game : Azul_game;
  player : Z
}.

Definition to_play (g : Azul_game) : Z :=
  match player_turn g with P1 => 0 | P2 => 1 end.

Definition have_winner : M bool := gets is_done_phase.

(** The body of [step] on [self.game]; the result is [(reward, done)].
    The observation, a read-only array built from the fields, is left
    out. *)
Definition step_game (action : Z) : M (Z * bool) :=
  let '(action_pit_choice, action_tile_type, action_column_choice) :=
    from_action_to_tuple_action action in
  player <- gets player_turn ;;
  _ <- play_turn player action_pit_choice action_tile_type
         action_column_choice ;;
  analysis <- action_analisys player action_tile_type action_column_choice ;;
  let '(_, _, _, expected_row_points, expected_column_point, _) := analysis in
  is_turn_done ;;
  is_game_done ;;
  done_phase <- gets is_done_phase ;;
  (if done_phase then
     calculate_score P1 ;;
     calculate_score P2 ;;
     over <- gets gameover ;;
     if over then compute_final_points else ret tt
   else ret tt) ;;
  done <- have_winner ;;
  inserted <- gets inserted_tile_in_column_for_action ;;
  penality <- gets penality_for_action ;;
  ret (inserted + expected_row_points + expected_column_point - penality,
       done).

(** [step]: the body above, then [self.player = self.to_play()]. *)
Definition step (action : Z) (self : env) : outcome (Z * bool) * env :=
  match step_game action (game self) with
  | (Ok r, g') => (Ok r, mkEnv g' (to_play g'))
  | (Raise e, g') => (Raise e, mkEnv g' (player self))
  end.

Definition legal_actions (self : env) : outcome (list Z) :=
  match valid_actions (if player self =? 0 then P1 else P2) (game self) with
  | (Ok legal_action_tuple, _) =>
      Ok (map (fun elem => let '(i, j, k) := elem in
                           from_tuple_action_to_action i j k)
            legal_action_tuple)
  | (Raise e, _) => Raise e
  end.

End Azul.

(** ** Well-formed game objects and reachable states *)

Definition shape (m : list (list Z)) : list nat := map length m.

(** Whether [m[i][j]] exists is decided by the shape of [m]. *)
Definition in_shape (sh : list nat) (i j : Z) : bool :=
  match Py.idx sh i with
  | Some k =>
      match sh !! k with
      | Some n => (- Z.of_nat n <=? j) && (j <? Z.of_nat n)
      | None => false
      end
  | None => false
  end.

(** The sizes every constructor gives the containers: six pools of five
    colour counts, 5x5 walls, staging rows of capacity 1..5 and penalty
    tracks of seven slots. *)
Record wf (g : Azul_game) : Prop := mkWf {
  wf_pit : shape (drawing_pit g) = [5; 5; 5; 5; 5; 5]%nat;
  wf_board : forall p, shape (board_of p g) = [5; 5; 5; 5; 5]%nat;
  wf_rows : forall p, shape (rows_of p g) = [1; 2; 3; 4; 5]%nat;
  wf_penalty : forall p, length (penalty_of p g) = 7%nat
}.

(** A staging row is a block of one colour followed by empty slots. *)
Definition row_ok (row : list Z) : Prop :=
  exists (k : nat) (c : Z),
    c <> 0 /\ row = replicate k c ++ replicate (length row - k) 0.

Definition rows_ok (g : Azul_game) : Prop :=
  forall p, Forall row_ok (rows_of p g).

Definition scores_nonneg (g : Azul_game) : Prop :=
  forall p, 0 <= score_of p g.

(** [np.random.randint(0, 5)] returns a value in [0, 5). *)
Definition randint_0_5 (draws : Z -> Z -> Z) : Prop :=
  forall i j, 0 <= draws i j < 5.

(** States an [Azul] environment can hold: a freshly constructed game,
    and whatever a call of [step] leaves behind, whether it returns or
    raises, for any integer submitted as the action. *)
Inductive reachable : Azul_game -> Prop :=
| reach_init draws :
    randint_0_5 draws -> reachable (snd (Azul_game_init draws))
| reach_step action g :
    reachable g -> reachable (snd (Azul.step_game action g)).

(** ** The scoring rules in the words of the specification *)

Module Spec.

(** Length of the run of set cells at the head of [cells]. *)
Fixpoint run (cells : list Z) : nat :=
  match cells with
  | [] => 0
  | x :: rest => if Py.truthy x then S (run rest) else 0
  end.

(** Adjacency of position [k] in a line of wall cells: the maximal run of
    set cells through [k] (those just before it and those from it on),
    minus one. *)
Definition adjacency (line : list Z) (k : nat) : Z :=
  Z.of_nat (run (rev (take k line)) + run (drop k line)) - 1.

Definition column (wall : list (list Z)) (c : nat) : list Z :=
  map (fun row => default 0 (row !! c)) wall.

Definition single_colour (row : list Z) (tile : Z) : bool :=
  negb (tile =? 0) && forallb (fun x => x =? tile) row.

(** Round scoring of staging row [r] of player [p]. *)
Definition score_row (p : player) (g : Azul_game) (r : nat) : Azul_game :=
  match rows_of p g !! r with
  | Some (tile :: rest) =>
      if single_colour (tile :: rest) tile then
        let colour := tile - 1 in
        let c := Z.to_nat ((colour + Z.of_nat r) mod 5) in
        let wall :=
          alter (fun cells => <[c := 1]> cells) r (board_of p g) in
        let gained :=
          1 + adjacency (default [] (wall !! r)) c
            + adjacency (column wall c) r in
        set_score_of p (score_of p g + gained)
          (set_board_of p wall
             (set_rows_of p
                (<[r := replicate (length (tile :: rest)) 0]> (rows_of p g))
                g))
      else g
  | _ => g
  end.

Definition score_rows (p : player) (g : Azul_game) : Azul_game :=
  fold_left (score_row p) (seq 0 5) g.

(** Penalty cost: the tiered costs of the occupied slots, 1 for slots
    0-1, 2 for slots 2-4 and 3 for slots 5-6. *)
Definition penalty_cost (track : list Z) : Z :=
  sum_list (imap (fun i slot =>
                    if Py.truthy slot then penalty_tier (Z.of_nat i) else 0)
              track).

(** End-game bonus: rows, columns, and colours; the cells of colour
    [colour] are the [(r, c)] with [(c - r) mod 5 = colour]. *)
Definition cell (wall : list (list Z)) (r c : Z) : Z :=
  default 0 (Py.get2 wall r c).

Definition full_rows (wall : list (list Z)) : Z :=
  Z.of_nat (length (List.filter
    (fun r => forallb (fun c => cell wall r c =? 1) (Py.range 5))
    (Py.range 5))).

Definition full_columns (wall : list (list Z)) : Z :=
  Z.of_nat (length (List.filter
    (fun c => forallb (fun r => cell wall r c =? 1) (Py.range 5))
    (Py.range 5))).

Definition full_colours (wall : list (list Z)) : Z :=
  Z.of_nat (length (List.filter
    (fun colour =>
       forallb (fun r => cell wall r ((colour + r) mod 5) =? 1) (Py.range 5))
    (Py.range 5))).

Definition endgame_bonus (wall : list (list Z)) : Z :=
  2 * full_rows wall + 5 * full_columns wall + 7 * full_colours wall.

End Spec.

(** ** Auxiliary functions of the proofs *)

(** The first phase of [scan_row]: a run counter that an empty cell
    resets. *)
Fixpoint count_back (score : Z) (cells : list Z) : Z :=
  match cells with
  | [] => score
  | x :: rest => count_back (if Py.truthy x then score + 1 else 0) rest
  end.

(** Whether the legality check answers true. *)
Definition legal_bool (p : player) (g : Azul_game) (i j k : Z) : bool :=
  match legal (drawing_pit g) (board_of p g) (rows_of p g) i j k with
  | Ok true => true
  | _ => false
  end.

(** ** A small program logic for [M] *)

(** [hoare P m Q E]: from a state in [P], [m] either returns [a] in a
    state satisfying [Q a], or raises leaving a state in [E]. *)
Definition hoare {A} (P : Azul_game -> Prop) (m : M A)
    (Q : A -> Azul_game -> Prop) (E : Azul_game -> Prop) : Prop :=
  forall g, P g ->
    match m g with
    | (Ok a, g') => Q a g'
    | (Raise _, g') => E g'
    end.

(** [I] holds after [m] however it ends. *)
Definition preserves {A} (I : Azul_game -> Prop) (m : M A) : Prop :=
  hoare I m (fun _ => I) I.

(** [m] keeps [I] and cannot raise from a state in [I]. *)
Definition safe {A} (I : Azul_game -> Prop) (m : M A) : Prop :=
  hoare I m (fun _ => I) (fun _ => False).


(** ** Concrete games used in the examples *)

Module Examples.

(** A fresh game whose factories were filled by the draws
    [(i + j) mod 5]: factory 0 holds colours 0..3, factory 1 colours
    1..4, and so on. *)
Definition fresh : Azul_game :=
  snd (Azul_game_init (fun i j => (i + j) mod 5)).

(** The state left by a list of actions submitted to [step] in turn. *)
Definition after (actions : list Z) (g : Azul_game) : Azul_game :=
  fold_left (fun g a => snd (Azul.step_game a g)) actions g.

(** A whole round played from [fresh]: after [round_moves] the centre
    holds the last tiles, all of colour 4, and it is P1's turn; action 89
    (pool 5, colour 4, row 2) takes them. *)
Definition round_moves : list Z := [0; 7; 2; 33; 4; 11; 47; 83].

Definition last_move : Azul_game := after round_moves fresh.

Definition round_end : Azul_game := after [89] last_move.

(** Walls for the end-game bonus: the top row plus the main diagonal
    (all five cells of colour 0), and the anti-diagonal (one cell of
    each colour). *)
Definition wall_row_and_diagonal : list (list Z) :=
  [[1; 1; 1; 1; 1]; [0; 1; 0; 0; 0]; [0; 0; 1; 0; 0];
   [0; 0; 0; 1; 0]; [0; 0; 0; 0; 1]].

Definition wall_anti_diagonal : list (list Z) :=
  [[1; 0; 0; 0; 0]; [0; 0; 0; 0; 1]; [0; 0; 0; 1; 0];
   [0; 0; 1; 0; 0]; [0; 1; 0; 0; 0]].

Definition finished : Azul_game :=
  set_board_p1 wall_row_and_diagonal
    (set_board_p2 wall_anti_diagonal (set_gameover true round_end)).

End Examples.

(** ** Invariants *)

(** Predicates that survive every update that keeps the sizes of the
    pools, walls and penalty tracks, and every update of a scalar field
    other than the scores. *)
Record frame (I : Azul_game -> Prop) : Prop := mkFrame {
  fr_pit : forall g m,
    I g -> shape m = shape (drawing_pit g) -> I (set_drawing_pit m g);
  fr_board : forall p g m,
    I g -> shape m = shape (board_of p g) -> I (set_board_of p m g);
  fr_penalty : forall p g l,
    I g -> length l = length (penalty_of p g) -> I (set_penalty_of p l g);
  fr_player_turn : forall g v, I g -> I (set_player_turn v g);
  fr_initial_player : forall g v, I g -> I (set_initial_player v g);
  fr_new_first_player : forall g v, I g -> I (set_new_first_player v g);
  fr_gameover : forall g v, I g -> I (set_gameover v g);
  fr_is_done_phase : forall g v, I g -> I (set_is_done_phase v g);
  fr_inserted : forall g v,
    I g -> I (set_inserted_tile_in_column_for_action v g);
  fr_penality : forall g v, I g -> I (set_penality_for_action v g)
}.

(** Predicates that also survive size-keeping updates of the staging
    rows, and updates of the scores. *)
Definition rows_closed (I : Azul_game -> Prop) : Prop :=
  forall p g m, I g -> shape m = shape (rows_of p g) -> I (set_rows_of p m g).

Definition score_closed (I : Azul_game -> Prop) : Prop :=
  forall p g v, I g -> I (set_score_of p v g).

(** Staging row [col] of player [p] is empty or already holds colour
    [tile]: what the legality check requires of its first slot. *)
Definition row_accepts (p : player) (col tile : Z) (g : Azul_game) : Prop :=
  exists first,
    Py.get2 (rows_of p g) col 0 = Some first
    /\ (first = 0 \/ first = tile + 1).

(** What holds in every state an environment can hold. *)
Definition Inv (g : Azul_game) : Prop :=
  wf g /\ rows_ok g /\ scores_nonneg g.

(** [I] survives every score update made through [update_score]. *)
Definition score_kept (I : Azul_game -> Prop) : Prop :=
  forall p points, preserves I (update_score p points).

(** The round-complete flag agrees with the pools. *)
Definition done_flag_ok (g : Azul_game) : Prop :=
  is_done_phase g = pits_empty (drawing_pit g).

(** ** Counting the tiles in the pools *)

(** Number of tiles of colour [c] held by the pools, the factories and
    the centre together. *)
Definition colour_total (pits : list (list Z)) (c : Z) : Z :=
  sum_list (map (fun pit => default 0 (Py.get pit c)) pits).

(** Number of tiles held by the pools. *)
Definition pool_total (pits : list (list Z)) : Z :=
  sum_list (map sum_list pits).

(** ** Snapshots of a field *)

(** The value read by [f] is [v]. *)
Definition field_is {A} (f : Azul_game -> A) (v : A) : Azul_game -> Prop :=
  fun g => f g = v.

(** Every pool count is non-negative. *)
Definition pits_nonneg (pits : list (list Z)) : Prop :=
  Forall (Forall (fun x => 0 <= x)) pits.

(** The pools have their six-by-five shape, hold no negative count and,
    for every colour [c], at most [bound c] tiles. *)
Definition pits_below (bound : Z -> Z) (g : Azul_game) : Prop :=
  shape (drawing_pit g) = [5; 5; 5; 5; 5; 5]%nat
  /\ pits_nonneg (drawing_pit g)
  /\ forall c, 0 <= c < 5 -> colour_total (drawing_pit g) c <= bound c.

(** ** Walls *)

(** [new] is [old] with some cells set to 1. *)
Definition wall_extends (old new : list (list Z)) : Prop :=
  Forall2 (Forall2 (fun x y => y = x \/ y = 1)) old new.

(** Every cell is 0 or 1. *)
Definition wall_binary (wall : list (list Z)) : Prop :=
  Forall (Forall (fun x => x = 0 \/ x = 1)) wall.

(** ** Penalty tracks *)

(** A track whose first [k] slots are occupied. *)
Definition penalty_block (k : nat) : list Z :=
  replicate k 1 ++ replicate (7 - k) 0.

(** Each track has its first [k] slots occupied, the others free, for
    some [k] between the bound of its player and 7. *)
Definition tracks_from (least : player -> nat) (g : Azul_game) : Prop :=
  forall q, exists k,
    (least q <= k <= 7)%nat /\ penalty_of q g = penalty_block k.

(** ** Computations that ignore the state *)

(** [m] gives the same outcome in every state and leaves the state
    alone. *)
Definition stateless {A} (m : M A) : Prop :=
  exists o, forall g, m g = (o, g).

(** ** Values of the staging slots *)

(** Every staging slot holds 0 (free) or a colour plus one. *)
Definition slots_ok (g : Azul_game) : Prop :=
  forall q, Forall (Forall (fun x => 0 <= x <= 5)) (rows_of q g).

(** ** Observation *)

(** [np.asarray(m, dtype=np.int8)] on a list of lines.  A rectangular
    [m] whose entries fit in a signed byte is kept as it is.  For ragged
    input, and for entries outside [-128, 127], what NumPy does depends
    on its version (an error, or wrap-around): no value is given. *)
Definition fits_int8 (v : Z) : bool := (-128 <=? v) && (v <=? 127).

Definition as_int8_matrix (m : list (list Z)) : option (list (list Z)) :=
  if forallb (fun line =>
                (length line =? length (default [] (head m)))%nat
                && forallb fits_int8 line) m
  then Some m else None.

(** The loop [for tile in row: if tile != 0: count = 0], started with
    [count = 0]. *)
Definition row_count (row : list Z) : Z :=
  fold_left (fun count tile => if negb (tile =? 0) then 0 else count) row 0.

(** The loop [for tile in penalty_row: if tile != 0: count = count + 1]. *)
Definition penalty_count (penalty_row : list Z) : Z :=
  fold_left (fun count tile => if negb (tile =? 0) then count + 1 else count)
    penalty_row 0.

(** One player's block of the observation: for each staging row its
    first slot, [count] and the wall row; then the penalty line. *)
Definition obs_rows (rows board : list (list Z)) (penalty_row : list Z)
  : option (list (list Z)) :=
  lines ← fold_opt (fun obs_rows i =>
      row ← Py.get rows i;
      let count := row_count row in
      first ← Py.get row 0;
      wall_row ← Py.get board i;
      Some (obs_rows ++ [[first; count] ++ wall_row]))
    [] (Py.range 5);
  let count := penalty_count penalty_row in
  as_int8_matrix (lines ++ [[count; 0; 0; 0; 0; 0; 0]]).

(** [board_to_obs]; [None] stands for an exception or for input on which
    the conversions above give no value.  The final
    [np.array([obs_rows_p1, obs_rows_p2, obs_pit])] stacks three blocks
    of the same shape. *)
Definition board_to_obs (g : Azul_game) : option (list (list (list Z))) :=
  obs_rows_p1 ← obs_rows (rows_p1 g) (board_p1 g) (penalty_row_p1 g);
  obs_rows_p2 ← obs_rows (rows_p2 g) (board_p2 g) (penalty_row_p2 g);
  obs_pit ← as_int8_matrix (map (fun pit => pit ++ [0; 0]) (drawing_pit g));
  if decide (shape obs_rows_p1 = shape obs_rows_p2
             /\ shape obs_rows_p2 = shape obs_pit)
  then Some [obs_rows_p1; obs_rows_p2; obs_pit]
  else None.

Definition get_observation (g : Azul_game)
  : option (list (list (list Z))) :=
  board_to_obs g.

(** The block of player [p] as the observation should show it: for each
    staging row its first slot, a 0 and the wall row, then the number
    of occupied penalty slots followed by zeros. *)
Definition obs_side (p : player) (g : Azul_game) : list (list Z) :=
  zip_with (fun row wall_row => [default 0 (head row); 0] ++ wall_row)
    (rows_of p g) (board_of p g)
  ++ [[penalty_count (penalty_of p g); 0; 0; 0; 0; 0; 0]].

(** ** Construction and reset of the environment *)

(** [self.game.play_turn == "P1"] compares the bound method [play_turn],
    not the field [player_turn], with a string: the test is false. *)
Definition play_turn_is_P1 : bool := false.

(** [Azul()]; [None] stands for an exception. *)
Definition Azul_init (draws : Z -> Z -> Z) : option Azul.env :=
  match Azul_game_init draws with
  | (Ok _, game) =>
      let player := if play_turn_is_P1 then 0 else 1 in
      _ ← board_to_obs game;
      Some (Azul.mkEnv game player)
  | (Raise _, _) => None
  end.

(** [reset]: [refill] are the draws of the first statement, which builds
    a new game or refills the pools of the current one, [draws] those of
    the unconditional [self.game = Azul_game()] that follows.  The
    result is the observation returned and the environment. *)
Definition Azul_reset (refill draws : Z -> Z -> Z) (self : Azul.env)
  : option (list (list (list Z)) * Azul.env) :=
  _ ← (if gameover (Azul.game self) then
         match Azul_game_init refill with
         | (Ok _, game) => Some game
         | (Raise _, _) => None
         end
       else
         match create_drawing_pit refill (Azul.game self) with
         | (Ok _, game) => Some game
         | (Raise _, _) => None
         end);
  match Azul_game_init draws with
  | (Ok _, game) =>
      _ ← board_to_obs game;
      let player := if play_turn_is_P1 then 0 else 1 in
      obs ← get_observation game;
      Some (obs, Azul.mkEnv game player)
  | (Raise _, _) => None
  end.

(** ** Staging rows *)

(** A staging row of capacity [size] whose first [j] slots hold [v]. *)
Definition row_block (size j : nat) (v : Z) : list Z :=
  replicate j v ++ replicate (size - j) 0.

(** ** Complete staging rows *)

(** The test of [calculate_score] on one row: every slot holds the
    colour of the first slot, which is not 0. *)
Definition row_complete (row : list Z) : bool :=
  match row with
  | tile :: _ => Spec.single_colour row tile
  | [] => false
  end.

Definition no_complete_row (g : Azul_game) : Prop :=
  forall p, forallb (fun row => negb (row_complete row)) (rows_of p g) = true.

(** ** The scripted opponent and the human player *)

(** [expert_action]: [random.shuffle] puts the list in some order, given
    here by [shuffle]; [actions.pop()] takes the last element and raises
    [IndexError] on an empty list. *)
Definition expert_action (shuffle : list (Z * Z * Z) -> list (Z * Z * Z))
  : M Z :=
  actions <- valid_actions P2 ;;
  let actions := shuffle actions in
  tuple_action <- lift (last actions) ;;
  let '(i, j, k) := tuple_action in
  ret (from_tuple_action_to_action i j k).

(** [human_to_action] of the wrapper [Game]: [input k] is the integer
    read by the [k]-th [int(input(...))].  The test of the loop is
    [action_numerical not in
     [action_numerical for action in self.legal_actions()]].
    The loop runs on [fuel]; [None] means the fuel ran out. *)
Fixpoint human_to_action_loop (fuel : nat) (input : nat -> Z) (k : nat)
    (action_numerical : Z) (self : Azul.env) : option (outcome Z) :=
  match Azul.legal_actions self with
  | Raise e => Some (Raise e)
  | Ok legal =>
      if negb (existsb (Z.eqb action_numerical)
                 (map (fun action => action_numerical) legal))
      then
        match fuel with
        | O => None
        | S fuel' =>
            human_to_action_loop fuel' input (k + 3)
              (from_tuple_action_to_action
                 (input k) (input (k + 1)%nat) (input (k + 2)%nat))
              self
        end
      else Some (Ok action_numerical)
  end.

Definition human_to_action (fuel : nat) (input : nat -> Z)
    (self : Azul.env) : option (outcome Z) :=
  human_to_action_loop fuel input 3
    (from_tuple_action_to_action (input 0%nat) (input 1%nat) (input 2%nat))
    self.
(** * Proofs *)

(** ** Python indexing *)

Section PyFacts.
Context {A : Type}.
Implicit Types (l : list A) (i : Z) (k : nat).

Lemma idx_lt l i k : Py.idx l i = Some k -> (k < length l)%nat.
Proof.
  unfold Py.idx. intros H.
  destruct ((0 <=? i) && (i <? Z.of_nat (length l))) eqn:E1.
  - apply andb_true_iff in E1 as [H1 H2]. inversion H; subst. lia.
  - destruct ((- Z.of_nat (length l) <=? i) && (i <? 0)) eqn:E2;
      [|discriminate].
    apply andb_true_iff in E2 as [H1 H2]. inversion H; subst. lia.
Qed.

Lemma idx_in_range l i :
  0 <= i < Z.of_nat (length l) -> Py.idx l i = Some (Z.to_nat i).
Proof.
  intros H. unfold Py.idx.
  replace ((0 <=? i) && (i <? Z.of_nat (length l))) with true; [done|].
  symmetry. apply andb_true_iff. lia.
Qed.

Lemma idx_is_Some l i :
  is_Some (Py.idx l i) <-> - Z.of_nat (length l) <= i < Z.of_nat (length l).
Proof.
  unfold Py.idx.
  destruct ((0 <=? i) && (i <? Z.of_nat (length l))) eqn:E1.
  - apply andb_true_iff in E1. split; [lia|eauto].
  - destruct ((- Z.of_nat (length l) <=? i) && (i <? 0)) eqn:E2.
    + apply andb_true_iff in E2. split; [lia|eauto].
    + apply andb_false_iff in E1, E2.
      split; [intros [? ?]; discriminate|]. lia.
Qed.

Lemma idx_length {B} l (l' : list B) i :
  length l = length l' -> Py.idx l i = Py.idx l' i.
Proof. unfold Py.idx. by intros ->. Qed.

Lemma get_is_Some l i :
  is_Some (Py.get l i) <-> - Z.of_nat (length l) <= i < Z.of_nat (length l).
Proof.
  rewrite <- idx_is_Some. unfold Py.get.
  destruct (Py.idx l i) as [k|] eqn:E.
  - split; [eauto|]. intros _. apply lookup_lt_is_Some. by eapply idx_lt.
  - split; intros [? ?]; discriminate.
Qed.

Lemma set_is_Some l i v :
  is_Some (Py.set l i v) <-> - Z.of_nat (length l) <= i < Z.of_nat (length l).
Proof.
  rewrite <- idx_is_Some. unfold Py.set.
  destruct (Py.idx l i); split; eauto; intros [? ?]; discriminate.
Qed.

Lemma get_in_range l i :
  0 <= i < Z.of_nat (length l) -> Py.get l i = l !! Z.to_nat i.
Proof. intros H. unfold Py.get. by rewrite idx_in_range. Qed.

Lemma set_in_range l i v :
  0 <= i < Z.of_nat (length l) -> Py.set l i v = Some (<[Z.to_nat i := v]> l).
Proof. intros H. unfold Py.set. by rewrite idx_in_range. Qed.

Lemma set_length l i v l' : Py.set l i v = Some l' -> length l' = length l.
Proof.
  unfold Py.set. destruct (Py.idx l i); [|discriminate].
  intros [= <-]. apply length_insert.
Qed.

Lemma get_elem_of l i x : Py.get l i = Some x -> x ∈ l.
Proof.
  unfold Py.get. destruct (Py.idx l i); [|discriminate].
  apply list_elem_of_lookup_2.
Qed.

End PyFacts.

Lemma shape_length m : length (shape m) = length m.
Proof. apply length_map. Qed.

Lemma shape_lookup m k row :
  m !! k = Some row -> shape m !! k = Some (length row).
Proof. intros H. unfold shape. by rewrite list_lookup_fmap, H. Qed.

Lemma shape_insert m k row r' :
  m !! k = Some row -> length r' = length row ->
  shape (<[k := r']> m) = shape m.
Proof.
  intros H Hl. unfold shape.
  rewrite list_fmap_insert, Hl.
  apply list_insert_id. by rewrite list_lookup_fmap, H.
Qed.

Lemma shape_set2 m i j v m' :
  Py.set2 m i j v = Some m' -> shape m' = shape m.
Proof.
  unfold Py.set2, Py.get, Py.set at 2.
  destruct (Py.idx m i) as [k|]; [|discriminate].
  destruct (m !! k) as [row|] eqn:Hk; [|discriminate].
  destruct (Py.set row j v) as [r'|] eqn:Hs; [|discriminate].
  intros [= <-]. eapply shape_insert; [done|]. by eapply set_length.
Qed.

Lemma get2_is_Some m i j :
  is_Some (Py.get2 m i j) <-> in_shape (shape m) i j = true.
Proof.
  unfold Py.get2, in_shape, Py.get at 1.
  rewrite (idx_length (shape m) m) by apply shape_length.
  destruct (Py.idx m i) as [k|] eqn:Hi.
  - destruct (m !! k) as [row|] eqn:Hk.
    + rewrite (shape_lookup _ _ _ Hk), get_is_Some, andb_true_iff. lia.
    + apply idx_lt, lookup_lt_is_Some in Hi. rewrite Hk in Hi.
      by destruct Hi.
  - split; [intros [? ?]|]; discriminate.
Qed.

Lemma set2_is_Some m i j v :
  is_Some (Py.set2 m i j v) <-> in_shape (shape m) i j = true.
Proof.
  rewrite <- get2_is_Some. unfold Py.set2, Py.get2.
  destruct (Py.get m i) as [row|] eqn:Hr; [|done].
  rewrite get_is_Some, <- (set_is_Some row j v).
  destruct (Py.set row j v) as [r'|] eqn:Hs.
  - split; [eauto|]. intros _.
    apply set_is_Some. apply get_is_Some. eauto.
  - split; [intros [? ?]; discriminate|intros [? ?]; discriminate].
Qed.

Lemma get2_Some_shape m i j sh :
  shape m = sh -> in_shape sh i j = true -> exists x, Py.get2 m i j = Some x.
Proof. intros <- H. by apply get2_is_Some. Qed.

Lemma set2_Some_shape m i j v sh :
  shape m = sh -> in_shape sh i j = true ->
  exists m', Py.set2 m i j v = Some m' /\ shape m' = sh.
Proof.
  intros <- H. apply (set2_is_Some m i j v) in H as [m' Hm'].
  exists m'. split; [done|]. by eapply shape_set2.
Qed.

(** ** Rules of the program logic *)

Section Rules.
Context {A : Type}.
Implicit Types (P E : Azul_game -> Prop) (Q : A -> Azul_game -> Prop).

Lemma hoare_conseq P P' (m : M A) Q Q' E E' :
  hoare P' m Q' E' ->
  (forall g, P g -> P' g) -> (forall a g, Q' a g -> Q a g) ->
  (forall g, E' g -> E g) ->
  hoare P m Q E.
Proof.
  intros Hm HP HQ HE g Hg. specialize (Hm g (HP g Hg)).
  destruct (m g) as [[a|e] g']; auto.
Qed.

Lemma hoare_ret P (a : A) Q E : (forall g, P g -> Q a g) -> hoare P (ret a) Q E.
Proof. intros H g Hg. by apply H. Qed.

Lemma hoare_raise P e Q E : (forall g, P g -> E g) -> hoare P (@raise A e) Q E.
Proof. intros H g Hg. by apply H. Qed.

Lemma hoare_bind {B} P (m : M B) (f : B -> M A) R Q E :
  hoare P m R E -> (forall b, hoare (R b) (f b) Q E) ->
  hoare P (bind m f) Q E.
Proof.
  intros Hm Hf g Hg. unfold bind. specialize (Hm g Hg).
  destruct (m g) as [[b|e] g']; [by apply Hf|done].
Qed.

Lemma hoare_gets P (f : Azul_game -> A) Q E :
  (forall g, P g -> Q (f g) g) -> hoare P (gets f) Q E.
Proof. intros H g Hg. by apply H. Qed.

Lemma hoare_lift P (o : option A) Q E :
  (forall g, P g -> match o with Some a => Q a g | None => E g end) ->
  hoare P (lift o) Q E.
Proof. intros H g Hg. specialize (H g Hg). by destruct o. Qed.

End Rules.

Lemma hoare_modify P f (Q : unit -> Azul_game -> Prop) E :
  (forall g, P g -> Q tt (f g)) -> hoare P (modify f) Q E.
Proof. intros H g Hg. by apply H. Qed.

Lemma hoare_read1 P sel i (Q : Z -> Azul_game -> Prop) E :
  (forall g, P g ->
     match Py.get (sel g) i with Some a => Q a g | None => E g end) ->
  hoare P (read1 sel i) Q E.
Proof.
  intros H g Hg. specialize (H g Hg). unfold read1.
  by destruct (Py.get (sel g) i).
Qed.

Lemma hoare_read2 P sel i j (Q : Z -> Azul_game -> Prop) E :
  (forall g, P g ->
     match Py.get2 (sel g) i j with Some a => Q a g | None => E g end) ->
  hoare P (read2 sel i j) Q E.
Proof.
  intros H g Hg. specialize (H g Hg). unfold read2.
  by destruct (Py.get2 (sel g) i j).
Qed.

Lemma hoare_write1 P sel upd i v (Q : unit -> Azul_game -> Prop) E :
  (forall g, P g ->
     match Py.set (sel g) i v with
     | Some l => Q tt (upd l g)
     | None => E g
     end) ->
  hoare P (write1 sel upd i v) Q E.
Proof.
  intros H g Hg. specialize (H g Hg). unfold write1.
  by destruct (Py.set (sel g) i v).
Qed.

Lemma hoare_write2 P sel upd i j v (Q : unit -> Azul_game -> Prop) E :
  (forall g, P g ->
     match Py.set2 (sel g) i j v with
     | Some m => Q tt (upd m g)
     | None => E g
     end) ->
  hoare P (write2 sel upd i j v) Q E.
Proof.
  intros H g Hg. specialize (H g Hg). unfold write2.
  by destruct (Py.set2 (sel g) i j v).
Qed.

(** Loops: the invariant may depend on the number of iterations done. *)
Lemma hoare_for_each_pos {B} (J : nat -> Azul_game -> Prop) (l : list B)
    body E :
  (forall k x, l !! k = Some x -> hoare (J k) (body x) (fun _ => J (S k)) E) ->
  hoare (J 0%nat) (for_each l body) (fun _ => J (length l)) E.
Proof.
  revert J. induction l as [|x l IH]; intros J H; simpl.
  - by apply hoare_ret.
  - eapply hoare_bind; [exact (H 0%nat x eq_refl)|].
    intros []. apply (IH (fun k => J (S k))).
    intros k y Hk. exact (H (S k) y Hk).
Qed.

Lemma hoare_for_fold_pos {B St} (J : nat -> St -> Azul_game -> Prop)
    (l : list B) (s : St) body E :
  (forall k x s, l !! k = Some x -> hoare (J k s) (body x s) (J (S k)) E) ->
  hoare (J 0%nat s) (for_fold l s body) (J (length l)) E.
Proof.
  revert J s. induction l as [|x l IH]; intros J s H; simpl.
  - by apply hoare_ret.
  - eapply hoare_bind; [exact (H 0%nat x s eq_refl)|].
    intros s'. apply (IH (fun k => J (S k))).
    intros k y s'' Hk. exact (H (S k) y s'' Hk).
Qed.

Lemma hoare_for_each {B} (I : Azul_game -> Prop) (l : list B) body E :
  (forall x, x ∈ l -> hoare I (body x) (fun _ => I) E) ->
  hoare I (for_each l body) (fun _ => I) E.
Proof.
  intros H. apply (hoare_for_each_pos (fun _ => I)).
  intros k x Hk. apply H. by eapply list_elem_of_lookup_2.
Qed.

Lemma hoare_for_fold {B St} (I : Azul_game -> Prop) (l : list B) (s : St)
    body E :
  (forall x s, x ∈ l -> hoare I (body x s) (fun _ => I) E) ->
  hoare I (for_fold l s body) (fun _ => I) E.
Proof.
  intros H. apply (hoare_for_fold_pos (fun _ _ => I)).
  intros k x s' Hk. apply H. by eapply list_elem_of_lookup_2.
Qed.

Lemma elem_of_range n i : i ∈ Py.range n <-> 0 <= i < n.
Proof.
  unfold Py.range. rewrite list_elem_of_fmap. split.
  - intros (k & -> & Hk). apply elem_of_seq in Hk. lia.
  - intros H. exists (Z.to_nat i). split; [lia|]. apply elem_of_seq. lia.
Qed.

Lemma range_lookup n k i : Py.range n !! k = Some i -> i = Z.of_nat k /\ i < n.
Proof.
  unfold Py.range. rewrite list_lookup_fmap.
  destruct (seq 0 (Z.to_nat n) !! k) as [x|] eqn:Hx; [|discriminate].
  apply lookup_seq in Hx as [-> Hlt]. intros [= <-]. lia.
Qed.

Lemma range_length n : length (Py.range n) = Z.to_nat n.
Proof. unfold Py.range. by rewrite length_map, length_seq. Qed.

Create HintDb keep_db.

(** Steps shared by proofs that an invariant is kept by straight-line
    code: split binds, branch on tests, and leave the elementary updates
    to [tac]. *)
Ltac keep_step tac :=
  lazymatch goal with
  | |- hoare ?I (bind _ _) (fun _ => ?I) _ =>
      eapply (hoare_bind I _ _ (fun _ => I)); [|intros ?]
  | |- hoare _ (ret _) _ _ => apply hoare_ret; intros ? ?; tac
  | |- hoare _ (gets _) _ _ => apply hoare_gets; intros ? ?; tac
  | |- hoare _ (modify _) _ _ => apply hoare_modify; intros ? ?; tac
  | |- hoare _ (raise _) _ _ => apply hoare_raise; intros ? ?; tac
  | |- hoare _ (lift ?o) _ _ =>
      apply hoare_lift; intros ? ?; destruct o; tac
  | |- hoare _ (read1 _ _) _ _ =>
      apply hoare_read1; intros ? ?;
      match goal with |- match ?o with _ => _ end => destruct o eqn:? end; tac
  | |- hoare _ (read2 _ _ _) _ _ =>
      apply hoare_read2; intros ? ?;
      match goal with |- match ?o with _ => _ end => destruct o eqn:? end; tac
  | |- hoare _ (write1 _ _ _ _) _ _ =>
      apply hoare_write1; intros ? ?;
      match goal with |- match ?o with _ => _ end => destruct o eqn:? end; tac
  | |- hoare _ (write2 _ _ _ _ _) _ _ =>
      apply hoare_write2; intros ? ?;
      match goal with |- match ?o with _ => _ end => destruct o eqn:? end; tac
  | |- hoare _ (for_each _ _) _ _ => apply hoare_for_each; intros ? ?
  | |- hoare _ (for_fold _ _ _) _ _ => apply hoare_for_fold; intros ? ? ?
  | |- hoare _ (if ?b then _ else _) _ _ => destruct b eqn:?
  | |- hoare _ (match ?x with (_, _) => _ end) _ _ => destruct x eqn:?
  | |- hoare _ (let '(_, _) := ?x in _) _ _ => destruct x eqn:?
  | |- hoare ?I ?m (fun _ => ?I) ?I =>
      change (preserves I m); solve [eauto with keep_db]
  end.

Ltac keep tac := repeat (keep_step tac).

(** ** ActionCodec *)

Ltac enumerate x lo hi :=
  let rec go k n :=
    lazymatch n with
    | O => exfalso; lia
    | S ?n' =>
        let H := fresh in
        destruct (Z.eq_dec x k) as [H|H];
        [subst x | let k' := eval compute in (k + 1) in go k' n']
    end in
  let n := eval compute in (Z.to_nat (hi - lo)) in
  go lo n.

(** C7. Decoding the encoding of a triple with [pool] in [0,6), [color]
    in [0,5) and [target] in [0,6) gives the triple back; the encoding is
    [pool + color*6 + target*30] and the decoding of that id is
    [(id mod 6, (id / 6) mod 5, id / 30)]. *)
Theorem codec_roundtrip (pool color target : Z) :
  0 <= pool < 6 -> 0 <= color < 5 -> 0 <= target < 6 ->
  let id := from_tuple_action_to_action pool color target in
  id = pool + color * 6 + target * 30
  /\ from_action_to_tuple_action id = (id mod 6, (id / 6) mod 5, id / 30)
  /\ from_action_to_tuple_action id = (pool, color, target).
Proof.
  intros Hp Hc Ht.
  enumerate pool 0 6; enumerate color 0 5; enumerate target 0 6;
    vm_compute; done.
Qed.

Lemma codec_roundtrip_witness :
  from_action_to_tuple_action (from_tuple_action_to_action 5 4 5) = (5, 4, 5).
Proof. apply (codec_roundtrip 5 4 5); lia. Defined.

(** Every id in [0,180) decodes to indices in range. *)
Lemma decode_in_range (action : Z) :
  0 <= action < 180 ->
  exists pit tile column,
    from_action_to_tuple_action action = (pit, tile, column)
    /\ 0 <= pit < 6 /\ 0 <= tile < 5 /\ 0 <= column < 6.
Proof.
  intros H. unfold from_action_to_tuple_action, Py.int_div.
  destruct (action <? 6) eqn:E1; [|destruct (action <? 30) eqn:E2].
  - eexists _, _, _. split; [done|]. lia.
  - eexists _, _, _. split; [done|].
    pose proof (Z.mod_pos_bound action 6).
    pose proof (Z.quot_pos action 6).
    assert (action ÷ 6 < 5) by (apply Z.quot_lt_upper_bound; lia). lia.
  - eexists _, _, _. split; [done|].
    pose proof (Z.mod_pos_bound action 6).
    pose proof (Z.mod_pos_bound action (6 * 5)).
    pose proof (Z.quot_pos (action mod (6 * 5)) 6).
    pose proof (Z.quot_pos action (6 * 5)).
    assert (action mod (6 * 5) ÷ 6 < 5) by (apply Z.quot_lt_upper_bound; lia).
    assert (action ÷ (6 * 5) < 6) by (apply Z.quot_lt_upper_bound; lia).
    lia.
Qed.

(** Whatever the id, the decoded colour is in [0,5) and the decoded
    target is not negative. *)
Lemma decode_colour (action : Z) :
  exists pit tile column,
    from_action_to_tuple_action action = (pit, tile, column)
    /\ 0 <= tile < 5 /\ 0 <= column.
Proof.
  unfold from_action_to_tuple_action, Py.int_div.
  destruct (action <? 6) eqn:E1; [|destruct (action <? 30) eqn:E2].
  - eexists _, _, _. split; [done|]. lia.
  - eexists _, _, _. split; [done|].
    pose proof (Z.quot_pos action 6).
    assert (action ÷ 6 < 5) by (apply Z.quot_lt_upper_bound; lia). lia.
  - eexists _, _, _. split; [done|].
    pose proof (Z.mod_pos_bound action (6 * 5)).
    pose proof (Z.quot_pos (action mod (6 * 5)) 6).
    pose proof (Z.quot_pos action (6 * 5)).
    assert (action mod (6 * 5) ÷ 6 < 5) by (apply Z.quot_lt_upper_bound; lia).
    lia.
Qed.

(** ** RuleEngine: the legality check reads, and only reads *)

Lemma valid_move_frame (I : Azul_game -> Prop) player pit color target :
  preserves I (valid_move player pit color target).
Proof. unfold preserves, valid_move. keep ltac:(auto). Qed.

Lemma valid_move_state player pit color target g :
  snd (valid_move player pit color target g) = g.
Proof.
  pose proof (valid_move_frame (fun g' => g' = g) player pit color target g
                eq_refl) as H.
  by destruct (valid_move player pit color target g) as [[b|e] g'].
Qed.

Lemma valid_move_eq player pit color target g :
  valid_move player pit color target g
  = (legal (drawing_pit g) (board_of player g) (rows_of player g)
       pit color target, g).
Proof.
  unfold valid_move, legal, bind, read2, lift, ret, raise.
  destruct (Py.get2 (drawing_pit g) pit color) as [d|]; simpl; [|done].
  destruct (d =? 0); [done|].
  destruct (negb (target =? 5)); [|done].
  destruct (Py.get2 (board_of player g) target ((color + target) mod 5))
    as [cell|]; simpl; [|done].
  destruct (cell =? 1); [done|].
  destruct (Py.get2 (rows_of player g) target 0) as [first|]; simpl; [|done].
  by destruct ((first =? 0) || (first =? color + 1)).
Qed.

Lemma play_turn_rejected player pit color target g :
  fst (valid_move player pit color target g) = Ok false ->
  play_turn player pit color target g
  = (Ok false, set_penality_for_action 0 g).
Proof.
  rewrite valid_move_eq. simpl. intros H.
  unfold play_turn, bind, modify. rewrite valid_move_eq.
  replace (drawing_pit (set_penality_for_action 0 g)) with (drawing_pit g)
    by done.
  replace (board_of player (set_penality_for_action 0 g))
    with (board_of player g) by (by destruct player).
  replace (rows_of player (set_penality_for_action 0 g))
    with (rows_of player g) by (by destruct player).
  by rewrite H.
Qed.

(** C3 (as the code has it). When the legality check fails, [play_turn]
    returns false without raising, and every field keeps its value
    except the per-move diagnostic [penality_for_action], which the call
    resets to 0 before it validates the move. *)
Theorem play_turn_illegal player pit color target g :
  fst (valid_move player pit color target g) = Ok false ->
  play_turn player pit color target g
  = (Ok false, set_penality_for_action 0 g).
Proof. apply play_turn_rejected. Qed.

Lemma play_turn_illegal_witness :
  play_turn P2 0 0 0 (Examples.after [0; 14; 5] Examples.fresh)
  = (Ok false,
     set_penality_for_action 0 (Examples.after [0; 14; 5] Examples.fresh)).
Proof. apply play_turn_illegal. vm_compute. reflexivity. Defined.

(** C3 as stated fails: after a move that overflowed into the penalty
    track, an illegal move returns false but changes
    [penality_for_action] from 1 to 0. *)
Lemma play_turn_illegal_changes_state :
  let g := Examples.after [0; 14; 5] Examples.fresh in
  fst (valid_move P2 0 0 0 g) = Ok false
  /\ fst (play_turn P2 0 0 0 g) = Ok false
  /\ penality_for_action g = 1
  /\ penality_for_action (snd (play_turn P2 0 0 0 g)) = 0
  /\ snd (play_turn P2 0 0 0 g) <> g.
Proof.
  vm_compute. repeat split. intros H.
  apply (f_equal penality_for_action) in H. discriminate H.
Qed.

(** ** Evaluations at concrete games *)

(** C5 (the code departs from it). On a finished game whose first wall
    holds the top row and the whole main diagonal, and whose second wall
    holds the anti-diagonal, the rule of the specification awards
    2*1 + 7*1 = 9 and 0, while [compute_final_points] adds 2 and 7: it
    groups the cells by [(i + j) mod 5] where the wall geometry used by
    [add_tile_to_scoreboard] gives cell [(i, j)] the colour
    [(j - i) mod 5]. *)
Theorem compute_final_points_groups_by_sum :
  let g := Examples.finished in
  let g' := snd (compute_final_points g) in
  fst (compute_final_points g) = Ok tt
  /\ Spec.endgame_bonus (board_p1 g) = 9
  /\ p1_score g' - p1_score g = 2
  /\ Spec.endgame_bonus (board_p2 g) = 0
  /\ p2_score g' - p2_score g = 7.
Proof. vm_compute. repeat split. Qed.

(** C2 (the code departs from it). In a fresh game the second move is the
    first draw from the centre: it makes its player, P2, the next
    starting player and puts one token on P2's penalty track.  The third
    move, a draw by P1 from factory 1, then overwrites the next starting
    player with P1: [take_tile_from_pit] reassigns it on every draw made
    once the marker is gone. *)
Theorem later_draw_reassigns_starting_player :
  let g1 := Examples.after [0] Examples.fresh in
  let g2 := snd (play_turn P2 5 1 0 g1) in
  let g3 := snd (play_turn P1 1 1 1 g2) in
  new_first_player g1 = true
  /\ fst (play_turn P2 5 1 0 g1) = Ok true
  /\ initial_player g2 = P2 /\ new_first_player g2 = false
  /\ penalty_of P2 g1 = [0; 0; 0; 0; 0; 0; 0]
  /\ penalty_of P2 g2 = [1; 0; 0; 0; 0; 0; 0]
  /\ fst (play_turn P1 1 1 1 g2) = Ok true
  /\ initial_player g3 = P1.
Proof. vm_compute. repeat split. Qed.

(** C1 as stated fails: the move that takes the last tile of the round
    makes [step] return [done = True] although neither wall has a full
    row and [gameover] stays false. *)
Lemma step_done_without_full_row :
  let r := Azul.step 89 (Azul.mkEnv Examples.last_move 0) in
  let g' := Azul.game (snd r) in
  pits_empty (drawing_pit Examples.last_move) = false
  /\ fst r = Ok (6, true)
  /\ pits_empty (drawing_pit g') = true
  /\ has_full_row (board_p1 g') = false
  /\ has_full_row (board_p2 g') = false
  /\ gameover g' = false.
Proof. vm_compute. repeat split. Qed.

(** C6 as stated fails: id 180 decodes to target row 6 and the legality
    check raises [IndexError]; id -1 decodes to pool -1, which Python
    reads as the centre, and the move is applied. *)
Lemma out_of_range_ids_not_rejected :
  from_action_to_tuple_action 180 = (0, 0, 6)
  /\ fst (valid_move P1 0 0 6 Examples.fresh) = Raise IndexError
  /\ fst (Azul.step 180 (Azul.mkEnv Examples.fresh 0)) = Raise IndexError
  /\ from_action_to_tuple_action (-1) = (-1, 0, 0)
  /\ (let g := Examples.after [0; 14] Examples.fresh in
      fst (Azul.step_game (-1) g) = Ok (1, false)
      /\ Py.get2 (drawing_pit g) 5 0 = Some 1
      /\ Py.get2 (drawing_pit (snd (Azul.step_game (-1) g))) 5 0 = Some 0).
Proof. vm_compute. repeat split. Qed.

(** ** Invariants under elementary updates *)

Ltac split_wf :=
  repeat match goal with
  | H : Py.set2 _ _ _ _ = Some _ |- _ => apply shape_set2 in H
  | H : Py.set _ _ _ = Some _ |- _ => apply set_length in H
  | p : player |- _ => destruct p
  end;
  match goal with
  | H : wf _ |- wf _ =>
      let H1 := fresh in let H2 := fresh in
      let H3 := fresh in let H4 := fresh in
      destruct H as [H1 H2 H3 H4];
      pose proof (H2 P1); pose proof (H2 P2);
      pose proof (H3 P1); pose proof (H3 P2);
      pose proof (H4 P1); pose proof (H4 P2);
      constructor; [|intros [|]|intros [|]|intros [|]];
      simpl in *; congruence
  end.

Lemma frame_wf : frame wf.
Proof. constructor; intros; split_wf. Qed.

Lemma frame_rows_ok : frame rows_ok.
Proof.
  constructor; intros; try done;
    repeat match goal with p : player |- _ => destruct p end;
    match goal with
    | H : rows_ok _ |- _ => intros [|]; [exact (H P1)|exact (H P2)]
    end.
Qed.

Lemma frame_scores_nonneg : frame scores_nonneg.
Proof.
  constructor; intros; try done;
    repeat match goal with p : player |- _ => destruct p end;
    match goal with
    | H : scores_nonneg _ |- _ => intros [|]; [exact (H P1)|exact (H P2)]
    end.
Qed.

(** Elementary obligations of a [frame] predicate. *)
Ltac by_frame HI :=
  try done;
  repeat match goal with
  | H : Py.set2 _ _ _ _ = Some _ |- _ => apply shape_set2 in H
  | H : Py.set _ _ _ = Some _ |- _ => apply set_length in H
  end;
  first
    [ by apply (fr_pit _ HI)
    | by apply (fr_board _ HI)
    | by apply (fr_penalty _ HI)
    | by apply (fr_player_turn _ HI)
    | by apply (fr_initial_player _ HI)
    | by apply (fr_new_first_player _ HI)
    | by apply (fr_gameover _ HI)
    | by apply (fr_is_done_phase _ HI)
    | by apply (fr_inserted _ HI)
    | by apply (fr_penality _ HI)
    | idtac ].

Lemma frame_and I J : frame I -> frame J -> frame (fun g => I g /\ J g).
Proof.
  intros HI HJ. constructor; intros;
    match goal with H : _ /\ _ |- _ => destruct H as [? ?] end;
    (split; [by_frame HI|by_frame HJ]).
Qed.

Lemma frame_Inv : frame Inv.
Proof.
  apply frame_and; [apply frame_wf|].
  apply frame_and; [apply frame_rows_ok|apply frame_scores_nonneg].
Qed.

Section Frames.
Context (I : Azul_game -> Prop) (HI : frame I).

Lemma take_tile_from_pit_frame pit color player :
  preserves I (take_tile_from_pit pit color player).
Proof. unfold preserves, take_tile_from_pit. keep ltac:(by_frame HI). Qed.

Lemma insert_tiles_in_penalty_column_frame n player :
  preserves I (insert_tiles_in_penalty_column n player).
Proof.
  unfold preserves, insert_tiles_in_penalty_column.
  keep ltac:(by_frame HI).
Qed.

Lemma is_turn_done_frame : preserves I is_turn_done.
Proof. unfold preserves, is_turn_done. keep ltac:(by_frame HI). Qed.

Lemma is_game_done_frame : preserves I is_game_done.
Proof.
  unfold preserves, is_game_done, is_turn_done. keep ltac:(by_frame HI).
Qed.

End Frames.

#[local] Hint Resolve valid_move_frame take_tile_from_pit_frame
  insert_tiles_in_penalty_column_frame is_turn_done_frame
  is_game_done_frame : keep_db.

(** The analysis of a move and the adjacency scans only read. *)
Lemma action_analisys_frame (I : Azul_game -> Prop) player color target :
  preserves I (action_analisys player color target).
Proof. unfold preserves, action_analisys. keep ltac:(auto). Qed.

Lemma compute_row_point_frame (I : Azul_game -> Prop) r c player :
  preserves I (compute_row_point r c player).
Proof. unfold preserves, compute_row_point. keep ltac:(auto). Qed.

Lemma compute_column_point_frame (I : Azul_game -> Prop) r c player :
  preserves I (compute_column_point r c player).
Proof. unfold preserves, compute_column_point. keep ltac:(auto). Qed.

#[local] Hint Resolve action_analisys_frame compute_row_point_frame
  compute_column_point_frame : keep_db.

Lemma rows_closed_wf : rows_closed wf.
Proof. intros p g m Hg Hm. split_wf. Qed.

Lemma score_closed_wf : score_closed wf.
Proof. intros p g v Hg. split_wf. Qed.

Lemma rows_closed_scores_nonneg : rows_closed scores_nonneg.
Proof. intros [|] g m Hg _ [|]; first [exact (Hg P1)|exact (Hg P2)]. Qed.

Lemma score_closed_rows_ok : score_closed rows_ok.
Proof. intros [|] g v Hg [|]; first [exact (Hg P1)|exact (Hg P2)]. Qed.

Section Footprints.
Context (I : Azul_game -> Prop) (HI : frame I).

Lemma add_tile_to_scoreboard_frame tile player r :
  preserves I (add_tile_to_scoreboard tile player r).
Proof. unfold preserves, add_tile_to_scoreboard. keep ltac:(by_frame HI). Qed.

Lemma update_score_closed player points :
  score_closed I -> preserves I (update_score player points).
Proof.
  intros HS. unfold preserves, update_score. apply hoare_modify.
  intros g Hg. destruct (0 <? score_of player g + points); by apply HS.
Qed.

Lemma score_closed_kept : score_closed I -> score_kept I.
Proof. intros HS p points. by apply update_score_closed. Qed.

Lemma calculate_penality_closed player :
  score_kept I -> preserves I (calculate_penality player).
Proof.
  intros HS. unfold preserves, calculate_penality. keep ltac:(auto).
Qed.

Lemma compute_final_points_closed :
  score_closed I -> preserves I compute_final_points.
Proof.
  intros HS. unfold preserves, compute_final_points.
  keep ltac:(first [done|by apply (HS P1)|by apply (HS P2)]).
Qed.

Lemma clear_row_closed r player :
  rows_closed I -> preserves I (clear_row r player).
Proof.
  intros HR. unfold preserves, clear_row.
  keep ltac:(first [done|apply HR; [done|by eapply shape_set2]]).
Qed.

Lemma insert_tiles_in_column_closed color n target player :
  rows_closed I -> preserves I (insert_tiles_in_column color n target player).
Proof.
  intros HR. pose proof (insert_tiles_in_penalty_column_frame I HI).
  unfold preserves, insert_tiles_in_column.
  keep ltac:(first [by by_frame HI|apply HR; [done|by eapply shape_set2]]).
Qed.

Lemma play_turn_closed player pit color target :
  rows_closed I -> preserves I (play_turn player pit color target).
Proof.
  intros HR. pose proof (insert_tiles_in_penalty_column_frame I HI).
  pose proof (insert_tiles_in_column_closed) as HC.
  pose proof (take_tile_from_pit_frame I HI).
  unfold preserves, play_turn. keep ltac:(by by_frame HI).
Qed.

Lemma calculate_score_row_closed player r :
  rows_closed I -> score_kept I -> preserves I (calculate_score_row player r).
Proof.
  intros HR HS. pose proof (clear_row_closed) as H1.
  pose proof (add_tile_to_scoreboard_frame) as H2.
  unfold preserves, calculate_score_row. keep ltac:(by by_frame HI).
Qed.

Lemma calculate_score_closed player :
  rows_closed I -> score_kept I -> preserves I (calculate_score player).
Proof.
  intros HR HS. pose proof (calculate_score_row_closed) as H1.
  pose proof (calculate_penality_closed) as H4.
  unfold preserves, calculate_score. keep ltac:(by by_frame HI).
Qed.

Lemma step_game_closed action :
  rows_closed I -> score_kept I -> preserves I compute_final_points ->
  preserves I (Azul.step_game action).
Proof.
  intros HR HS HF. pose proof (play_turn_closed) as H1.
  pose proof (calculate_score_closed) as H2.
  pose proof (is_turn_done_frame I HI) as H4.
  pose proof (is_game_done_frame I HI) as H5.
  unfold preserves, Azul.step_game, Azul.have_winner.
  keep ltac:(by by_frame HI).
Qed.

End Footprints.

Lemma step_game_wf action : preserves wf (Azul.step_game action).
Proof.
  apply step_game_closed;
    [apply frame_wf|apply rows_closed_wf
    |apply score_closed_kept, score_closed_wf
    |apply compute_final_points_closed, score_closed_wf].
Qed.

(** ** In-range reads and writes *)

Lemma get2_in_range (m : list (list Z)) (r : nat) row j :
  m !! r = Some row -> 0 <= j < Z.of_nat (length row) ->
  Py.get2 m (Z.of_nat r) j = row !! Z.to_nat j.
Proof.
  intros Hr Hj. unfold Py.get2.
  rewrite get_in_range, Nat2Z.id, Hr.
  - by apply get_in_range.
  - apply lookup_lt_Some in Hr. lia.
Qed.

Lemma set2_in_range (m : list (list Z)) (r : nat) row j v :
  m !! r = Some row -> 0 <= j < Z.of_nat (length row) ->
  Py.set2 m (Z.of_nat r) j v = Some (<[r := <[Z.to_nat j := v]> row]> m).
Proof.
  intros Hr Hj. unfold Py.set2.
  assert (0 <= Z.of_nat r < Z.of_nat (length m))
    by (apply lookup_lt_Some in Hr; lia).
  rewrite get_in_range, Nat2Z.id, Hr by done.
  rewrite set_in_range by done.
  by rewrite set_in_range, Nat2Z.id.
Qed.

Lemma shape_lookup_length (m : list (list Z)) sh (r n : nat) :
  shape m = sh -> sh !! r = Some n ->
  exists row, m !! r = Some row /\ length row = n.
Proof.
  intros <-. unfold shape. rewrite list_lookup_fmap.
  destruct (m !! r) as [row|]; [|discriminate].
  intros [= <-]. by exists row.
Qed.

Lemma in_shape_matrix (n c : nat) i j :
  - Z.of_nat n <= i < Z.of_nat n -> - Z.of_nat c <= j < Z.of_nat c ->
  in_shape (replicate n c) i j = true.
Proof.
  intros Hi Hj. unfold in_shape.
  destruct (Py.idx (replicate n c) i) as [k|] eqn:Hk.
  - pose proof (idx_lt _ _ _ Hk) as Hlt. rewrite length_replicate in Hlt.
    rewrite lookup_replicate_2 by done. apply andb_true_iff. lia.
  - assert (is_Some (Py.idx (replicate n c) i)) as [? ?]
      by (apply idx_is_Some; rewrite length_replicate; lia).
    congruence.
Qed.

Lemma in_shape_rows i j :
  0 <= i < 5 -> 0 <= j <= i -> in_shape [1; 2; 3; 4; 5]%nat i j = true.
Proof.
  intros Hi Hj. enumerate i 0 5; unfold in_shape; simpl;
    (apply andb_true_iff; split; [apply Z.leb_le|apply Z.ltb_lt]); lia.
Qed.

(** A loop over pure, possibly failing steps keeps what its steps keep. *)
Lemma fold_opt_inv {B St} (J : St -> Prop) (body : St -> B -> option St)
    (l : list B) (s : St) :
  J s ->
  (forall s x, x ∈ l -> J s -> exists s', body s x = Some s' /\ J s') ->
  exists s', fold_opt body s l = Some s' /\ J s'.
Proof.
  revert s. induction l as [|x l IH]; intros s Hs Hbody; simpl.
  - by exists s.
  - destruct (Hbody s x) as (s1 & -> & Hs1); [left|done|].
    apply IH; [done|]. intros s2 y Hy. apply Hbody. by right.
Qed.

(** ** Construction *)

Lemma fill_pit_total (draws : Z -> Z) :
  (forall j, 0 <= draws j < 5) ->
  exists pit, fill_pit draws = Some pit /\ length pit = 5%nat.
Proof.
  intros Hd. unfold fill_pit.
  apply (fold_opt_inv (fun pit => length pit = 5%nat)); [done|].
  intros pit j _ Hlen. specialize (Hd j).
  destruct (Py.get pit (draws j)) as [old|] eqn:Hget.
  - simpl. rewrite set_in_range by lia. eexists. split; [done|].
    by rewrite length_insert.
  - assert (is_Some (Py.get pit (draws j))) as [? ?]
      by (apply get_is_Some; lia).
    congruence.
Qed.

Lemma rows_ok_initialize_rows : Forall row_ok initialize_rows.
Proof.
  unfold initialize_rows.
  repeat constructor; exists 0%nat, 1; (split; [done|reflexivity]).
Qed.

Lemma Azul_game_init_Inv draws :
  randint_0_5 draws ->
  fst (Azul_game_init draws) = Ok tt /\ Inv (snd (Azul_game_init draws)).
Proof.
  intros Hd.
  destruct (fill_pit_total (draws 0) (Hd 0)) as (p0 & E0 & L0).
  destruct (fill_pit_total (draws 1) (Hd 1)) as (p1 & E1 & L1).
  destruct (fill_pit_total (draws 2) (Hd 2)) as (p2 & E2 & L2).
  destruct (fill_pit_total (draws 3) (Hd 3)) as (p3 & E3 & L3).
  destruct (fill_pit_total (draws 4) (Hd 4)) as (p4 & E4 & L4).
  unfold Azul_game_init, create_drawing_pit.
  change (Py.range 5) with [0; 1; 2; 3; 4].
  unfold for_fold, bind, lift. rewrite E0, E1, E2, E3, E4.
  cbn. split; [done|].
  split; [|split].
  - constructor; [|intros [|]..]; simpl; try done.
    by rewrite L0, L1, L2, L3, L4.
  - intros [|]; apply rows_ok_initialize_rows.
  - by intros [|].
Qed.

(** ** No [IndexError] on well-formed games *)

Section InRange.
Context (g : Azul_game) (Hg : wf g).

Lemma read_pit_ok i j :
  -6 <= i < 6 -> -5 <= j < 5 -> is_Some (Py.get2 (drawing_pit g) i j).
Proof.
  intros Hi Hj. apply get2_is_Some. rewrite (wf_pit g Hg).
  by apply (in_shape_matrix 6 5).
Qed.

Lemma write_pit_ok i j v :
  -6 <= i < 6 -> -5 <= j < 5 -> is_Some (Py.set2 (drawing_pit g) i j v).
Proof.
  intros Hi Hj. apply set2_is_Some. rewrite (wf_pit g Hg).
  by apply (in_shape_matrix 6 5).
Qed.

Lemma read_board_ok p i j :
  -5 <= i < 5 -> -5 <= j < 5 -> is_Some (Py.get2 (board_of p g) i j).
Proof.
  intros Hi Hj. apply get2_is_Some. rewrite (wf_board g Hg).
  by apply (in_shape_matrix 5 5).
Qed.

Lemma write_board_ok p i j v :
  -5 <= i < 5 -> -5 <= j < 5 -> is_Some (Py.set2 (board_of p g) i j v).
Proof.
  intros Hi Hj. apply set2_is_Some. rewrite (wf_board g Hg).
  by apply (in_shape_matrix 5 5).
Qed.

Lemma read_rows_ok p i j :
  0 <= i < 5 -> 0 <= j <= i -> is_Some (Py.get2 (rows_of p g) i j).
Proof.
  intros Hi Hj. apply get2_is_Some. rewrite (wf_rows g Hg).
  by apply in_shape_rows.
Qed.

Lemma write_rows_ok p i j v :
  0 <= i < 5 -> 0 <= j <= i -> is_Some (Py.set2 (rows_of p g) i j v).
Proof.
  intros Hi Hj. apply set2_is_Some. rewrite (wf_rows g Hg).
  by apply in_shape_rows.
Qed.

Lemma read_penalty_ok p i :
  -7 <= i < 7 -> is_Some (Py.get (penalty_of p g) i).
Proof. intros Hi. apply get_is_Some. rewrite (wf_penalty g Hg). lia. Qed.

Lemma write_penalty_ok p i v :
  -7 <= i < 7 -> is_Some (Py.set (penalty_of p g) i v).
Proof. intros Hi. apply set_is_Some. rewrite (wf_penalty g Hg). lia. Qed.

End InRange.

(** Refutes a failed read or write whose indices are in range; [HW]
    turns the invariant at hand into [wf]. *)
Ltac in_range HW :=
  repeat match goal with
  | H : _ ∈ Py.range _ |- _ => apply elem_of_range in H
  end;
  lazymatch goal with
  | H : ?x = None |- _ =>
      exfalso;
      assert (is_Some x) as [? ?];
      [ first [ apply read_pit_ok | apply write_pit_ok
              | apply read_board_ok | apply write_board_ok
              | apply read_rows_ok | apply write_rows_ok
              | apply read_penalty_ok | apply write_penalty_ok ];
        [by apply HW|lia..]
      | congruence ]
  end.

Ltac safe_tac HI HW := first [by by_frame HI | in_range HW].

Section Safe.
Context (I : Azul_game -> Prop) (HI : frame I) (HW : forall g, I g -> wf g).

Lemma take_tile_from_pit_safe pit color player :
  -6 <= pit < 6 -> -5 <= color < 5 ->
  safe I (take_tile_from_pit pit color player).
Proof.
  intros Hp Hc. unfold safe, take_tile_from_pit.
  keep ltac:(safe_tac HI HW).
Qed.

Lemma insert_tiles_in_penalty_column_safe n player :
  safe I (insert_tiles_in_penalty_column n player).
Proof.
  unfold safe, insert_tiles_in_penalty_column.
  keep ltac:(safe_tac HI HW).
Qed.

End Safe.

(** ** Staging rows *)

Lemma rows_of_set_rows_of p q m g :
  rows_of q (set_rows_of p m g) = if player_eqb p q then m else rows_of q g.
Proof. by destruct p, q. Qed.

Lemma rows_ok_set_rows_of p m g :
  rows_ok g -> Forall row_ok m -> rows_ok (set_rows_of p m g).
Proof.
  intros Hg Hm q. rewrite rows_of_set_rows_of.
  destruct (player_eqb p q); [done|apply Hg].
Qed.

Lemma frame_row_accepts p col tile : frame (row_accepts p col tile).
Proof. constructor; intros; destruct p; try done; by destruct p0. Qed.

Lemma block_lookup_lt (j m k : nat) (v : Z) :
  (k < j)%nat -> (replicate j v ++ replicate (m - j) 0) !! k = Some v.
Proof.
  intros H. rewrite lookup_app_l by (rewrite length_replicate; lia).
  by apply lookup_replicate_2.
Qed.

Lemma block_lookup_ge (j m k : nat) (v : Z) :
  (j <= k < m)%nat -> (replicate j v ++ replicate (m - j) 0) !! k = Some 0.
Proof.
  intros H. rewrite lookup_app_r by (rewrite length_replicate; lia).
  rewrite length_replicate. apply lookup_replicate_2. lia.
Qed.

Lemma block_fill (j m : nat) (v : Z) :
  (j < m)%nat ->
  <[j := v]> (replicate j v ++ replicate (m - j) 0)
  = replicate (S j) v ++ replicate (m - S j) 0.
Proof.
  intros H. rewrite insert_app_r_alt by (rewrite length_replicate; lia).
  rewrite length_replicate, Nat.sub_diag.
  destruct (m - j)%nat as [|d] eqn:E; [lia|].
  replace (m - S j)%nat with d by lia.
  rewrite (replicate_S_end j v), <- app_assoc. done.
Qed.

Lemma block_length (j m : nat) (v : Z) :
  (j <= m)%nat -> length (replicate j v ++ replicate (m - j) 0) = m.
Proof. intros H. rewrite length_app, !length_replicate. lia. Qed.

Lemma row_ok_block (j m : nat) (v : Z) :
  v <> 0 -> (j <= m)%nat -> row_ok (replicate j v ++ replicate (m - j) 0).
Proof.
  intros Hv Hj. exists j, v. split; [done|]. by rewrite block_length.
Qed.

(** A row the legality check accepts for colour [tile] is a block of that
    colour followed by empty slots. *)
Lemma row_ok_accepts row first (v : Z) :
  row_ok row -> row !! 0%nat = Some first -> first = 0 \/ first = v ->
  v <> 0 ->
  exists j, (j <= length row)%nat
    /\ row = replicate j v ++ replicate (length row - j) 0.
Proof.
  intros (j & c & Hc & Hrow) H0 Hfirst Hv.
  assert (j <= length row)%nat as Hj.
  { apply (f_equal length) in Hrow.
    rewrite length_app, !length_replicate in Hrow. lia. }
  destruct j as [|j].
  - exists 0%nat. split; [lia|]. by rewrite Hrow at 1.
  - exists (S j). split; [done|].
    assert (first = c) as ->.
    { rewrite Hrow in H0. simpl in H0. congruence. }
    destruct Hfirst as [Hz| ->]; [done|]. done.
Qed.

Lemma rows_shape_lookup (c : nat) :
  (c < 5)%nat -> [1; 2; 3; 4; 5]%nat !! c = Some (S c).
Proof. intros H. do 5 (destruct c as [|c]; [done|]). lia. Qed.

Lemma staging_row g p (c : nat) :
  wf g -> (c < 5)%nat ->
  exists row, rows_of p g !! c = Some row /\ length row = S c.
Proof.
  intros Hg Hc. eapply shape_lookup_length; [apply (wf_rows g Hg)|].
  by apply rows_shape_lookup.
Qed.

Lemma insert_tiles_in_column_Inv tile n col p :
  0 <= tile -> 0 <= col < 5 ->
  hoare (fun g => Inv g /\ row_accepts p col tile g)
    (insert_tiles_in_column tile n col p) (fun _ => Inv) (fun _ => False).
Proof.
  intros Ht Hc. unfold insert_tiles_in_column.
  replace (col =? 5) with false by (symmetry; apply Z.eqb_neq; lia).
  set (c := Z.to_nat col). set (v := tile + 1).
  assert (Hcol : col = Z.of_nat c) by lia.
  assert (Hc5 : (c < 5)%nat) by lia.
  assert (Hv : v <> 0) by lia.
  pose (J := fun (k : nat) (n : Z) (g : Azul_game) =>
    Inv g /\ exists j, (j <= S c)%nat
      /\ rows_of p g !! c = Some (replicate j v ++ replicate (S c - j) 0)
      /\ ((k <= j)%nat \/ n <= 0)).
  eapply hoare_bind with (R := fun _ => J 0%nat n).
  { apply hoare_modify. intros g [HI (first & Hfirst & Hacc)].
    split; [by apply (fr_inserted _ frame_Inv)|].
    replace (rows_of p (set_inserted_tile_in_column_for_action 0 g))
      with (rows_of p g) by (by destruct p).
    destruct HI as (Hwf & Hrows & _).
    destruct (staging_row g p c Hwf Hc5) as (row & Hrow & Hlen).
    rewrite Hcol, (get2_in_range _ _ _ _ Hrow) in Hfirst by lia.
    destruct (row_ok_accepts row first v) as (j & Hj & Hblock); try done.
    { eapply Forall_lookup_1; [apply Hrows|done]. }
    exists j. rewrite Hlen in *. split; [done|]. split; [congruence|].
    left. lia. }
  intros []. eapply hoare_bind with (R := fun _ => Inv).
  2:{ intros n'. apply insert_tiles_in_penalty_column_safe;
        [apply frame_Inv|by intros g (? & _)]. }
  eapply hoare_conseq with (P' := J 0%nat n) (Q' := J _) (E' := fun _ => False);
    [apply (hoare_for_fold_pos J)|done|by intros a g (HI & _)|done].
  intros k x s Hx. apply range_lookup in Hx as [-> Hk].
  intros g (HI & j & Hj & Hrow & Hkj).
  assert (Hget : Py.get2 (rows_of p g) col (Z.of_nat k)
                 = (replicate j v ++ replicate (S c - j) 0) !! k).
  { rewrite Hcol, (get2_in_range _ _ _ _ Hrow), Nat2Z.id; [done|].
    rewrite block_length by done. lia. }
  unfold bind, read2. rewrite Hget.
  destruct (decide (k < j)%nat) as [Hlt|Hge].
  - rewrite block_lookup_lt by done. simpl.
    replace (v =? 0) with false by (symmetry; by apply Z.eqb_neq).
    simpl. split; [done|]. exists j. repeat split; try done. left. lia.
  - rewrite block_lookup_ge by lia. simpl.
    destruct (0 <? s) eqn:Hs.
    + assert (k = j) as -> by lia.
      assert (Hset : Py.set2 (rows_of p g) col (Z.of_nat j) v
                = Some (<[c := replicate (S j) v ++ replicate (S c - S j) 0]>
                          (rows_of p g))).
      { rewrite Hcol, (set2_in_range _ _ _ _ _ Hrow), Nat2Z.id.
        - rewrite block_fill; [done|lia].
        - rewrite block_length by done. lia. }
      unfold write2. rewrite Hset. simpl.
      assert (Hlen : length
                (replicate (S j) v ++ replicate (S c - S j) 0) = S c)
        by (apply block_length; lia).
      assert (Hshape :
        shape (<[c := replicate (S j) v ++ replicate (S c - S j) 0]>
                 (rows_of p g)) = shape (rows_of p g)).
      { eapply shape_insert; [done|]. rewrite !block_length by lia. done. }
      split.
      * apply (fr_inserted _ frame_Inv).
        destruct HI as (Hwf & Hrows & Hsc). split; [|split].
        -- by apply rows_closed_wf.
        -- apply rows_ok_set_rows_of; [done|].
           apply Forall_insert; [apply Hrows|].
           apply (row_ok_block (S j) (S c) v); [done|lia].
        -- by apply rows_closed_scores_nonneg.
      * exists (S j). split; [lia|]. split; [|left; lia].
        replace (rows_of p (set_inserted_tile_in_column_for_action
           (inserted_tile_in_column_for_action (set_rows_of p
              (<[c:=replicate (S j) v ++ replicate (S c - S j) 0]>
                 (rows_of p g)) g) + 1)
           (set_rows_of p
              (<[c:=replicate (S j) v ++ replicate (S c - S j) 0]>
                 (rows_of p g)) g)))
          with (<[c:=replicate (S j) v ++ replicate (S c - S j) 0]>
                 (rows_of p g)) by (by destruct p).
        apply list_lookup_insert_eq. by eapply lookup_lt_Some.
    + simpl. split; [done|]. exists j. repeat split; try done.
      right. apply Z.ltb_ge in Hs. lia.
Qed.

Lemma frame_pure (P : Prop) : frame (fun _ => P).
Proof. by constructor. Qed.

Lemma frame_impl (P : Prop) I : frame I -> frame (fun g => P -> I g).
Proof.
  intros HI. constructor; intros;
    match goal with
    | H : P -> I _, HP : P |- _ => specialize (H HP)
    end; by_frame HI.
Qed.

Lemma hoare_pure {A} (P0 : Prop) P (m : M A) Q E :
  (P0 -> hoare P m Q E) -> hoare (fun g => P0 /\ P g) m Q E.
Proof. intros H g [H0 Hg]. by apply H. Qed.

(** What the legality check has established when it answers true: the
    pool and colour index the pools, and a target other than 5 is a
    staging row that accepts the colour. *)
Lemma valid_move_accepts p pit tile col g :
  wf g -> 0 <= col ->
  fst (valid_move p pit tile col g) = Ok true ->
  (-6 <= pit < 6 /\ -5 <= tile < 5)
  /\ (col <> 5 -> col < 5 /\ row_accepts p col tile g).
Proof.
  intros Hwf Hcol. rewrite valid_move_eq. unfold legal. simpl.
  destruct (Py.get2 (drawing_pit g) pit tile) as [d|] eqn:Hd; [|done].
  assert (-6 <= pit < 6 /\ -5 <= tile < 5) as Hrange.
  { assert (is_Some (Py.get2 (drawing_pit g) pit tile)) as Hsome by eauto.
    apply get2_is_Some in Hsome. rewrite (wf_pit g Hwf) in Hsome.
    unfold in_shape in Hsome.
    destruct (Py.idx [5; 5; 5; 5; 5; 5]%nat pit) as [k|] eqn:Hk; [|done].
    assert (is_Some (Py.idx [5; 5; 5; 5; 5; 5]%nat pit)) as Hidx by eauto.
    apply idx_is_Some in Hidx. simpl in Hidx.
    apply idx_lt in Hk. simpl in Hk.
    do 6 (destruct k as [|k];
      [simpl in Hsome;
       apply andb_true_iff in Hsome as [H1%Z.leb_le H2%Z.ltb_lt]; lia|]).
    lia. }
  destruct (d =? 0); [done|]. intros H. split; [done|]. intros Hne.
  replace (col =? 5) with false in H by (symmetry; by apply Z.eqb_neq).
  simpl in H.
  destruct (Py.get2 (board_of p g) col ((tile + col) mod 5)) as [cell|] eqn:Hb;
    [|done].
  destruct (cell =? 1); [done|].
  destruct (Py.get2 (rows_of p g) col 0) as [first|] eqn:Hr; [|done].
  assert (is_Some (Py.get2 (board_of p g) col ((tile + col) mod 5))) as Hsome
    by eauto.
  apply get2_is_Some in Hsome. rewrite (wf_board g Hwf) in Hsome.
  unfold in_shape in Hsome.
  destruct (Py.idx [5; 5; 5; 5; 5]%nat col) as [k|] eqn:Hk; [|done].
  assert (is_Some (Py.idx [5; 5; 5; 5; 5]%nat col)) as Hidx by eauto.
  apply idx_is_Some in Hidx. simpl in Hidx.
  split; [lia|]. exists first. split; [done|].
  injection H as H. apply orb_true_iff in H as [H|H]; apply Z.eqb_eq in H;
    auto.
Qed.

(** [play_turn] keeps the invariant; it raises only where the legality
    check does. *)
Lemma play_turn_hoare p pit tile col (E : Azul_game -> Prop) :
  0 <= tile -> 0 <= col ->
  (forall g, Inv g ->
     fst (valid_move p pit tile col g) = Raise IndexError -> E g) ->
  hoare Inv (play_turn p pit tile col) (fun _ => Inv) E.
Proof.
  intros Ht Hc HE. unfold play_turn.
  set (K := fun g =>
    Inv g /\ (col <> 5 -> col < 5 /\ row_accepts p col tile g)).
  assert (HK : frame K).
  { apply frame_and; [apply frame_Inv|]. apply frame_impl.
    apply frame_and; [apply frame_pure|apply frame_row_accepts]. }
  assert (HKW : forall g, K g -> wf g) by (by intros g [[? _] _]).
  assert (HIW : forall g, Inv g -> wf g) by (by intros g [? _]).
  eapply hoare_bind with (R := fun _ => Inv);
    [apply hoare_modify; intros g Hg; by apply (fr_penality _ frame_Inv)|].
  intros []. eapply hoare_bind with
    (R := fun valid g =>
       (valid = true -> -6 <= pit < 6 /\ -5 <= tile < 5)
       /\ Inv g /\ (valid = true -> K g)).
  { intros g Hg.
    pose proof (valid_move_accepts p pit tile col g (proj1 Hg) Hc) as Hacc.
    specialize (HE g Hg).
    rewrite valid_move_eq in *. simpl in *.
    destruct (legal _ _ _ _ _ _) as [b|[]]; [|by apply HE].
    split; [by intros ->; apply Hacc|]. split; [done|].
    intros ->. split; [done|]. by apply Hacc. }
  intros [|]; [|apply hoare_ret; by intros g (_ & ? & _)].
  apply hoare_pure. intros [Hpit Htile]; [done|].
  eapply hoare_conseq with (P' := K) (Q' := fun _ => Inv)
    (E' := fun _ => False); [|by intros g [_ H]; apply H|done|done].
  eapply hoare_bind with (R := fun _ => K);
    [by apply take_tile_from_pit_safe|].
  intros drawed.
  eapply hoare_bind with (R := fun _ => K);
    [apply hoare_gets; by intros|]. intros nfp.
  eapply hoare_bind with (R := fun _ => K).
  { pose proof (insert_tiles_in_penalty_column_safe K HK HKW) as Hpen.
    destruct ((pit =? 5) && nfp); [|by apply hoare_ret].
    eapply hoare_bind with (R := fun _ => K);
      [apply hoare_modify; intros; by by_frame HK|intros []].
    eapply hoare_bind with (R := fun _ => K);
      [apply hoare_modify; intros; by by_frame HK|intros []].
    apply Hpen. }
  intros []. eapply hoare_bind with (R := fun _ => Inv).
  { destruct (negb (col =? 5)) eqn:Hcol.
    - apply negb_true_iff, Z.eqb_neq in Hcol.
      intros g [HI Hacc]. destruct (Hacc Hcol) as [Hlt Hrow].
      apply (insert_tiles_in_column_Inv tile drawed col p Ht
               (conj Hc Hlt) g (conj HI Hrow)).
    - eapply hoare_conseq;
        [by apply (insert_tiles_in_penalty_column_safe Inv frame_Inv)|..];
        try done. by intros g [? _]. }
  intros []. keep ltac:(by by_frame frame_Inv).
Qed.

Lemma play_turn_Inv p pit tile col :
  0 <= tile -> 0 <= col -> preserves Inv (play_turn p pit tile col).
Proof.
  intros Ht Hc. apply play_turn_hoare; try done.
Qed.

(** In range, the legality check answers. *)
Lemma legal_total p pit tile col g :
  wf g -> 0 <= pit < 6 -> 0 <= tile < 5 -> 0 <= col < 6 ->
  exists b, valid_move p pit tile col g = (Ok b, g).
Proof.
  intros Hwf Hp Ht Hc. rewrite valid_move_eq. unfold legal.
  destruct (read_pit_ok g Hwf pit tile) as [d ->]; [lia..|].
  destruct (d =? 0); [by eexists|].
  destruct (negb (col =? 5)) eqn:Hcol; [|by eexists].
  apply negb_true_iff, Z.eqb_neq in Hcol.
  pose proof (Z.mod_pos_bound (tile + col) 5).
  destruct (read_board_ok g Hwf p col ((tile + col) mod 5)) as [c ->];
    [lia..|].
  destruct (c =? 1); [by eexists|].
  destruct (read_rows_ok g Hwf p col 0) as [f ->]; [lia..|]. by eexists.
Qed.

Lemma play_turn_safe p pit tile col :
  0 <= pit < 6 -> 0 <= tile < 5 -> 0 <= col < 6 ->
  safe Inv (play_turn p pit tile col).
Proof.
  intros Hp Ht Hc. apply play_turn_hoare; [lia..|].
  intros g [Hwf _] H.
  destruct (legal_total p pit tile col g Hwf Hp Ht Hc) as [b Hb].
  rewrite Hb in H. discriminate H.
Qed.

(** ** Adjacency scans *)

Lemma scan_row_after cells i target s :
  target <= i -> scan_row cells i target s = s + Z.of_nat (Spec.run cells).
Proof.
  revert i s. induction cells as [|x rest IH]; intros i s Hi; simpl.
  - lia.
  - replace (i <? target) with false by (symmetry; apply Z.ltb_ge; lia).
    destruct (Py.truthy x); [|lia]. rewrite IH by lia. lia.
Qed.

Lemma scan_row_split cells i target s :
  i <= target ->
  scan_row cells i target s
  = count_back s (take (Z.to_nat (target - i)) cells)
    + Z.of_nat (Spec.run (drop (Z.to_nat (target - i)) cells)).
Proof.
  revert i s. induction cells as [|x rest IH]; intros i s Hi.
  - rewrite take_nil, drop_nil. simpl. lia.
  - simpl scan_row. destruct (i <? target) eqn:Hlt.
    + apply Z.ltb_lt in Hlt. rewrite IH by lia.
      replace (Z.to_nat (target - i)) with (S (Z.to_nat (target - (i + 1))))
        by lia.
      done.
    + apply Z.ltb_ge in Hlt.
      replace (Z.to_nat (target - i)) with 0%nat by lia. simpl.
      destruct (Py.truthy x); [|lia].
      rewrite scan_row_after by lia. lia.
Qed.

Lemma count_back_snoc s cells x :
  count_back s (cells ++ [x])
  = if Py.truthy x then count_back s cells + 1 else 0.
Proof.
  revert s. induction cells as [|y rest IH]; intros s; simpl; [done|].
  apply IH.
Qed.

Lemma count_back_run cells :
  count_back 0 cells = Z.of_nat (Spec.run (rev cells)).
Proof.
  induction cells as [|x rest IH] using rev_ind; [done|].
  rewrite count_back_snoc, rev_app_distr. simpl.
  destruct (Py.truthy x); [|done]. rewrite IH. lia.
Qed.

Lemma scan_row_adjacency cells (c : nat) :
  scan_row cells 0 (Z.of_nat c) 0 - 1 = Spec.adjacency cells c.
Proof.
  unfold Spec.adjacency. rewrite scan_row_split by lia.
  rewrite Z.sub_0_r, Nat2Z.id, count_back_run. lia.
Qed.

Lemma scan_column_rows (wall : list (list Z)) (c : nat) i r s :
  Forall (fun row => (c < length row)%nat) wall ->
  scan_column wall i r (Z.of_nat c) s
  = Some (scan_row (Spec.column wall c) i r s).
Proof.
  intros Hwall. revert i s.
  induction Hwall as [|row rest Hrow _ IH]; intros i s; simpl; [done|].
  rewrite get_in_range, Nat2Z.id by lia.
  destruct (row !! c) as [cell|] eqn:Hcell.
  - simpl. destruct (i <? r); [apply IH|].
    destruct (Py.truthy cell); [apply IH|done].
  - apply lookup_ge_None in Hcell. lia.
Qed.

Lemma run_pos x rest : Py.truthy x = true -> (0 < Spec.run (x :: rest))%nat.
Proof. intros H. simpl. rewrite H. lia. Qed.

Lemma adjacency_nonneg line (k : nat) x :
  line !! k = Some x -> Py.truthy x = true -> 0 <= Spec.adjacency line k.
Proof.
  intros Hk Hx. unfold Spec.adjacency.
  rewrite (drop_S _ _ _ Hk). pose proof (run_pos x (drop (S k) line) Hx). lia.
Qed.

(** ** Running the monad on known results *)

Lemma bind_gets {A B} (f : Azul_game -> A) (k : A -> M B) g :
  bind (gets f) k g = k (f g) g.
Proof. done. Qed.

Lemma bind_lift {A B} (o : option A) a (k : A -> M B) g :
  o = Some a -> bind (lift o) k g = k a g.
Proof. by intros ->. Qed.

Lemma bind_eq {A B} (m : M A) a g g' (k : A -> M B) :
  m g = (Ok a, g') -> bind m k g = k a g'.
Proof. unfold bind. by intros ->. Qed.

Lemma write2_eq sel upd i j v g m :
  Py.set2 (sel g) i j v = Some m -> write2 sel upd i j v g = (Ok tt, upd m g).
Proof. unfold write2. by intros ->. Qed.

Lemma player_eqb_refl p : player_eqb p p = true.
Proof. by destruct p. Qed.

Lemma set_rows_of_twice p m m' g :
  set_rows_of p m' (set_rows_of p m g) = set_rows_of p m' g.
Proof. by destruct p. Qed.

Lemma set_rows_of_id p g : set_rows_of p (rows_of p g) g = g.
Proof. by destruct p, g. Qed.

Lemma clear_fill (k : nat) (row : list Z) :
  (k < length row)%nat ->
  <[k := 0]> (replicate k 0 ++ drop k row)
  = replicate (S k) 0 ++ drop (S k) row.
Proof.
  intros Hk. rewrite insert_app_r_alt by (rewrite length_replicate; lia).
  rewrite length_replicate, Nat.sub_diag.
  destruct (lookup_lt_is_Some_2 row k Hk) as [x Hx].
  rewrite (drop_S _ _ _ Hx), (replicate_S_end k 0), <- app_assoc. done.
Qed.

Lemma clear_row_eq p (r : nat) row g :
  rows_of p g !! r = Some row -> length row = S r ->
  clear_row (Z.of_nat r) p g
  = (Ok tt, set_rows_of p (<[r := replicate (S r) 0]> (rows_of p g)) g).
Proof.
  intros Hrow Hlen.
  pose (J := fun (k : nat) (g' : Azul_game) =>
    g' = set_rows_of p
           (<[r := replicate k 0 ++ drop k row]> (rows_of p g)) g).
  assert (H : hoare (J 0%nat) (clear_row (Z.of_nat r) p)
                (fun _ => J (S r)) (fun _ => False)).
  { unfold clear_row.
    replace (S r) with (length (Py.range (Z.of_nat r + 1)))
      by (rewrite range_length; lia).
    apply (hoare_for_each_pos J). intros k x Hx.
    apply range_lookup in Hx as [-> Hk]. intros g' ->.
    assert (Hcur : length (replicate k 0 ++ drop k row) = S r)
      by (rewrite length_app, length_replicate, length_drop; lia).
    erewrite write2_eq.
    2:{ rewrite rows_of_set_rows_of, player_eqb_refl.
        apply set2_in_range;
          [apply list_lookup_insert_eq; by eapply lookup_lt_Some|].
        rewrite Hcur. lia. }
    unfold J.
    by rewrite list_insert_insert_eq, Nat2Z.id, clear_fill,
      set_rows_of_twice by lia. }
  specialize (H g). unfold J in H. simpl in H.
  rewrite drop_0, (list_insert_id _ _ _ Hrow), set_rows_of_id in H.
  specialize (H eq_refl).
  destruct (clear_row (Z.of_nat r) p g) as [[[]|e] g']; [|done].
  rewrite H, drop_ge, app_nil_r by lia. done.
Qed.

Lemma alter_as_insert {A} (f : A -> A) (l : list A) k x :
  l !! k = Some x -> alter f k l = <[k := f x]> l.
Proof.
  intros H. apply list_eq. intros i.
  destruct (decide (i = k)) as [->|Hne].
  - rewrite list_lookup_alter_eq, H, list_lookup_insert_eq; [done|].
    by eapply lookup_lt_Some.
  - by rewrite list_lookup_alter_ne, list_lookup_insert_ne.
Qed.

Lemma row_is_completed_single tile rest :
  row_is_completed (tile :: rest) tile
  = Spec.single_colour (tile :: rest) tile.
Proof.
  unfold row_is_completed, Spec.single_colour. simpl.
  rewrite Z.eqb_refl. simpl.
  destruct (tile =? 0) eqn:Hz; simpl; [done|].
  induction rest as [|x rest IH]; simpl; [done|]. rewrite IH.
  destruct (x =? tile) eqn:Hx; simpl; [|done].
  apply Z.eqb_eq in Hx. subst x. by rewrite Hz.
Qed.

Lemma board_of_set_board_of p m g : board_of p (set_board_of p m g) = m.
Proof. by destruct p. Qed.

Lemma wall_row g p (r : nat) :
  wf g -> (r < 5)%nat ->
  exists cells, board_of p g !! r = Some cells /\ length cells = 5%nat.
Proof.
  intros Hg Hr. eapply shape_lookup_length; [apply (wf_board g Hg)|].
  by apply (lookup_replicate_2 5 5%nat).
Qed.

Lemma compute_row_point_eq (r c : nat) p g cells :
  board_of p g !! r = Some cells ->
  compute_row_point (Z.of_nat r) (Z.of_nat c) p g
  = (Ok (Spec.adjacency cells c), g).
Proof.
  intros Hr. unfold compute_row_point. rewrite bind_gets.
  erewrite bind_lift.
  2:{ rewrite get_in_range, Nat2Z.id; [done|].
      apply lookup_lt_Some in Hr. lia. }
  by rewrite scan_row_adjacency.
Qed.

Lemma shape_matrix_Forall (m : list (list Z)) (n c : nat) :
  shape m = replicate n c -> Forall (fun row => length row = c) m.
Proof.
  intros Hsh. apply Forall_lookup. intros i row Hrow.
  apply shape_lookup in Hrow. rewrite Hsh in Hrow.
  by apply lookup_replicate_1 in Hrow as [? _].
Qed.

Lemma compute_column_point_eq (r c : nat) p g :
  shape (board_of p g) = [5; 5; 5; 5; 5]%nat -> (c < 5)%nat ->
  compute_column_point (Z.of_nat r) (Z.of_nat c) p g
  = (Ok (Spec.adjacency (Spec.column (board_of p g) c) r), g).
Proof.
  intros Hsh Hc. unfold compute_column_point. rewrite bind_gets.
  erewrite bind_lift.
  2:{ apply scan_column_rows.
      eapply Forall_impl; [by apply (shape_matrix_Forall _ 5 5)|].
      simpl. lia. }
  by rewrite scan_row_adjacency.
Qed.

Lemma add_tile_to_scoreboard_eq tile p (r : nat) g cells :
  wf g -> board_of p g !! r = Some cells ->
  let c := Z.to_nat ((tile - 1 + Z.of_nat r) mod 5) in
  let wall := <[r := <[c := 1]> cells]> (board_of p g) in
  add_tile_to_scoreboard tile p (Z.of_nat r) g
  = (Ok (1 + Spec.adjacency (<[c := 1]> cells) c
           + Spec.adjacency (Spec.column wall c) r),
     set_board_of p wall g).
Proof.
  intros Hwf Hr c wall.
  pose proof (Z.mod_pos_bound (tile - 1 + Z.of_nat r) 5) as Hmod.
  assert (Hlen : length cells = 5%nat).
  { destruct (wall_row g p r Hwf) as (cells' & Hc' & Hl');
      [by apply lookup_lt_Some in Hr; rewrite <- (shape_length (board_of p g)),
         (wf_board g Hwf) in Hr|congruence]. }
  assert (Hc : (tile - 1 + Z.of_nat r) mod 5 = Z.of_nat c) by lia.
  unfold add_tile_to_scoreboard.
  erewrite bind_eq.
  2:{ apply write2_eq. apply set2_in_range; [done|lia]. }
  fold c. fold wall. rewrite Hc.
  erewrite bind_eq.
  2:{ apply compute_row_point_eq. rewrite board_of_set_board_of.
      apply list_lookup_insert_eq. by eapply lookup_lt_Some. }
  erewrite bind_eq.
  2:{ apply compute_column_point_eq; [|lia].
      rewrite board_of_set_board_of. unfold wall.
      rewrite (shape_insert _ _ cells); [apply (wf_board g Hwf)|done|].
      by rewrite length_insert. }
  by rewrite board_of_set_board_of.
Qed.

Lemma board_of_set_rows_of p q m g :
  board_of q (set_rows_of p m g) = board_of q g.
Proof. by destruct p, q. Qed.

Lemma score_of_set_rows_of p q m g :
  score_of q (set_rows_of p m g) = score_of q g.
Proof. by destruct p, q. Qed.

Lemma score_of_set_board_of p q m g :
  score_of q (set_board_of p m g) = score_of q g.
Proof. by destruct p, q. Qed.

Lemma column_lookup (wall : list (list Z)) (c r : nat) cells :
  wall !! r = Some cells ->
  Spec.column wall c !! r = Some (default 0 (cells !! c)).
Proof. intros H. unfold Spec.column. by rewrite list_lookup_fmap, H. Qed.

Lemma calculate_score_row_eq p (r : nat) g :
  wf g -> 0 <= score_of p g -> (r < 5)%nat ->
  calculate_score_row p (Z.of_nat r) g = (Ok tt, Spec.score_row p g r).
Proof.
  intros Hwf Hs Hr.
  destruct (staging_row g p r Hwf Hr) as (row & Hrow & Hlen).
  destruct row as [|tile rest]; [done|].
  unfold calculate_score_row, Spec.score_row. rewrite Hrow, bind_gets.
  erewrite bind_lift.
  2:{ rewrite get_in_range, Nat2Z.id; [done|].
      apply lookup_lt_Some in Hrow. lia. }
  erewrite bind_lift by (by rewrite get_in_range by (simpl; lia)).
  rewrite row_is_completed_single.
  destruct (Spec.single_colour (tile :: rest) tile) eqn:Hsc; [|done].
  erewrite bind_eq by (by apply (clear_row_eq p r (tile :: rest))).
  rewrite Hlen.
  set (g1 := set_rows_of p (<[r := replicate (S r) 0]> (rows_of p g)) g).
  assert (Hwf1 : wf g1).
  { apply rows_closed_wf; [done|]. eapply shape_insert; [done|].
    by rewrite length_replicate. }
  destruct (wall_row g p r Hwf Hr) as (cells & Hcells & Hcl).
  erewrite bind_eq.
  2:{ apply (add_tile_to_scoreboard_eq tile p r g1 cells Hwf1).
      unfold g1. by rewrite board_of_set_rows_of. }
  pose proof (Z.mod_pos_bound (tile - 1 + Z.of_nat r) 5) as Hmod.
  set (c := Z.to_nat ((tile - 1 + Z.of_nat r) mod 5)).
  assert (Hc : (c < 5)%nat) by lia.
  unfold g1 at 1 2. rewrite board_of_set_rows_of.
  rewrite (alter_as_insert _ _ _ _ Hcells).
  set (wall := <[r := <[c := 1]> cells]> (board_of p g)).
  assert (Hwr : wall !! r = Some (<[c := 1]> cells)).
  { apply list_lookup_insert_eq. by eapply lookup_lt_Some. }
  rewrite Hwr. simpl default.
  assert (Hcc : <[c := 1]> cells !! c = Some 1)
    by (apply list_lookup_insert_eq; lia).
  pose proof (adjacency_nonneg _ _ _ Hcc eq_refl) as Ha1.
  assert (Hcol : Spec.column wall c !! r = Some 1).
  { rewrite (column_lookup _ _ _ _ Hwr), Hcc. done. }
  pose proof (adjacency_nonneg _ _ _ Hcol eq_refl) as Ha2.
  unfold update_score, modify.
  rewrite score_of_set_board_of. unfold g1.
  rewrite score_of_set_rows_of.
  replace (0 <? _) with true by (symmetry; apply Z.ltb_lt; lia).
  done.
Qed.

(** ** Scores stay non-negative *)

Lemma score_of_set_score_of p q v g :
  score_of q (set_score_of p v g) = if player_eqb p q then v else score_of q g.
Proof. by destruct p, q. Qed.

Lemma update_score_max p points g :
  score_of p (snd (update_score p points g))
  = Z.max 0 (score_of p g + points).
Proof.
  unfold update_score, modify. simpl.
  destruct (0 <? score_of p g + points) eqn:E;
    rewrite score_of_set_score_of, player_eqb_refl.
  - apply Z.ltb_lt in E. lia.
  - apply Z.ltb_ge in E. lia.
Qed.

Lemma frame_score_nonneg p : frame (fun g => 0 <= score_of p g).
Proof. constructor; intros; destruct p; try done; by destruct p0. Qed.

Lemma rows_closed_score_nonneg p : rows_closed (fun g => 0 <= score_of p g).
Proof. intros q g m Hg _. by rewrite score_of_set_rows_of. Qed.

Lemma score_kept_score_nonneg p : score_kept (fun g => 0 <= score_of p g).
Proof.
  intros q points. apply hoare_modify. intros g Hg.
  destruct (0 <? score_of q g + points) eqn:E;
    rewrite score_of_set_score_of; destruct (player_eqb q p) eqn:Hq;
    try done.
  apply Z.ltb_lt in E. destruct q, p; try done; simpl in *; lia.
Qed.

Lemma score_kept_scores_nonneg : score_kept scores_nonneg.
Proof.
  intros q points g Hg p.
  apply (score_kept_score_nonneg p q points g (Hg p)).
Qed.

Lemma score_kept_and I J :
  score_kept I -> score_kept J -> score_kept (fun g => I g /\ J g).
Proof.
  intros HI HJ p points g [Hi Hj].
  split; [apply (HI p points g Hi)|apply (HJ p points g Hj)].
Qed.

Lemma score_kept_Inv : score_kept Inv.
Proof.
  apply score_kept_and; [apply score_closed_kept, score_closed_wf|].
  apply score_kept_and; [apply score_closed_kept, score_closed_rows_ok|].
  apply score_kept_scores_nonneg.
Qed.

Lemma calculate_penality_safe (I : Azul_game -> Prop) p :
  frame I -> (forall g, I g -> wf g) -> score_kept I ->
  safe I (calculate_penality p).
Proof.
  intros HI HW HS. unfold safe, calculate_penality.
  eapply hoare_bind with (R := fun _ => I).
  - keep ltac:(safe_tac HI HW).
  - intros pts. intros g Hg. pose proof (HS p pts g Hg) as H.
    unfold update_score, modify in *. done.
Qed.

(** ** Round scoring as the specification words it *)

Lemma rows_ok_same g g' :
  (forall q, rows_of q g' = rows_of q g) -> rows_ok g -> rows_ok g'.
Proof. intros H Hg q. rewrite H. apply Hg. Qed.

Lemma score_row_keeps p g r :
  wf g -> 0 <= score_of p g -> (r < 5)%nat ->
  wf (Spec.score_row p g r) /\ 0 <= score_of p (Spec.score_row p g r).
Proof.
  intros Hwf Hs Hr.
  pose proof (calculate_score_row_eq p r g Hwf Hs Hr) as Heq.
  pose proof (calculate_score_row_closed wf frame_wf p (Z.of_nat r)
    rows_closed_wf (score_closed_kept _ score_closed_wf) g Hwf) as H1.
  pose proof (calculate_score_row_closed _ (frame_score_nonneg p) p
    (Z.of_nat r) (rows_closed_score_nonneg p) (score_kept_score_nonneg p)
    g Hs) as H2.
  rewrite Heq in H1, H2. done.
Qed.

Lemma score_row_rows_ok p g r : rows_ok g -> rows_ok (Spec.score_row p g r).
Proof.
  intros Hg. unfold Spec.score_row.
  destruct (rows_of p g !! r) as [[|tile rest]|] eqn:Hrow; try done.
  destruct (Spec.single_colour (tile :: rest) tile); [|done].
  eapply rows_ok_same;
    [|apply (rows_ok_set_rows_of p
        (<[r := replicate (length (tile :: rest)) 0]> (rows_of p g)) g Hg)].
  - intros q. by destruct p, q.
  - apply Forall_insert; [apply Hg|]. exists 0%nat, 1. split; [done|].
    by rewrite length_replicate, Nat.sub_0_r.
Qed.

Lemma score_rows_loop p (l : list nat) g :
  wf g -> 0 <= score_of p g -> Forall (fun r => (r < 5)%nat) l ->
  for_each (map Z.of_nat l) (calculate_score_row p) g
  = (Ok tt, fold_left (Spec.score_row p) l g).
Proof.
  intros Hwf Hs Hl. revert g Hwf Hs.
  induction Hl as [|r l Hr _ IH]; intros g Hwf Hs; simpl; [done|].
  erewrite bind_eq by (by apply calculate_score_row_eq).
  destruct (score_row_keeps p g r Hwf Hs Hr). by apply IH.
Qed.

Lemma calculate_score_eq p g :
  wf g -> 0 <= score_of p g ->
  calculate_score p g = calculate_penality p (Spec.score_rows p g).
Proof.
  intros Hwf Hs. unfold calculate_score. rewrite bind_gets.
  replace (length (rows_of p g)) with 5%nat
    by (by rewrite <- shape_length, (wf_rows g Hwf)).
  unfold Py.range. rewrite Nat2Z.id.
  erewrite bind_eq; [done|].
  apply score_rows_loop; [done..|].
  apply Forall_forall. intros r Hr%elem_of_seq. lia.
Qed.

Lemma single_colour_replicate (n : nat) (tile : Z) :
  tile <> 0 -> Spec.single_colour (replicate n tile) tile = true.
Proof.
  intros Ht. unfold Spec.single_colour.
  replace (tile =? 0) with false by (symmetry; by apply Z.eqb_neq).
  simpl. induction n as [|n IH]; simpl; [done|].
  by rewrite Z.eqb_refl.
Qed.

(** The effect of the loop body on a row filled with one colour. *)
Lemma calculate_score_row_complete p (r : nat) colour g :
  wf g -> 0 <= score_of p g -> (r < 5)%nat ->
  rows_of p g !! r = Some (replicate (S r) (colour + 1)) ->
  colour + 1 <> 0 ->
  let c := Z.to_nat ((colour + Z.of_nat r) mod 5) in
  exists g' cells,
    calculate_score_row p (Z.of_nat r) g = (Ok tt, g')
    /\ rows_of p g' !! r = Some (replicate (S r) 0)
    /\ board_of p g' !! r = Some cells
    /\ cells !! c = Some 1
    /\ score_of p g'
       = score_of p g + 1 + Spec.adjacency cells c
         + Spec.adjacency (Spec.column (board_of p g') c) r.
Proof.
  intros Hwf Hs Hr Hrow Hc c.
  destruct (wall_row g p r Hwf Hr) as (cells & Hcells & Hlen).
  pose proof (Z.mod_pos_bound (colour + Z.of_nat r) 5) as Hmod.
  exists (Spec.score_row p g r), (<[c := 1]> cells).
  split; [by apply calculate_score_row_eq|].
  unfold Spec.score_row.
  change (replicate (S r) (colour + 1))
    with (colour + 1 :: replicate r (colour + 1)) in Hrow.
  rewrite Hrow. cbv beta iota zeta.
  change (colour + 1 :: replicate r (colour + 1))
    with (replicate (S r) (colour + 1)).
  rewrite single_colour_replicate by done.
  replace (colour + 1 - 1) with colour by lia. fold c.
  rewrite (alter_as_insert _ _ _ _ Hcells).
  assert (Hwr : <[r := <[c := 1]> cells]> (board_of p g) !! r
                = Some (<[c := 1]> cells))
    by (apply list_lookup_insert_eq; by eapply lookup_lt_Some).
  rewrite Hwr. simpl default.
  rewrite score_of_set_score_of, player_eqb_refl.
  replace (rows_of p (set_score_of p _ (set_board_of p _ (set_rows_of p _ g))))
    with (<[r := replicate (length (colour + 1 :: replicate r (colour + 1))) 0]>
            (rows_of p g)) by (by destruct p).
  replace (board_of p (set_score_of p _ (set_board_of p _ (set_rows_of p _ g))))
    with (<[r := <[c := 1]> cells]> (board_of p g)) by (by destruct p).
  split.
  { simpl length. rewrite length_replicate.
    apply list_lookup_insert_eq. by eapply lookup_lt_Some. }
  split; [done|]. split; [apply list_lookup_insert_eq; lia|]. lia.
Qed.

(** C4. On a well-formed game and for a player whose score is not
    negative, [calculate_score] is the round scoring of the specification
    applied to the staging rows 0..4 in turn ([Spec.score_rows]), followed
    by the penalty step.  When the loop reaches a row [r] that is fully
    occupied by one colour, it clears the row to all-empty, sets the wall
    cell at row [r], column [(colour + r) mod 5], and adds to the score
    [1 + row adjacency + column adjacency], where each adjacency is the
    length minus one of the maximal run of set cells through the new
    cell, along its row and down its column. *)
Theorem calculate_score_scores_rows p g :
  wf g -> 0 <= score_of p g ->
  calculate_score p g = calculate_penality p (Spec.score_rows p g)
  /\ forall (r : nat) colour,
       (r < 5)%nat ->
       rows_of p g !! r = Some (replicate (S r) (colour + 1)) ->
       colour + 1 <> 0 ->
       let c := Z.to_nat ((colour + Z.of_nat r) mod 5) in
       exists g' cells,
         calculate_score_row p (Z.of_nat r) g = (Ok tt, g')
         /\ rows_of p g' !! r = Some (replicate (S r) 0)
         /\ board_of p g' !! r = Some cells
         /\ cells !! c = Some 1
         /\ score_of p g'
            = score_of p g + 1 + Spec.adjacency cells c
              + Spec.adjacency (Spec.column (board_of p g') c) r.
Proof.
  intros Hwf Hs. split; [by apply calculate_score_eq|].
  intros r colour Hr Hrow Hc. by apply calculate_score_row_complete.
Qed.


(** ** Round scoring keeps the invariant *)

Lemma score_row_Inv p g r : Inv g -> (r < 5)%nat -> Inv (Spec.score_row p g r).
Proof.
  intros (Hwf & Hrows & Hsc) Hr.
  destruct (score_row_keeps p g r Hwf (Hsc p) Hr) as [Hwf' _].
  split; [done|]. split; [by apply score_row_rows_ok|].
  pose proof (calculate_score_row_closed _ frame_scores_nonneg p
    (Z.of_nat r) rows_closed_scores_nonneg score_kept_scores_nonneg g Hsc)
    as H.
  by rewrite (calculate_score_row_eq p r g Hwf (Hsc p) Hr) in H.
Qed.

Lemma score_rows_Inv p g : Inv g -> Inv (Spec.score_rows p g).
Proof.
  unfold Spec.score_rows.
  assert (Forall (fun r => (r < 5)%nat) (seq 0 5)) as Hl
    by (apply Forall_forall; intros r Hr%elem_of_seq; lia).
  revert g. induction Hl as [|r l Hr _ IH]; intros g Hg; simpl; [done|].
  apply IH. by apply score_row_Inv.
Qed.

Lemma calculate_score_safe p : safe Inv (calculate_score p).
Proof.
  intros g Hg. rewrite calculate_score_eq; [|apply Hg|apply Hg].
  apply (calculate_penality_safe Inv p frame_Inv); [by intros ? [? _]| |].
  - apply score_kept_Inv.
  - by apply score_rows_Inv.
Qed.

(** ** End-game bonus *)

Lemma tile_array_of_total weight wall :
  shape wall = [5; 5; 5; 5; 5]%nat ->
  exists tile_array,
    tile_array_of weight wall = Some tile_array /\ length tile_array = 5%nat.
Proof.
  intros Hsh. unfold tile_array_of.
  apply (fold_opt_inv (fun ta => length ta = 5%nat)); [done|].
  intros ta [i j] Hij Hlen.
  apply list_elem_of_bind in Hij as (i' & Hij & Hi%elem_of_range).
  apply list_elem_of_bind in Hij as (j' & Hij & Hj%elem_of_range).
  apply list_elem_of_singleton in Hij as [= -> ->].
  destruct (get2_Some_shape wall i' j' _ Hsh) as [cell ->];
    [apply (in_shape_matrix 5 5); lia|].
  simpl. destruct (cell =? 1); [|by eexists].
  pose proof (Z.mod_pos_bound (i' + j') 5).
  rewrite get_in_range by lia.
  destruct (lookup_lt_is_Some_2 ta (Z.to_nat ((i' + j') mod 5))) as [old ->];
    [lia|].
  simpl. rewrite set_in_range by lia. eexists. split; [done|].
  by rewrite length_insert.
Qed.

Lemma count_eq_nonneg v l : 0 <= count_eq v l.
Proof. unfold count_eq. lia. Qed.

Lemma final_points_total wall :
  shape wall = [5; 5; 5; 5; 5]%nat ->
  exists bonus, final_points wall = Some bonus /\ 0 <= bonus.
Proof.
  intros Hsh. unfold final_points, tile_completed_score.
  destruct (tile_array_of_total (fun _ => 1) wall Hsh) as (ta & -> & _).
  simpl. eexists. split; [done|].
  pose proof (count_eq_nonneg 5 ta).
  pose proof (count_eq_nonneg 5 (column_sums wall)).
  unfold row_completed_score, column_completed_score. lia.
Qed.

Lemma compute_final_points_safe : safe Inv compute_final_points.
Proof.
  intros g (Hwf & Hrows & Hsc). unfold compute_final_points.
  destruct (final_points_total (board_p1 g) (wf_board g Hwf P1))
    as (bonus1 & H1 & Hb1).
  destruct (final_points_total (board_p2 g) (wf_board g Hwf P2))
    as (bonus2 & H2 & Hb2).
  rewrite bind_gets. erewrite bind_lift by done.
  unfold bind at 1, modify. rewrite bind_gets. simpl board_p2.
  erewrite bind_lift by done. unfold modify. simpl.
  split; [by split_wf|]. split; [done|].
  pose proof (Hsc P1). pose proof (Hsc P2).
  intros [|]; simpl in *; lia.
Qed.

(** ** The move analysis returns on well-formed games *)

Lemma bind_if_lift {A B} (b : bool) (o : option A) a d (k : A -> M B) g :
  o = Some a ->
  bind (if b then lift o else ret d) k g = k (if b then a else d) g.
Proof. intros ->. by destruct b. Qed.

Lemma fold_opt_is_Some {B St} (body : St -> B -> option St) l s :
  (forall s x, x ∈ l -> is_Some (body s x)) -> is_Some (fold_opt body s l).
Proof.
  intros H.
  destruct (fold_opt_inv (fun _ => True) body l s I) as (r & Hr & _);
    [|by rewrite Hr].
  intros s' x Hx _. destruct (H s' x Hx) as [s'' ->]. by eexists.
Qed.

Lemma compute_expected_row_points_total col tile board :
  shape board = [5; 5; 5; 5; 5]%nat -> 0 <= col < 5 ->
  is_Some (compute_expected_row_points col tile board).
Proof.
  intros Hsh Hc. unfold compute_expected_row_points.
  destruct (shape_lookup_length board _ (Z.to_nat col) 5 Hsh)
    as (cells & Hcells & Hlen);
    [apply (lookup_replicate_2 5 5%nat); lia|].
  rewrite get_in_range
    by (rewrite <- shape_length, Hsh; simpl; lia).
  rewrite Hcells. cbn -[fold_opt Py.range Z.modulo].
  apply fold_opt_is_Some. intros s i Hi%elem_of_range.
  destruct (i =? (tile + col) mod 5); [by eexists|].
  rewrite get_in_range by lia.
  destruct (lookup_lt_is_Some_2 cells (Z.to_nat i)) as [cell ->]; [lia|].
  simpl. destruct (cell =? 1); by eexists.
Qed.

Lemma expected_column_loop_total row_array board col tile indices flag pts :
  shape board = [5; 5; 5; 5; 5]%nat ->
  shape row_array = [1; 2; 3; 4; 5]%nat ->
  0 <= tile < 5 ->
  Forall (fun i => 0 <= i < 5) indices ->
  is_Some (expected_column_loop row_array board col tile indices flag pts).
Proof.
  intros Hb Hr Ht Hind. revert flag pts.
  induction Hind as [|i rest Hi _ IH]; intros flag pts; simpl; [done|].
  destruct (i =? col); [apply IH|].
  destruct (get2_Some_shape board i tile _ Hb) as [cell ->];
    [apply (in_shape_matrix 5 5); lia|].
  simpl. destruct (negb (cell =? 0)); [apply IH|].
  assert (is_Some (Py.get row_array i)) as [row ->].
  { apply get_is_Some. rewrite <- shape_length, Hr. simpl. lia. }
  simpl. destruct (expected_column_inner row flag pts); [apply IH|done].
Qed.

Lemma column_sums_length board :
  Forall (fun row => length row = 5%nat) board ->
  length (column_sums board) = 5%nat.
Proof.
  unfold column_sums. intros Hb.
  assert (forall acc, length acc = 5%nat ->
    length (fold_left (fun cumulative row => zip_with Z.add cumulative row)
              board acc) = 5%nat) as H; [|by apply H].
  induction Hb as [|row rest Hrow _ IH]; intros acc Hacc; simpl; [done|].
  apply IH. rewrite length_zip_with_l_eq; congruence.
Qed.

Lemma action_analisys_total p tile col g :
  wf g -> 0 <= tile < 5 -> 0 <= col < 6 ->
  exists r, action_analisys p tile col g = (Ok r, g).
Proof.
  intros Hwf Ht Hc. unfold action_analisys. rewrite !bind_gets.
  destruct (col =? 5) eqn:Hcol; [by eexists|].
  apply Z.eqb_neq in Hcol.
  pose proof (wf_board g Hwf p) as Hb. pose proof (wf_rows g Hwf p) as Hr.
  assert (is_Some (Py.get (rows_of p g) col)) as [staged Hst].
  { apply get_is_Some. rewrite <- shape_length, Hr. simpl. lia. }
  erewrite bind_lift by done.
  destruct (compute_expected_row_points_total col tile (board_of p g) Hb)
    as [erp Herp]; [lia|].
  erewrite bind_if_lift by done.
  destruct (expected_column_loop_total (rows_of p g) (board_of p g) col tile
              (Py.range 5) false 0 Hb Hr Ht) as [ecp Hecp].
  { apply Forall_forall. by intros i Hi%elem_of_range. }
  erewrite bind_if_lift by done.
  assert (is_Some (action_analisys_row (board_of p g) col)) as [ar Har].
  { unfold action_analisys_row.
    assert (is_Some (Py.get (board_of p g) col)) as [row ->]; [|by eexists].
    apply get_is_Some. rewrite <- shape_length, Hb. simpl. lia. }
  erewrite bind_lift by done.
  assert (is_Some (action_analisys_column (board_of p g) tile)) as [ac Hac].
  { unfold action_analisys_column. apply get_is_Some.
    rewrite column_sums_length; [lia|].
    by apply (shape_matrix_Forall _ 5 5). }
  erewrite bind_lift by done.
  assert (is_Some (action_analisys_color (board_of p g) tile)) as [ao Hao].
  { unfold action_analisys_color.
    destruct (tile_array_of_total (fun i => 1 * i) (board_of p g) Hb)
      as (ta & -> & Hlen).
    simpl. apply get_is_Some. lia. }
  erewrite bind_lift by done.
  by eexists.
Qed.


(** ** One step of the environment *)

Lemma is_turn_done_safe I : frame I -> safe I is_turn_done.
Proof. intros HI. unfold safe, is_turn_done. keep ltac:(by by_frame HI). Qed.

Lemma is_game_done_safe I : frame I -> safe I is_game_done.
Proof.
  intros HI. unfold safe, is_game_done, is_turn_done.
  keep ltac:(by by_frame HI).
Qed.

Lemma safe_weaken {A} I (m : M A) (E : Azul_game -> Prop) :
  safe I m -> hoare I m (fun _ => I) E.
Proof. intros H. eapply hoare_conseq; [exact H|done..]. Qed.

(** [step] keeps the invariant; it raises only where the legality check
    or the move analysis does. *)
Lemma step_game_hoare action pit tile col (E : Azul_game -> Prop) :
  from_action_to_tuple_action action = (pit, tile, col) ->
  0 <= tile -> 0 <= col ->
  (forall g p, Inv g ->
     fst (valid_move p pit tile col g) = Raise IndexError -> E g) ->
  (forall g p, Inv g ->
     fst (action_analisys p tile col g) = Raise IndexError -> E g) ->
  hoare Inv (Azul.step_game action) (fun _ => Inv) E.
Proof.
  intros Hdec Ht Hc HE1 HE2. unfold Azul.step_game. rewrite Hdec.
  eapply hoare_bind with (R := fun _ => Inv); [by apply hoare_gets|].
  intros p.
  eapply hoare_bind with (R := fun _ => Inv);
    [apply play_turn_hoare; [done..|intros g; apply HE1]|].
  intros _.
  eapply hoare_bind with (R := fun _ => Inv).
  { intros g Hg. specialize (HE2 g p Hg).
    pose proof (action_analisys_frame (fun g' => g' = g) p tile col g eq_refl)
      as Hsame.
    destruct (action_analisys p tile col g) as [[r|[]] g']; simpl in *;
      subst g'; [done|by apply HE2]. }
  intros [[[[[? ?] ?] erp] ecp] ?].
  eapply hoare_bind with (R := fun _ => Inv);
    [apply safe_weaken, is_turn_done_safe, frame_Inv|intros _].
  eapply hoare_bind with (R := fun _ => Inv);
    [apply safe_weaken, is_game_done_safe, frame_Inv|intros _].
  eapply hoare_bind with (R := fun _ => Inv); [by apply hoare_gets|].
  intros done_phase.
  eapply hoare_bind with (R := fun _ => Inv).
  { destruct done_phase; [|by apply hoare_ret].
    eapply hoare_bind with (R := fun _ => Inv);
      [apply safe_weaken, calculate_score_safe|intros _].
    eapply hoare_bind with (R := fun _ => Inv);
      [apply safe_weaken, calculate_score_safe|intros _].
    eapply hoare_bind with (R := fun _ => Inv); [by apply hoare_gets|].
    intros [|]; [apply safe_weaken, compute_final_points_safe|].
    by apply hoare_ret. }
  intros _. unfold Azul.have_winner. keep ltac:(done).
Qed.

Lemma step_game_Inv action : preserves Inv (Azul.step_game action).
Proof.
  destruct (decode_colour action) as (pit & tile & col & Hdec & Ht & Hc).
  eapply step_game_hoare; [done|lia|lia|done..].
Qed.

Lemma step_game_safe action :
  0 <= action < 180 -> safe Inv (Azul.step_game action).
Proof.
  intros Ha.
  destruct (decode_in_range action Ha)
    as (pit & tile & col & Hdec & Hp & Ht & Hc).
  eapply step_game_hoare; [done|lia|lia|..].
  - intros g p [Hwf _] H.
    destruct (legal_total p pit tile col g Hwf Hp Ht Hc) as [b Hb].
    rewrite Hb in H. discriminate H.
  - intros g p [Hwf _] H.
    destruct (action_analisys_total p tile col g Hwf Ht Hc) as [r Hr].
    rewrite Hr in H. discriminate H.
Qed.

Lemma reachable_Inv g : reachable g -> Inv g.
Proof.
  induction 1 as [draws Hd|action g _ IH].
  - by apply Azul_game_init_Inv.
  - pose proof (step_game_Inv action g IH) as H.
    by destruct (Azul.step_game action g) as [[r|e] g'].
Qed.

(** ** The flag returned by [step] *)

Ltac flag_tac :=
  try done;
  unfold done_flag_ok in *;
  repeat match goal with
  | p : player |- _ => destruct p
  | |- context [if ?b then _ else _] => destruct b
  end;
  simpl in *; try done.

Lemma calculate_score_flag p : preserves done_flag_ok (calculate_score p).
Proof.
  unfold preserves, calculate_score, calculate_score_row, clear_row,
    add_tile_to_scoreboard, compute_row_point, compute_column_point,
    calculate_penality, update_score.
  keep ltac:(flag_tac).
Qed.

Lemma compute_final_points_flag : preserves done_flag_ok compute_final_points.
Proof. unfold preserves, compute_final_points. keep ltac:(flag_tac). Qed.

#[local] Hint Resolve calculate_score_flag compute_final_points_flag : keep_db.

(** Whenever [step] returns, its flag says whether the pools are empty
    in the state it leaves. *)
Lemma step_game_flag action :
  hoare (fun _ => True) (Azul.step_game action)
    (fun r g => snd r = pits_empty (drawing_pit g)) (fun _ => True).
Proof.
  unfold Azul.step_game.
  destruct (from_action_to_tuple_action action) as [[pit tile] col].
  eapply hoare_bind with (R := fun _ _ => True); [by apply hoare_gets|].
  intros p.
  eapply hoare_bind with (R := fun _ _ => True).
  { intros g _. by destruct (play_turn p pit tile col g) as [[?|?] ?]. }
  intros _.
  eapply hoare_bind with (R := fun _ _ => True).
  { intros g _. by destruct (action_analisys p tile col g) as [[?|?] ?]. }
  intros [[[[[? ?] ?] erp] ecp] ?].
  eapply hoare_bind with (R := fun _ => done_flag_ok);
    [by apply hoare_modify|intros _].
  eapply hoare_conseq with (P' := done_flag_ok)
    (Q' := fun r g => done_flag_ok g /\ snd r = is_done_phase g)
    (E' := done_flag_ok); [|done| |done].
  2:{ intros r g [H ->]. exact H. }
  eapply hoare_bind with (R := fun _ => done_flag_ok).
  { unfold is_game_done, is_turn_done. keep ltac:(flag_tac). }
  intros _.
  eapply hoare_bind with (R := fun _ => done_flag_ok);
    [by apply hoare_gets|]. intros done_phase.
  eapply hoare_bind with (R := fun _ => done_flag_ok).
  { keep ltac:(flag_tac). }
  intros _. unfold Azul.have_winner.
  eapply hoare_bind
    with (R := fun d g => done_flag_ok g /\ d = is_done_phase g);
    [by apply hoare_gets|]. intros d.
  set (Q := fun g => done_flag_ok g /\ d = is_done_phase g).
  eapply hoare_bind with (R := fun _ => Q); [by apply hoare_gets|].
  intros ins.
  eapply hoare_bind with (R := fun _ => Q); [by apply hoare_gets|].
  intros pen.
  by apply hoare_ret.
Qed.

(** ** LegalMoveGenerator *)

Lemma for_fold_pure {A St} (l : list A) (s : St) body (f : St -> A -> St) g :
  (forall x s, x ∈ l -> body x s g = (Ok (f s x), g)) ->
  for_fold l s body g = (Ok (fold_left f l s), g).
Proof.
  revert s. induction l as [|x l IH]; intros s H; simpl; [done|].
  erewrite bind_eq by (apply H; left).
  apply IH. intros y s' Hy. apply H. by right.
Qed.

Lemma fold_left_app_bind {A B} (h : A -> list B) (l : list A) acc :
  fold_left (fun acc x => acc ++ h x) l acc = acc ++ (l ≫= h).
Proof.
  revert acc. induction l as [|x l IH]; intros acc; simpl.
  - by rewrite app_nil_r.
  - by rewrite IH, app_assoc.
Qed.

Lemma valid_actions_eq p g :
  wf g ->
  valid_actions p g
  = (Ok (i ← Py.range 6; j ← Py.range 5; k ← Py.range 6;
         if legal_bool p g i j k then [(i, j, k)] else []), g).
Proof.
  intros Hwf. unfold valid_actions.
  erewrite (for_fold_pure _ _ _
    (fun acc i => acc ++ (j ← Py.range 5; k ← Py.range 6;
       if legal_bool p g i j k then [(i, j, k)] else []))).
  { by rewrite fold_left_app_bind. }
  intros i acc1 Hi%elem_of_range.
  erewrite (for_fold_pure _ _ _
    (fun acc j => acc ++ (k ← Py.range 6;
       if legal_bool p g i j k then [(i, j, k)] else []))).
  { by rewrite fold_left_app_bind. }
  intros j acc2 Hj%elem_of_range.
  erewrite (for_fold_pure _ _ _
    (fun acc k => acc ++
       if legal_bool p g i j k then [(i, j, k)] else [])).
  { by rewrite fold_left_app_bind. }
  intros k acc3 Hk%elem_of_range.
  destruct (legal_total p i j k g Hwf Hi Hj Hk) as [b Hb].
  erewrite bind_eq by done. unfold legal_bool.
  rewrite valid_move_eq in Hb. injection Hb as ->.
  destruct b; [done|]. by rewrite app_nil_r.
Qed.

(** C9. On a well-formed game, if pool slot [i] holds a nonzero count
    [n] of colour [j], then drafting that colour from that slot into the
    penalty track (target 5) passes the legality check for either player,
    and the enumeration of legal moves returns a list that contains
    [(i, j, 5)], so it is not empty. *)
Theorem penalty_draft_always_legal p i j n g :
  wf g -> 0 <= i < 6 -> 0 <= j < 5 ->
  Py.get2 (drawing_pit g) i j = Some n -> n <> 0 ->
  valid_move p i j 5 g = (Ok true, g)
  /\ exists moves,
       valid_actions p g = (Ok moves, g) /\ (i, j, 5) ∈ moves /\ moves <> [].
Proof.
  intros Hwf Hi Hj Hn Hne.
  assert (Hlegal : legal (drawing_pit g) (board_of p g) (rows_of p g) i j 5
                   = Ok true).
  { unfold legal. rewrite Hn.
    by replace (n =? 0) with false by (symmetry; by apply Z.eqb_neq). }
  rewrite valid_move_eq, valid_actions_eq, Hlegal by done.
  split; [done|]. eexists. split; [done|].
  assert ((i, j, 5) ∈
    (i ← Py.range 6; j ← Py.range 5; k ← Py.range 6;
     if legal_bool p g i j k then [(i, j, k)] else [])) as Hin.
  { apply list_elem_of_bind. exists i. split; [|by apply elem_of_range].
    apply list_elem_of_bind. exists j. split; [|by apply elem_of_range].
    apply list_elem_of_bind. exists 5. split; [|by apply elem_of_range].
    unfold legal_bool. rewrite Hlegal. by left. }
  split; [done|]. intros Hnil. rewrite Hnil in Hin.
  by apply not_elem_of_nil in Hin.
Qed.

Lemma penalty_draft_always_legal_witness :
  valid_move P1 0 0 5 Examples.fresh = (Ok true, Examples.fresh)
  /\ exists moves,
       valid_actions P1 Examples.fresh = (Ok moves, Examples.fresh)
       /\ (0, 0, 5) ∈ moves /\ moves <> [].
Proof.
  apply (penalty_draft_always_legal P1 0 0 1 Examples.fresh).
  - split; [|intros []..]; reflexivity.
  - lia.
  - lia.
  - reflexivity.
  - lia.
Defined.

(** ** Reachable states *)

Lemma fresh_reachable : reachable Examples.fresh.
Proof.
  apply reach_init. intros i j. apply Z.mod_pos_bound. lia.
Qed.

Lemma after_reachable actions g :
  reachable g -> reachable (Examples.after actions g).
Proof.
  revert g. induction actions as [|a l IH]; intros g Hg; [done|].
  apply IH. by apply reach_step.
Qed.

Lemma last_move_reachable : reachable Examples.last_move.
Proof. apply after_reachable, fresh_reachable. Qed.

Lemma calculate_score_scores_rows_witness :
  let g := snd (play_turn P1 5 4 2 Examples.last_move) in
  calculate_score P1 g = calculate_penality P1 (Spec.score_rows P1 g)
  /\ forall (r : nat) colour,
       (r < 5)%nat ->
       rows_of P1 g !! r = Some (replicate (S r) (colour + 1)) ->
       colour + 1 <> 0 ->
       let c := Z.to_nat ((colour + Z.of_nat r) mod 5) in
       exists g' cells,
         calculate_score_row P1 (Z.of_nat r) g = (Ok tt, g')
         /\ rows_of P1 g' !! r = Some (replicate (S r) 0)
         /\ board_of P1 g' !! r = Some cells
         /\ cells !! c = Some 1
         /\ score_of P1 g'
            = score_of P1 g + 1 + Spec.adjacency cells c
              + Spec.adjacency (Spec.column (board_of P1 g') c) r.
Proof.
  apply calculate_score_scores_rows.
  - split; [|intros []..]; reflexivity.
  - vm_compute. discriminate.
Defined.

(** ** Penalty application *)

Lemma calculate_penality_eq p g :
  wf g ->
  calculate_penality p g
  = update_score p (- Spec.penalty_cost (penalty_of p g)) g.
Proof.
  intros Hwf. unfold calculate_penality.
  pose proof (wf_penalty g Hwf p) as Hlen.
  destruct (penalty_of p g) as [|s0 [|s1 [|s2 [|s3 [|s4 [|s5 [|s6 [|]]]]]]]]
    eqn:Hpen; try done.
  erewrite bind_eq; [done|].
  erewrite (for_fold_pure _ _ _
    (fun penality i =>
       if Py.truthy (default 0 ([s0; s1; s2; s3; s4; s5; s6] !! Z.to_nat i))
       then penality - penalty_tier i else penality)).
  - f_equal. f_equal. unfold Spec.penalty_cost, sum_list. simpl.
    destruct (Py.truthy s0), (Py.truthy s1), (Py.truthy s2), (Py.truthy s3),
      (Py.truthy s4), (Py.truthy s5), (Py.truthy s6); reflexivity.
  - intros i acc Hi%elem_of_range. unfold bind, read1. rewrite Hpen.
    rewrite get_in_range by (simpl; lia).
    destruct ([s0; s1; s2; s3; s4; s5; s6] !! Z.to_nat i) as [slot|] eqn:Hs.
    + simpl. by destruct (Py.truthy slot).
    + apply lookup_ge_None in Hs. simpl in Hs. lia.
Qed.

(** C8. In every reachable state both scores are non-negative, and a
    score update, which round scoring and penalty application both make
    through [update_score], yields the maximum of zero and the updated
    value: an update that would go below zero gives exactly zero.  In
    particular the penalty step leaves the maximum of zero and the score
    minus the tiered cost of the occupied penalty slots. *)
Theorem scores_never_negative g :
  reachable g ->
  (forall p, 0 <= score_of p g)
  /\ (forall p points,
        score_of p (snd (update_score p points g))
        = Z.max 0 (score_of p g + points))
  /\ (forall p points,
        score_of p g + points < 0 ->
        score_of p (snd (update_score p points g)) = 0)
  /\ (forall p,
        score_of p (snd (calculate_penality p g))
        = Z.max 0 (score_of p g - Spec.penalty_cost (penalty_of p g))).
Proof.
  intros Hg. destruct (reachable_Inv g Hg) as (Hwf & _ & Hsc).
  split; [done|]. split; [intros; apply update_score_max|]. split.
  - intros p points Hneg. rewrite update_score_max. lia.
  - intros p. rewrite calculate_penality_eq, update_score_max by done. lia.
Qed.

Lemma scores_never_negative_witness :
  let g := Examples.after [0; 14; 5] Examples.fresh in
  (forall p, 0 <= score_of p g)
  /\ (forall p points,
        score_of p (snd (update_score p points g))
        = Z.max 0 (score_of p g + points))
  /\ (forall p points,
        score_of p g + points < 0 ->
        score_of p (snd (update_score p points g)) = 0)
  /\ (forall p,
        score_of p (snd (calculate_penality p g))
        = Z.max 0 (score_of p g - Spec.penalty_cost (penalty_of p g))).
Proof.
  apply scores_never_negative. apply after_reachable, fresh_reachable.
Defined.

Lemma row_ok_empty_first row :
  row_ok row -> row !! 0%nat = Some 0 -> Forall (fun x => x = 0) row.
Proof.
  intros (k & c & Hc & Hrow) H0. destruct k as [|k].
  - apply Forall_forall. intros x Hx. rewrite Hrow in Hx. simpl in Hx.
    by apply elem_of_replicate in Hx as [-> _].
  - rewrite Hrow in H0. simpl in H0. congruence.
Qed.

Lemma row_ok_one_colour row x y :
  row_ok row -> x ∈ row -> y ∈ row -> x <> 0 -> y <> 0 -> x = y.
Proof.
  intros (k & c & Hc & Hrow) Hx Hy Hx0 Hy0.
  rewrite Hrow in Hx, Hy.
  apply elem_of_app in Hx as [Hx%elem_of_replicate|Hx%elem_of_replicate];
    apply elem_of_app in Hy as [Hy%elem_of_replicate|Hy%elem_of_replicate];
    destruct Hx, Hy; congruence.
Qed.

(** C10. In every reachable state each staging row is a block of one
    non-zero colour followed only by empty slots: the occupied slots are
    a contiguous prefix, an empty slot 0 means the whole row is empty,
    and all occupied slots hold the same colour. *)
Theorem staging_rows_are_prefix_blocks g p row :
  reachable g -> row ∈ rows_of p g ->
  (exists (k : nat) (c : Z),
     c <> 0 /\ row = replicate k c ++ replicate (length row - k) 0)
  /\ (row !! 0%nat = Some 0 -> Forall (fun x => x = 0) row)
  /\ (forall x y, x ∈ row -> y ∈ row -> x <> 0 -> y <> 0 -> x = y).
Proof.
  intros Hg Hrow. destruct (reachable_Inv g Hg) as (_ & Hrows & _).
  assert (row_ok row) as Hok.
  { pose proof (Hrows p) as H. rewrite Forall_forall in H. by apply H. }
  split; [exact Hok|]. split; [by apply row_ok_empty_first|].
  intros x y. by apply row_ok_one_colour.
Qed.

Lemma staging_rows_are_prefix_blocks_witness :
  let g := Examples.after [0; 11; 37] Examples.fresh in
  let row := [2; 0] in
  (exists (k : nat) (c : Z),
     c <> 0 /\ row = replicate k c ++ replicate (length row - k) 0)
  /\ (row !! 0%nat = Some 0 -> Forall (fun x => x = 0) row)
  /\ (forall x y, x ∈ row -> y ∈ row -> x <> 0 -> y <> 0 -> x = y).
Proof.
  apply (staging_rows_are_prefix_blocks
           (Examples.after [0; 11; 37] Examples.fresh) P1 [2; 0]).
  - apply after_reachable, fresh_reachable.
  - vm_compute. right. left.
Defined.

(** ** The step entry point on ids in range *)

Lemma step_game_returns action g :
  Inv g -> 0 <= action < 180 ->
  exists r g',
    Azul.step_game action g = (Ok r, g')
    /\ Inv g' /\ snd r = pits_empty (drawing_pit g').
Proof.
  intros Hg Ha.
  pose proof (step_game_safe action Ha g Hg) as Hsafe.
  pose proof (step_game_flag action g I) as Hflag.
  destruct (Azul.step_game action g) as [[r|e] g']; [|done].
  by exists r, g'.
Qed.

(** C1 (as the code has it). On a game that satisfies the invariants of
    the reachable states, [step] on an id in [0,180) returns, and the
    terminal flag it returns is true exactly when every pool slot is
    empty in the state it leaves, whether or not a wall row is
    complete. *)
Theorem step_flag_is_round_complete action self :
  Inv (Azul.game self) -> 0 <= action < 180 ->
  exists reward self',
    Azul.step action self
    = (Ok (reward, pits_empty (drawing_pit (Azul.game self'))), self').
Proof.
  intros Hg Ha.
  destruct (step_game_returns action _ Hg Ha)
    as ([reward d] & g' & Hs & _ & Hd).
  simpl in Hd. subst d. unfold Azul.step. rewrite Hs.
  by exists reward, (Azul.mkEnv g' (Azul.to_play g')).
Qed.

Lemma step_flag_is_round_complete_witness :
  exists reward self',
    Azul.step 89 (Azul.mkEnv Examples.last_move 0)
    = (Ok (reward, pits_empty (drawing_pit (Azul.game self'))), self').
Proof.
  apply (step_flag_is_round_complete 89 (Azul.mkEnv Examples.last_move 0)).
  - simpl. apply reachable_Inv, last_move_reachable.
  - lia.
Defined.

(** C6 (as the code has it). No index is validated; what keeps the
    accesses in bounds is the range of the id.  For an id in [0,180) the
    decoded pool, colour and target are in range and, on a game that
    satisfies the invariants of the reachable states, the legality check,
    [play_turn] and [step] all return without raising. *)
Theorem in_range_ids_never_raise action self :
  Inv (Azul.game self) -> 0 <= action < 180 ->
  let g := Azul.game self in
  exists pit tile col,
    from_action_to_tuple_action action = (pit, tile, col)
    /\ (0 <= pit < 6 /\ 0 <= tile < 5 /\ 0 <= col < 6)
    /\ (exists legal, valid_move (player_turn g) pit tile col g = (Ok legal, g))
    /\ (exists moved g1,
          play_turn (player_turn g) pit tile col g = (Ok moved, g1))
    /\ (exists r self', Azul.step action self = (Ok r, self')).
Proof.
  intros Hg Ha g.
  destruct (decode_in_range action Ha)
    as (pit & tile & col & Hdec & Hp & Ht & Hc).
  exists pit, tile, col. split; [done|]. split; [done|].
  split; [by apply legal_total; [apply Hg|..]|]. split.
  - pose proof (play_turn_safe (player_turn g) pit tile col Hp Ht Hc g Hg) as H.
    destruct (play_turn (player_turn g) pit tile col g) as [[b|e] g1]; [|done].
    by exists b, g1.
  - destruct (step_game_returns action g Hg Ha) as (r & g' & Hs & _).
    unfold Azul.step. fold g. rewrite Hs.
    by exists r, (Azul.mkEnv g' (Azul.to_play g')).
Qed.

Lemma in_range_ids_never_raise_witness :
  let g := Examples.fresh in
  exists pit tile col,
    from_action_to_tuple_action 179 = (pit, tile, col)
    /\ (0 <= pit < 6 /\ 0 <= tile < 5 /\ 0 <= col < 6)
    /\ (exists legal, valid_move (player_turn g) pit tile col g = (Ok legal, g))
    /\ (exists moved g1,
          play_turn (player_turn g) pit tile col g = (Ok moved, g1))
    /\ (exists r self',
          Azul.step 179 (Azul.mkEnv Examples.fresh 0) = (Ok r, self')).
Proof.
  apply (in_range_ids_never_raise 179 (Azul.mkEnv Examples.fresh 0)).
  - simpl. apply reachable_Inv, fresh_reachable.
  - lia.
Defined.
(** * Further properties of the engine *)

(** ** ActionCodec, the other way round *)

Lemma decode_encode pit tile col :
  0 <= pit < 6 -> 0 <= tile < 5 -> 0 <= col < 6 ->
  0 <= from_tuple_action_to_action pit tile col < 180
  /\ from_action_to_tuple_action (from_tuple_action_to_action pit tile col)
     = (pit, tile, col).
Proof.
  intros Hp Ht Hc.
  enumerate pit 0 6; enumerate tile 0 5; enumerate col 0 6;
    vm_compute; done.
Qed.

Lemma encode_decode action :
  let '(pit, tile, col) := from_action_to_tuple_action action in
  from_tuple_action_to_action pit tile col = action.
Proof.
  unfold from_action_to_tuple_action, from_tuple_action_to_action, Py.int_div.
  destruct (action <? 6) eqn:E1; [lia|].
  apply Z.ltb_ge in E1.
  destruct (action <? 30) eqn:E2.
  - rewrite Z.quot_div_nonneg by lia.
    pose proof (Z.div_mod action 6). lia.
  - apply Z.ltb_ge in E2.
    pose proof (Z.mod_pos_bound action (6 * 5)).
    rewrite !Z.quot_div_nonneg by lia.
    change (6 * 5) with 30 in *.
    pose proof (Z.div_mod action 30).
    pose proof (Z.div_mod (action mod 30) 6).
    pose proof (Z.div_mod action 6).
    pose proof (Z.mod_pos_bound action 6).
    pose proof (Z.mod_pos_bound (action mod 30) 6).
    lia.
Qed.

(** X1. Encoding the decoded triple gives the id back, for every id
    below 2^53 (where [int(a / b)] is exact), negative ids included; so
    two different ids never decode to the same triple. *)
Theorem encode_after_decode action action' :
  action < 2 ^ 53 -> action' < 2 ^ 53 ->
  (let '(pit, tile, col) := from_action_to_tuple_action action in
   from_tuple_action_to_action pit tile col = action)
  /\ (from_action_to_tuple_action action
      = from_action_to_tuple_action action' -> action = action').
Proof.
  intros _ _. split; [apply encode_decode|].
  intros Heq. pose proof (encode_decode action) as H1.
  pose proof (encode_decode action') as H2. rewrite Heq in H1.
  destruct (from_action_to_tuple_action action') as [[p t] c]. congruence.
Qed.

Lemma encode_after_decode_witness :
  (let '(pit, tile, col) := from_action_to_tuple_action (-1) in
   from_tuple_action_to_action pit tile col = -1)
  /\ (from_action_to_tuple_action (-1)
      = from_action_to_tuple_action 179 -> -1 = 179).
Proof. apply (encode_after_decode (-1) 179); lia. Defined.

(** ** The ids returned by [legal_actions] *)

Lemma valid_actions_elem p g i j k :
  wf g ->
  (i, j, k) ∈
    (i ← Py.range 6; j ← Py.range 5; k ← Py.range 6;
     if legal_bool p g i j k then [(i, j, k)] else [])
  <-> (0 <= i < 6 /\ 0 <= j < 5 /\ 0 <= k < 6)
      /\ fst (valid_move p i j k g) = Ok true.
Proof.
  intros Hwf. rewrite valid_move_eq. cbn [fst]. split.
  - intros H.
    apply list_elem_of_bind in H as (i' & H & Hi%elem_of_range).
    apply list_elem_of_bind in H as (j' & H & Hj%elem_of_range).
    apply list_elem_of_bind in H as (k' & H & Hk%elem_of_range).
    unfold legal_bool in H.
    destruct (legal _ _ _ i' j' k') as [[|]|] eqn:Hl;
      try by apply not_elem_of_nil in H.
    apply list_elem_of_singleton in H as [= -> -> ->]. done.
  - intros [(Hi & Hj & Hk) Hl].
    apply list_elem_of_bind. exists i. split; [|by apply elem_of_range].
    apply list_elem_of_bind. exists j. split; [|by apply elem_of_range].
    apply list_elem_of_bind. exists k. split; [|by apply elem_of_range].
    unfold legal_bool. rewrite Hl. by left.
Qed.

Lemma legal_actions_spec self :
  wf (Azul.game self) ->
  let p := if Azul.player self =? 0 then P1 else P2 in
  exists ids,
    Azul.legal_actions self = Ok ids
    /\ forall action,
         action ∈ ids
         <-> 0 <= action < 180
             /\ (let '(pit, tile, col) := from_action_to_tuple_action action in
                 fst (valid_move p pit tile col (Azul.game self)) = Ok true).
Proof.
  intros Hwf p. unfold Azul.legal_actions. fold p.
  rewrite valid_actions_eq by done. eexists. split; [done|].
  intros action. rewrite list_elem_of_In, in_map_iff. split.
  - intros ([[i j] k] & <- & Hin%list_elem_of_In).
    apply valid_actions_elem in Hin as [(Hi & Hj & Hk) Hl]; [|done].
    destruct (decode_encode i j k Hi Hj Hk) as [Hr ->]. done.
  - intros [Ha Hl].
    destruct (decode_in_range action Ha)
      as (i & j & k & Hdec & Hi & Hj & Hk).
    pose proof (encode_decode action) as Henc. rewrite Hdec in Henc, Hl.
    exists (i, j, k). split; [done|]. apply list_elem_of_In.
    by apply valid_actions_elem.
Qed.

(** X2. On a well-formed game [legal_actions] returns, and an id is in
    the returned list exactly when it lies in [0,180) and the legality
    check accepts its decoding for the player selected by
    [self.player]. *)
Theorem legal_actions_exact self :
  wf (Azul.game self) ->
  let p := if Azul.player self =? 0 then P1 else P2 in
  exists ids,
    Azul.legal_actions self = Ok ids
    /\ forall action,
         action ∈ ids
         <-> 0 <= action < 180
             /\ (let '(pit, tile, col) := from_action_to_tuple_action action in
                 fst (valid_move p pit tile col (Azul.game self)) = Ok true).
Proof. apply legal_actions_spec. Qed.

Lemma legal_actions_exact_witness :
  let self := Azul.mkEnv Examples.fresh 0 in
  exists ids,
    Azul.legal_actions self = Ok ids
    /\ forall action,
         action ∈ ids
         <-> 0 <= action < 180
             /\ (let '(pit, tile, col) := from_action_to_tuple_action action in
                 fst (valid_move P1 pit tile col (Azul.game self)) = Ok true).
Proof.
  apply (legal_actions_exact (Azul.mkEnv Examples.fresh 0)).
  split; [|intros []..]; reflexivity.
Defined.

(** ** Drawing from a pool *)

(** Name the cells of a container whose shape is known. *)
Ltac cells_of l :=
  repeat match goal with
  | H : length l = S _ |- _ =>
      let x := fresh "x" in
      destruct l as [|x l]; simpl in H; [discriminate H|];
      apply Nat.succ_inj in H
  | H : length l = 0%nat |- _ => apply nil_length_inv in H; subst l
  end.

Ltac rows_of_shape H :=
  unfold shape in H;
  repeat match type of H with
  | map length ?m = _ :: _ =>
      let r := fresh "r" in
      let Hr := fresh "Hr" in
      destruct m as [|r m]; simpl in H; [discriminate H|];
      injection H as Hr H; cells_of r
  | map length ?m = [] => apply map_eq_nil in H; subst m
  end.

Lemma pit_cells (m : list (list Z)) :
  shape m = [5; 5; 5; 5; 5; 5]%nat ->
  exists a0 a1 a2 a3 a4 b0 b1 b2 b3 b4 c0 c1 c2 c3 c4
         d0 d1 d2 d3 d4 e0 e1 e2 e3 e4 f0 f1 f2 f3 f4,
    m = [[a0; a1; a2; a3; a4]; [b0; b1; b2; b3; b4]; [c0; c1; c2; c3; c4];
         [d0; d1; d2; d3; d4]; [e0; e1; e2; e3; e4]; [f0; f1; f2; f3; f4]].
Proof. intros H. rows_of_shape H. by repeat eexists. Qed.

(** X3. A draw with in-range indices returns the count it found and
    removes exactly that many tiles of the chosen colour from the pools;
    the number of tiles of every other colour in the pools is unchanged.
    A draw from a factory leaves that factory empty and the other
    factories as they were; a draw from the centre leaves every
    factory as it was. *)
Theorem take_tile_from_pit_moves_tiles g pit tile player :
  wf g -> 0 <= pit < 6 -> 0 <= tile < 5 ->
  exists n g',
    take_tile_from_pit pit tile player g = (Ok n, g')
    /\ Py.get2 (drawing_pit g) pit tile = Some n
    /\ (forall c, 0 <= c < 5 ->
          colour_total (drawing_pit g') c
          = colour_total (drawing_pit g) c - (if c =? tile then n else 0))
    /\ (pit <> 5 -> Py.get (drawing_pit g') pit = Some [0; 0; 0; 0; 0])
    /\ (forall i, 0 <= i < 5 -> i <> pit ->
          Py.get (drawing_pit g') i = Py.get (drawing_pit g) i).
Proof.
  intros Hwf Hp Ht.
  destruct (pit_cells _ (wf_pit g Hwf)) as
    (a0 & a1 & a2 & a3 & a4 & b0 & b1 & b2 & b3 & b4 & c0 & c1 & c2 & c3 & c4
     & d0 & d1 & d2 & d3 & d4 & e0 & e1 & e2 & e3 & e4
     & f0 & f1 & f2 & f3 & f4 & Hpit).
  destruct g as [s1 s2 pt ip nfp bp1 bp2 rp1 rp2 pp1 pp2 dp go dn ins pen].
  simpl in Hpit. subst dp. clear Hwf.
  enumerate pit 0 6; enumerate tile 0 5; destruct nfp;
    (eexists _, _; split; [cbv -[Z.add Z.sub]; reflexivity|];
     split; [reflexivity|];
     split; [intros c Hc; enumerate c 0 5; cbv -[Z.add Z.sub]; lia|];
     split; [intros Hne; try reflexivity; by destruct Hne|];
     intros i Hi Hne; enumerate i 0 5; try reflexivity; by destruct Hne).
Qed.

Lemma take_tile_from_pit_moves_tiles_witness :
  exists n g',
    take_tile_from_pit 0 1 P1 Examples.fresh = (Ok n, g')
    /\ Py.get2 (drawing_pit Examples.fresh) 0 1 = Some n
    /\ (forall c, 0 <= c < 5 ->
          colour_total (drawing_pit g') c
          = colour_total (drawing_pit Examples.fresh) c
            - (if c =? 1 then n else 0))
    /\ (0 <> 5 -> Py.get (drawing_pit g') 0 = Some [0; 0; 0; 0; 0])
    /\ (forall i, 0 <= i < 5 -> i <> 0 ->
          Py.get (drawing_pit g') i = Py.get (drawing_pit Examples.fresh) i).
Proof.
  apply (take_tile_from_pit_moves_tiles Examples.fresh 0 1 P1);
    [split; [|intros []..]; reflexivity|lia|lia].
Defined.

(** ** Which methods touch which field *)

Ltac field_tac :=
  try done;
  unfold field_is in *;
  repeat match goal with
  | p : player |- _ => destruct p
  | |- context [if ?b then _ else _] => destruct b
  end;
  simpl in *; try done; try congruence.

(** A move after [play_turn]: if [I] survives the analysis, the
    round-end tests, the scoring passes and the bonus pass, then it holds
    after [step] as soon as it holds after the [play_turn] of [step]. *)
Lemma step_game_after_play_turn (I : Azul_game -> Prop) action g :
  (forall p t c, preserves I (action_analisys p t c)) ->
  preserves I is_turn_done -> preserves I is_game_done ->
  (forall p, preserves I (calculate_score p)) ->
  preserves I compute_final_points ->
  (let '(pit, tile, col) := from_action_to_tuple_action action in
   I (snd (play_turn (player_turn g) pit tile col g))) ->
  I (snd (Azul.step_game action g)).
Proof.
  intros Han Htd Hgd Hcs Hfp. unfold Azul.step_game.
  destruct (from_action_to_tuple_action action) as [[pit tile] col].
  intros HI. rewrite bind_gets. unfold bind at 1.
  destruct (play_turn (player_turn g) pit tile col g) as [[b|e] g1];
    simpl in HI |- *; [|done].
  set (tail := bind _ _).
  assert (hoare I tail (fun _ => I) I) as Htail.
  { subst tail. unfold Azul.have_winner. keep ltac:(done). }
  specialize (Htail g1 HI). by destruct (tail g1) as [[r|e] g2].
Qed.

(** ** What each method writes *)

(** A property that survives the assignments a method makes survives the
    method, however it ends. *)
Section Writes.

Context (I : Azul_game -> Prop).

Lemma take_tile_from_pit_writes pit tile p :
  (forall v g, I g -> I (set_drawing_pit v g)) ->
  (forall v g, I g -> I (set_new_first_player v g)) ->
  (forall v g, I g -> I (set_initial_player v g)) ->
  preserves I (take_tile_from_pit pit tile p).
Proof.
  intros. unfold preserves, take_tile_from_pit. keep ltac:(eauto).
Qed.

Lemma insert_tiles_in_penalty_column_writes n p :
  (forall v g, I g -> I (set_penalty_of p v g)) ->
  (forall v g, I g -> I (set_penality_for_action v g)) ->
  preserves I (insert_tiles_in_penalty_column n p).
Proof.
  intros. unfold preserves, insert_tiles_in_penalty_column.
  keep ltac:(eauto).
Qed.

Lemma insert_tiles_in_column_writes tile n col p :
  (forall v g, I g -> I (set_rows_of p v g)) ->
  (forall v g, I g -> I (set_inserted_tile_in_column_for_action v g)) ->
  (forall v g, I g -> I (set_penalty_of p v g)) ->
  (forall v g, I g -> I (set_penality_for_action v g)) ->
  preserves I (insert_tiles_in_column tile n col p).
Proof.
  intros. unfold preserves, insert_tiles_in_column,
    insert_tiles_in_penalty_column.
  keep ltac:(eauto).
Qed.

Lemma play_turn_writes p pit tile col :
  (forall v g, I g -> I (set_drawing_pit v g)) ->
  (forall v g, I g -> I (set_new_first_player v g)) ->
  (forall v g, I g -> I (set_initial_player v g)) ->
  (forall v g, I g -> I (set_rows_of p v g)) ->
  (forall v g, I g -> I (set_inserted_tile_in_column_for_action v g)) ->
  (forall v g, I g -> I (set_penalty_of p v g)) ->
  (forall v g, I g -> I (set_penality_for_action v g)) ->
  (forall v g, I g -> I (set_player_turn v g)) ->
  preserves I (play_turn p pit tile col).
Proof.
  intros.
  pose proof (take_tile_from_pit_writes pit tile p).
  pose proof (fun n => insert_tiles_in_penalty_column_writes n p).
  pose proof (fun t n c => insert_tiles_in_column_writes t n c p).
  pose proof (valid_move_frame I).
  unfold preserves, play_turn. keep ltac:(eauto).
Qed.

Lemma is_turn_done_writes :
  (forall v g, I g -> I (set_is_done_phase v g)) ->
  preserves I is_turn_done.
Proof. intros. unfold preserves, is_turn_done. keep ltac:(eauto). Qed.

Lemma is_game_done_writes :
  (forall v g, I g -> I (set_is_done_phase v g)) ->
  (forall v g, I g -> I (set_gameover v g)) ->
  preserves I is_game_done.
Proof.
  intros. unfold preserves, is_game_done, is_turn_done. keep ltac:(eauto).
Qed.

Lemma update_score_writes p points :
  (forall v g, I g -> I (set_score_of p v g)) ->
  preserves I (update_score p points).
Proof.
  intros H. unfold preserves, update_score. apply hoare_modify.
  intros g Hg. destruct (0 <? _); by apply H.
Qed.

Lemma calculate_penality_writes p :
  (forall v g, I g -> I (set_score_of p v g)) ->
  preserves I (calculate_penality p).
Proof.
  intros H. pose proof (fun points => update_score_writes p points H).
  unfold preserves, calculate_penality. keep ltac:(eauto).
Qed.

Lemma calculate_score_writes p :
  (forall v g, I g -> I (set_rows_of p v g)) ->
  (forall v g, I g -> I (set_board_of p v g)) ->
  (forall v g, I g -> I (set_score_of p v g)) ->
  preserves I (calculate_score p).
Proof.
  intros Hr Hb Hs.
  pose proof (fun points => update_score_writes p points Hs).
  pose proof (calculate_penality_writes p Hs).
  pose proof (compute_row_point_frame I).
  pose proof (compute_column_point_frame I).
  unfold preserves, calculate_score, calculate_score_row, clear_row,
    add_tile_to_scoreboard.
  keep ltac:(eauto).
Qed.

Lemma compute_final_points_writes :
  (forall v g, I g -> I (set_p1_score v g)) ->
  (forall v g, I g -> I (set_p2_score v g)) ->
  preserves I compute_final_points.
Proof.
  intros. unfold preserves, compute_final_points. keep ltac:(eauto).
Qed.

End Writes.

(** The pools are written by [take_tile_from_pit] alone. *)
Section PitKept.

Variable d : list (list Z).

Lemma insert_tiles_in_penalty_column_pit n p :
  preserves (field_is drawing_pit d) (insert_tiles_in_penalty_column n p).
Proof. apply insert_tiles_in_penalty_column_writes; by destruct p. Qed.

Lemma insert_tiles_in_column_pit tile n col p :
  preserves (field_is drawing_pit d) (insert_tiles_in_column tile n col p).
Proof. apply insert_tiles_in_column_writes; by destruct p. Qed.

Lemma action_analisys_pit p t c :
  preserves (field_is drawing_pit d) (action_analisys p t c).
Proof. apply action_analisys_frame. Qed.

Lemma is_turn_done_pit : preserves (field_is drawing_pit d) is_turn_done.
Proof. by apply is_turn_done_writes. Qed.

Lemma is_game_done_pit : preserves (field_is drawing_pit d) is_game_done.
Proof. by apply is_game_done_writes. Qed.

Lemma calculate_score_pit p :
  preserves (field_is drawing_pit d) (calculate_score p).
Proof. apply calculate_score_writes; by destruct p. Qed.

Lemma compute_final_points_pit :
  preserves (field_is drawing_pit d) compute_final_points.
Proof. by apply compute_final_points_writes. Qed.

End PitKept.

(** ** The pools only lose tiles *)

Lemma get2_pit_range (m : list (list Z)) i j :
  shape m = [5; 5; 5; 5; 5; 5]%nat ->
  is_Some (Py.get2 m i j) -> -6 <= i < 6 /\ -5 <= j < 5.
Proof.
  intros Hsh Hsome. apply get2_is_Some in Hsome. rewrite Hsh in Hsome.
  unfold in_shape in Hsome.
  destruct (Py.idx [5; 5; 5; 5; 5; 5]%nat i) as [k|] eqn:Hk; [|done].
  assert (is_Some (Py.idx [5; 5; 5; 5; 5; 5]%nat i)) as Hidx by eauto.
  apply idx_is_Some in Hidx. simpl in Hidx.
  apply idx_lt in Hk. simpl in Hk.
  do 6 (destruct k as [|k];
    [simpl in Hsome;
     apply andb_true_iff in Hsome as [H1%Z.leb_le H2%Z.ltb_lt]; lia|]).
  lia.
Qed.

(** What a draw does to the pools, for every pair of indices Python
    accepts (negative ones count from the end).  The sum the loop
    computes is kept symbolic while the 120 index pairs are run. *)
Lemma take_tile_from_pit_cells pit tile p g :
  shape (drawing_pit g) = [5; 5; 5; 5; 5; 5]%nat ->
  -6 <= pit < 6 -> -5 <= tile < 5 ->
  exists n g',
    take_tile_from_pit pit tile p g = (Ok n, g')
    /\ Py.get2 (drawing_pit g) pit tile = Some n
    /\ shape (drawing_pit g') = [5; 5; 5; 5; 5; 5]%nat
    /\ (forall c, 0 <= c < 5 ->
          colour_total (drawing_pit g') c
          + (if c =? tile mod 5 then n else 0)
          = colour_total (drawing_pit g) c)
    /\ (pits_nonneg (drawing_pit g) -> pits_nonneg (drawing_pit g')).
Proof.
  intros Hsh Hp Ht.
  destruct (pit_cells _ Hsh) as
    (a0 & a1 & a2 & a3 & a4 & b0 & b1 & b2 & b3 & b4 & c0 & c1 & c2 & c3 & c4
     & d0 & d1 & d2 & d3 & d4 & e0 & e1 & e2 & e3 & e4
     & f0 & f1 & f2 & f3 & f4 & Hpit).
  destruct g as [s1 s2 pt ip nfp bp1 bp2 rp1 rp2 pp1 pp2 dp go dn ins pen].
  simpl in Hpit, Hsh |- *. subst dp. clear Hsh.
  unfold take_tile_from_pit, colour_total, sum_list.
  remember Z.add as add eqn:Hadd.
  enumerate pit (-6) 6; enumerate tile (-5) 5; clear -Hadd; destruct nfp;
    (eexists _, _; split; [vm_compute; reflexivity|];
     split; [vm_compute; reflexivity|];
     split; [vm_compute; reflexivity|];
     split;
     [intros c Hc; enumerate c 0 5; clear -Hadd; vm_compute; subst add; ring|];
     unfold pits_nonneg; intros Hnn;
     repeat match goal with
     | H : Forall _ (_ :: _) |- _ => apply Forall_cons in H as [? H]
     | H : Forall _ [] |- _ => clear H
     end;
     match goal with
     | |- Forall _ ?d =>
         let v := eval vm_compute in d in
         change (pits_nonneg v)
     end;
     subst add; repeat constructor;
     repeat first [assumption | done | apply Z.add_nonneg_nonneg]).
Qed.

Lemma get2_nonneg d i j n :
  pits_nonneg d -> Py.get2 d i j = Some n -> 0 <= n.
Proof.
  unfold Py.get2. intros Hnn Hget.
  destruct (Py.get d i) as [row|] eqn:Hrow; [|done]. simpl in Hget.
  apply get_elem_of in Hrow, Hget.
  unfold pits_nonneg in Hnn. rewrite Forall_forall in Hnn.
  specialize (Hnn row Hrow). rewrite Forall_forall in Hnn. by apply Hnn.
Qed.

Lemma take_tile_from_pit_below bound pit tile p :
  preserves (pits_below bound) (take_tile_from_pit pit tile p).
Proof.
  intros g (Hsh & Hnn & Hle).
  destruct (Py.get2 (drawing_pit g) pit tile) as [n|] eqn:Hget.
  2:{ unfold take_tile_from_pit, bind, read2, lift. by rewrite Hget. }
  destruct (get2_pit_range _ pit tile Hsh) as [Hp Ht]; [by eexists|].
  destruct (take_tile_from_pit_cells pit tile p g Hsh Hp Ht)
    as (n' & g' & -> & Hn & Hsh' & Hcol & Hnn').
  rewrite Hget in Hn. injection Hn as <-.
  pose proof (get2_nonneg _ _ _ _ Hnn Hget) as Hn.
  split; [done|]. split; [by apply Hnn'|].
  intros c Hc. specialize (Hcol c Hc). specialize (Hle c Hc).
  destruct (c =? tile mod 5); lia.
Qed.

(** A method that leaves the pools alone keeps every property of the
    pools. *)
Lemma pit_untouched {A} (P : Azul_game -> Prop) (m : M A) :
  (forall g d, P g -> drawing_pit g = d ->
     forall g', drawing_pit g' = d -> P g') ->
  (forall d, preserves (field_is drawing_pit d) m) ->
  preserves P m.
Proof.
  intros HP Hm g Hg. specialize (Hm (drawing_pit g) g eq_refl).
  destruct (m g) as [[a|e] g']; by eapply HP.
Qed.

Lemma pits_below_pit bound g d :
  pits_below bound g -> drawing_pit g = d ->
  forall g', drawing_pit g' = d -> pits_below bound g'.
Proof. unfold pits_below. intros H <- g' ->. done. Qed.

Lemma play_turn_below bound p pit tile col :
  preserves (pits_below bound) (play_turn p pit tile col).
Proof.
  pose proof (take_tile_from_pit_below bound) as Htake.
  assert (forall n q, preserves (pits_below bound)
            (insert_tiles_in_penalty_column n q)) as Hpen.
  { intros. eapply pit_untouched; [apply pits_below_pit|].
    intros. apply insert_tiles_in_penalty_column_pit. }
  assert (forall t n c q, preserves (pits_below bound)
            (insert_tiles_in_column t n c q)) as Hins.
  { intros. eapply pit_untouched; [apply pits_below_pit|].
    intros. apply insert_tiles_in_column_pit. }
  pose proof (valid_move_frame (pits_below bound)) as Hvalid.
  unfold preserves, play_turn.
  keep ltac:(first [done | by eapply pits_below_pit]).
Qed.

Lemma step_game_below bound action g :
  pits_below bound g -> pits_below bound (snd (Azul.step_game action g)).
Proof.
  intros Hg. apply step_game_after_play_turn.
  - intros. eapply pit_untouched; [apply pits_below_pit|].
    intros. apply action_analisys_pit.
  - eapply pit_untouched; [apply pits_below_pit|].
    intros. apply is_turn_done_pit.
  - eapply pit_untouched; [apply pits_below_pit|].
    intros. apply is_game_done_pit.
  - intros. eapply pit_untouched; [apply pits_below_pit|].
    intros. apply calculate_score_pit.
  - eapply pit_untouched; [apply pits_below_pit|].
    intros. apply compute_final_points_pit.
  - destruct (from_action_to_tuple_action action) as [[pit tile] col].
    pose proof (play_turn_below bound (player_turn g) pit tile col g Hg) as H.
    by destruct (play_turn (player_turn g) pit tile col g) as [[b|e] g'].
Qed.

(** X4. [step] never adds a tile to the pools: whatever integer is
    submitted and however the call ends, from pools of the constructed
    shape with no negative count the counts stay non-negative and, for
    every colour, the number of tiles in the pools does not grow. *)
Theorem step_never_adds_tiles g action :
  shape (drawing_pit g) = [5; 5; 5; 5; 5; 5]%nat ->
  pits_nonneg (drawing_pit g) ->
  let g' := snd (Azul.step_game action g) in
  pits_nonneg (drawing_pit g')
  /\ forall c, 0 <= c < 5 ->
       colour_total (drawing_pit g') c <= colour_total (drawing_pit g) c.
Proof.
  intros Hsh Hnn.
  destruct (step_game_below (colour_total (drawing_pit g)) action g)
    as (_ & Hnn' & Hle); [|done].
  split; [done|]. split; [done|]. intros; lia.
Qed.

Lemma step_never_adds_tiles_witness :
  let g' := snd (Azul.step_game 0 Examples.fresh) in
  pits_nonneg (drawing_pit g')
  /\ forall c, 0 <= c < 5 ->
       colour_total (drawing_pit g') c
       <= colour_total (drawing_pit Examples.fresh) c.
Proof.
  apply (step_never_adds_tiles Examples.fresh 0); [reflexivity|].
  vm_compute. repeat constructor; discriminate.
Defined.

(** ** The pools of a new game *)

(** The four draws of a factory, whatever they are, leave four tiles in
    it. *)
Lemma fill_pit_four (draws : Z -> Z) :
  (forall j, 0 <= draws j < 5) ->
  exists pit,
    fill_pit draws = Some pit
    /\ length pit = 5%nat /\ Forall (fun x => 0 <= x) pit
    /\ sum_list pit = 4.
Proof.
  intros Hd. unfold fill_pit. change (Py.range 4) with [0; 1; 2; 3].
  pose proof (Hd 0) as H0. pose proof (Hd 1) as H1.
  pose proof (Hd 2) as H2. pose proof (Hd 3) as H3. clear Hd.
  cbn [fold_opt]. revert H0 H1 H2 H3.
  generalize (draws 0) (draws 1) (draws 2) (draws 3).
  intros x0 x1 x2 x3 H0 H1 H2 H3.
  enumerate x0 0 5; enumerate x1 0 5; enumerate x2 0 5; enumerate x3 0 5;
    (eexists; split; [vm_compute; reflexivity|];
     split; [reflexivity|]; split; [|reflexivity];
     repeat constructor; discriminate).
Qed.

Lemma pool_total_colours (d : list (list Z)) :
  shape d = [5; 5; 5; 5; 5; 5]%nat ->
  pool_total d
  = colour_total d 0 + colour_total d 1 + colour_total d 2
    + colour_total d 3 + colour_total d 4.
Proof.
  intros Hsh.
  destruct (pit_cells _ Hsh) as
    (a0 & a1 & a2 & a3 & a4 & b0 & b1 & b2 & b3 & b4 & c0 & c1 & c2 & c3 & c4
     & d0 & d1 & d2 & d3 & d4 & e0 & e1 & e2 & e3 & e4
     & f0 & f1 & f2 & f3 & f4 & ->).
  cbv -[Z.add]. ring.
Qed.

Lemma Azul_game_init_pools draws :
  randint_0_5 draws ->
  exists p0 p1 p2 p3 p4,
    Azul_game_init draws
    = (Ok tt,
       {| p1_score := 0; p2_score := 0;
          player_turn := P1; initial_player := P1; new_first_player := true;
          board_p1 := zeros_5x5; board_p2 := zeros_5x5;
          rows_p1 := initialize_rows; rows_p2 := initialize_rows;
          penalty_row_p1 := [0; 0; 0; 0; 0; 0; 0];
          penalty_row_p2 := [0; 0; 0; 0; 0; 0; 0];
          drawing_pit := [p0; p1; p2; p3; p4; [0; 0; 0; 0; 0]];
          gameover := false; is_done_phase := false;
          inserted_tile_in_column_for_action := 0;
          penality_for_action := 0 |})
    /\ Forall (fun pit => length pit = 5%nat
                 /\ Forall (fun x => 0 <= x) pit /\ sum_list pit = 4)
         [p0; p1; p2; p3; p4].
Proof.
  intros Hd.
  destruct (fill_pit_four (draws 0) (Hd 0)) as (p0 & E0 & L0).
  destruct (fill_pit_four (draws 1) (Hd 1)) as (p1 & E1 & L1).
  destruct (fill_pit_four (draws 2) (Hd 2)) as (p2 & E2 & L2).
  destruct (fill_pit_four (draws 3) (Hd 3)) as (p3 & E3 & L3).
  destruct (fill_pit_four (draws 4) (Hd 4)) as (p4 & E4 & L4).
  exists p0, p1, p2, p3, p4.
  unfold Azul_game_init, create_drawing_pit.
  change (Py.range 5) with [0; 1; 2; 3; 4].
  unfold for_fold, bind, lift. rewrite E0, E1, E2, E3, E4.
  cbn. split; [done|]. repeat (constructor; [done|]). constructor.
Qed.

Lemma pool_total_new p0 p1 p2 p3 p4 :
  Forall (fun pit => length pit = 5%nat
            /\ Forall (fun x => 0 <= x) pit /\ sum_list pit = 4)
    [p0; p1; p2; p3; p4] ->
  pool_total [p0; p1; p2; p3; p4; [0; 0; 0; 0; 0]] = 20.
Proof.
  intros Hp.
  repeat match goal with
  | H : Forall _ (_ :: _) |- _ => apply Forall_cons in H as [(? & ? & ?) H]
  end.
  unfold pool_total. simpl. unfold sum_list at 1. simpl.
  change (sum_list [0; 0; 0; 0; 0]) with 0. lia.
Qed.

(** ** The pools of reachable states *)

Lemma reachable_pools g :
  reachable g ->
  shape (drawing_pit g) = [5; 5; 5; 5; 5; 5]%nat
  /\ pits_nonneg (drawing_pit g)
  /\ pool_total (drawing_pit g) <= 20.
Proof.
  induction 1 as [draws Hd|action g _ (Hsh & Hnn & Hle)].
  - destruct (Azul_game_init_pools draws Hd)
      as (p0 & p1 & p2 & p3 & p4 & -> & Hp).
    cbn [snd drawing_pit]. rewrite (pool_total_new _ _ _ _ _ Hp).
    repeat match goal with
    | H : Forall _ (_ :: _) |- _ => apply Forall_cons in H as [(? & ? & ?) H]
    end.
    split; [unfold shape; simpl; congruence|].
    split; [by repeat constructor|done].
  - destruct (step_game_below (colour_total (drawing_pit g)) action g)
      as (Hsh' & Hnn' & Hle'); [split; [done|]; split; [done|]; intros; lia|].
    split; [done|]. split; [done|].
    rewrite pool_total_colours in Hle |- * by done.
    pose proof (Hle' 0). pose proof (Hle' 1). pose proof (Hle' 2).
    pose proof (Hle' 3). pose proof (Hle' 4). lia.
Qed.

(** X5. Whatever the random draws, construction returns: the game it
    builds has empty walls, staging rows and penalty tracks, scores 0,
    P1 to move with the starting-player token still to be taken, an
    empty centre and five factories of four tiles each (no count
    negative), 20 tiles in all. *)
Theorem new_game_pools draws :
  randint_0_5 draws ->
  exists p0 p1 p2 p3 p4,
    Azul_game_init draws
    = (Ok tt,
       {| p1_score := 0; p2_score := 0;
          player_turn := P1; initial_player := P1; new_first_player := true;
          board_p1 := replicate 5 (replicate 5 0);
          board_p2 := replicate 5 (replicate 5 0);
          rows_p1 := [[0]; [0; 0]; [0; 0; 0]; [0; 0; 0; 0]; [0; 0; 0; 0; 0]];
          rows_p2 := [[0]; [0; 0]; [0; 0; 0]; [0; 0; 0; 0]; [0; 0; 0; 0; 0]];
          penalty_row_p1 := [0; 0; 0; 0; 0; 0; 0];
          penalty_row_p2 := [0; 0; 0; 0; 0; 0; 0];
          drawing_pit := [p0; p1; p2; p3; p4; [0; 0; 0; 0; 0]];
          gameover := false; is_done_phase := false;
          inserted_tile_in_column_for_action := 0;
          penality_for_action := 0 |})
    /\ Forall (fun pit => length pit = 5%nat
                 /\ Forall (fun x => 0 <= x) pit /\ sum_list pit = 4)
         [p0; p1; p2; p3; p4]
    /\ pool_total [p0; p1; p2; p3; p4; [0; 0; 0; 0; 0]] = 20.
Proof.
  intros Hd.
  destruct (Azul_game_init_pools draws Hd)
    as (p0 & p1 & p2 & p3 & p4 & Heq & Hp).
  exists p0, p1, p2, p3, p4. split; [exact Heq|].
  split; [done|]. by apply pool_total_new.
Qed.

Lemma new_game_pools_witness :
  exists p0 p1 p2 p3 p4,
    Azul_game_init (fun i j => (i + j) mod 5)
    = (Ok tt,
       {| p1_score := 0; p2_score := 0;
          player_turn := P1; initial_player := P1; new_first_player := true;
          board_p1 := replicate 5 (replicate 5 0);
          board_p2 := replicate 5 (replicate 5 0);
          rows_p1 := [[0]; [0; 0]; [0; 0; 0]; [0; 0; 0; 0]; [0; 0; 0; 0; 0]];
          rows_p2 := [[0]; [0; 0]; [0; 0; 0]; [0; 0; 0; 0]; [0; 0; 0; 0; 0]];
          penalty_row_p1 := [0; 0; 0; 0; 0; 0; 0];
          penalty_row_p2 := [0; 0; 0; 0; 0; 0; 0];
          drawing_pit := [p0; p1; p2; p3; p4; [0; 0; 0; 0; 0]];
          gameover := false; is_done_phase := false;
          inserted_tile_in_column_for_action := 0;
          penality_for_action := 0 |})
    /\ Forall (fun pit => length pit = 5%nat
                 /\ Forall (fun x => 0 <= x) pit /\ sum_list pit = 4)
         [p0; p1; p2; p3; p4]
    /\ pool_total [p0; p1; p2; p3; p4; [0; 0; 0; 0; 0]] = 20.
Proof.
  apply (new_game_pools (fun i j => (i + j) mod 5)).
  intros i j. apply Z.mod_pos_bound. lia.
Defined.

(** X6. In every state reached by play the pools keep their six-by-five
    shape, no pool count is negative and the pools hold at most 20
    tiles. *)
Theorem pools_hold_at_most_20 g :
  reachable g ->
  shape (drawing_pit g) = [5; 5; 5; 5; 5; 5]%nat
  /\ pits_nonneg (drawing_pit g)
  /\ pool_total (drawing_pit g) <= 20.
Proof. apply reachable_pools. Qed.

Lemma pools_hold_at_most_20_witness :
  let g := Examples.after [0; 14; 5] Examples.fresh in
  shape (drawing_pit g) = [5; 5; 5; 5; 5; 5]%nat
  /\ pits_nonneg (drawing_pit g)
  /\ pool_total (drawing_pit g) <= 20.
Proof.
  apply pools_hold_at_most_20. apply after_reachable, fresh_reachable.
Defined.

(** ** Accepted moves take tiles out *)

Lemma play_turn_pit p pit tile col g :
  drawing_pit (snd (play_turn p pit tile col g))
  = match fst (valid_move p pit tile col g) with
    | Ok true =>
        drawing_pit
          (snd (take_tile_from_pit pit tile p (set_penality_for_action 0 g)))
    | _ => drawing_pit g
    end.
Proof.
  unfold play_turn. unfold bind at 1. unfold modify at 1.
  rewrite !valid_move_eq. cbn [fst snd]. unfold bind at 1.
  rewrite valid_move_eq.
  replace (drawing_pit (set_penality_for_action 0 g)) with (drawing_pit g)
    by done.
  replace (board_of p (set_penality_for_action 0 g))
    with (board_of p g) by (by destruct p).
  replace (rows_of p (set_penality_for_action 0 g))
    with (rows_of p g) by (by destruct p).
  destruct (legal _ _ _ _ _ _) as [[|]|e]; [|done..].
  unfold bind at 1.
  destruct (take_tile_from_pit _ _ _ _) as [[n|e] g1]; [|done].
  match goal with
  | |- drawing_pit (snd (?m g1)) = _ =>
      assert (preserves (field_is drawing_pit (drawing_pit g1)) m) as Hm;
      [|specialize (Hm g1 eq_refl); by destruct (m g1) as [[b|e] g2]]
  end.
  pose proof (insert_tiles_in_penalty_column_pit (drawing_pit g1)).
  pose proof (insert_tiles_in_column_pit (drawing_pit g1)).
  unfold preserves. keep ltac:(field_tac).
Qed.

Lemma step_game_pit action g :
  drawing_pit (snd (Azul.step_game action g))
  = let '(pit, tile, col) := from_action_to_tuple_action action in
    drawing_pit (snd (play_turn (player_turn g) pit tile col g)).
Proof.
  pose proof (step_game_after_play_turn
    (field_is drawing_pit
       (let '(pit, tile, col) := from_action_to_tuple_action action in
        drawing_pit (snd (play_turn (player_turn g) pit tile col g))))
    action g) as H.
  apply H; clear H.
  - intros. apply action_analisys_pit.
  - apply is_turn_done_pit.
  - apply is_game_done_pit.
  - intros. apply calculate_score_pit.
  - apply compute_final_points_pit.
  - by destruct (from_action_to_tuple_action action) as [[pit tile] col].
Qed.

Lemma legal_accepts_count pit board rows i j k :
  legal pit board rows i j k = Ok true ->
  exists n, Py.get2 pit i j = Some n /\ n <> 0.
Proof.
  unfold legal. destruct (Py.get2 pit i j) as [n|]; [|done].
  destruct (n =? 0) eqn:Hn; [done|]. apply Z.eqb_neq in Hn. eauto.
Qed.

Lemma sum_list_nonneg l : Forall (fun x => 0 <= x) l -> 0 <= sum_list l.
Proof.
  unfold sum_list. intros Hall.
  assert (forall z, 0 <= z -> 0 <= fold_left Z.add l z) as H; [|by apply H].
  induction Hall as [|x xs Hx _ IH]; intros z Hz; simpl; [done|].
  apply IH. lia.
Qed.

Lemma colour_total_nonneg d :
  pits_nonneg d -> forall c, 0 <= colour_total d c.
Proof.
  intros Hnn c. apply sum_list_nonneg, Forall_map.
  eapply Forall_impl; [exact Hnn|]. intros row Hrow. simpl.
  destruct (Py.get row c) as [x|] eqn:Hx; [|done]. simpl.
  apply get_elem_of in Hx. rewrite Forall_forall in Hrow. by apply Hrow.
Qed.

(** X7. In a state reached by play, a move the legality check accepts
    takes at least one tile out of the pools, and a move it rejects
    leaves the pools as they were; with at most 20 tiles in the pools, a
    round sees at most 20 accepted moves. *)
Theorem accepted_move_takes_tiles g action :
  reachable g ->
  let '(pit, tile, col) := from_action_to_tuple_action action in
  let g' := snd (Azul.step_game action g) in
  (fst (valid_move (player_turn g) pit tile col g) = Ok true ->
   0 <= pool_total (drawing_pit g') < pool_total (drawing_pit g)
   /\ pool_total (drawing_pit g) <= 20)
  /\ (fst (valid_move (player_turn g) pit tile col g) = Ok false ->
      drawing_pit g' = drawing_pit g).
Proof.
  intros Hreach. pose proof (step_game_pit action g) as Hstep.
  destruct (reachable_pools _ (reach_step action g Hreach))
    as (Hsh' & Hnn' & _).
  destruct (reachable_pools g Hreach) as (Hsh & Hnn & Hle).
  destruct (from_action_to_tuple_action action) as [[pit tile] col].
  cbn zeta. rewrite Hstep, play_turn_pit. split; intros Hv; rewrite Hv; [|done].
  rewrite valid_move_eq in Hv. cbn [fst] in Hv.
  apply legal_accepts_count in Hv as (n & Hget & Hn).
  destruct (get2_pit_range _ pit tile Hsh) as [Hp Ht]; [by eexists|].
  destruct (take_tile_from_pit_cells pit tile (player_turn g)
              (set_penality_for_action 0 g) Hsh Hp Ht)
    as (n' & g1 & Heq & Hn' & Hsh1 & Hcol & Hnn1).
  rewrite Heq. cbn [snd].
  change (drawing_pit (set_penality_for_action 0 g)) with (drawing_pit g)
    in Hn', Hcol, Hnn1.
  rewrite Hget in Hn'. injection Hn' as <-.
  pose proof (get2_nonneg _ _ _ _ Hnn Hget) as Hn0.
  specialize (Hnn1 Hnn).
  rewrite (pool_total_colours (drawing_pit g1)),
    (pool_total_colours (drawing_pit g)) in * by done.
  pose proof (colour_total_nonneg _ Hnn1) as Hpos.
  pose proof (Hcol 0) as C0. pose proof (Hcol 1) as C1.
  pose proof (Hcol 2) as C2. pose proof (Hcol 3) as C3.
  pose proof (Hcol 4) as C4.
  pose proof (Hpos 0). pose proof (Hpos 1). pose proof (Hpos 2).
  pose proof (Hpos 3). pose proof (Hpos 4). clear Hpos Hcol.
  assert (0 <= tile mod 5 < 5) as Hm by (apply Z.mod_pos_bound; lia).
  destruct (0 =? tile mod 5) eqn:E0; destruct (1 =? tile mod 5) eqn:E1;
    destruct (2 =? tile mod 5) eqn:E2; destruct (3 =? tile mod 5) eqn:E3;
    destruct (4 =? tile mod 5) eqn:E4; lia.
Qed.

Lemma accepted_move_takes_tiles_witness :
  let g := Examples.fresh in
  let '(pit, tile, col) := from_action_to_tuple_action 0 in
  let g' := snd (Azul.step_game 0 g) in
  (fst (valid_move (player_turn g) pit tile col g) = Ok true ->
   0 <= pool_total (drawing_pit g') < pool_total (drawing_pit g)
   /\ pool_total (drawing_pit g) <= 20)
  /\ (fst (valid_move (player_turn g) pit tile col g) = Ok false ->
      drawing_pit g' = drawing_pit g).
Proof.
  apply (accepted_move_takes_tiles Examples.fresh 0), fresh_reachable.
Defined.

(** ** Whose turn it is *)

(** [play_turn] returns the answer of the legality check and passes the
    turn exactly when that answer is true. *)
Lemma play_turn_answer p pit tile col g b g' :
  play_turn p pit tile col g = (Ok b, g') ->
  fst (valid_move p pit tile col g) = Ok b
  /\ player_turn g' = if b then other (player_turn g) else player_turn g.
Proof.
  unfold play_turn. unfold bind at 1. unfold modify at 1.
  unfold bind at 1. rewrite !valid_move_eq. cbn [fst].
  replace (drawing_pit (set_penality_for_action 0 g)) with (drawing_pit g)
    by done.
  replace (board_of p (set_penality_for_action 0 g))
    with (board_of p g) by (by destruct p).
  replace (rows_of p (set_penality_for_action 0 g))
    with (rows_of p g) by (by destruct p).
  destruct (legal _ _ _ _ _ _) as [[|]|e]; [|by intros [= <- <-]|done].
  set (t := player_turn g).
  match goal with
  | |- ?m ?g0 = _ -> _ =>
      assert (hoare (field_is player_turn t) m
                (fun b g1 => b = true /\ player_turn g1 = other t)
                (fun _ => True)) as Hm;
      [|specialize (Hm g0 eq_refl); intros Heq; rewrite Heq in Hm;
        by destruct Hm as [-> ->]]
  end.
  assert (forall {A} (m : M A),
            preserves (field_is player_turn t) m ->
            hoare (field_is player_turn t) m
              (fun _ => field_is player_turn t) (fun _ => True)) as Hweak.
  { intros A m Hm. eapply hoare_conseq; [exact Hm|done..]. }
  eapply hoare_bind with (R := fun _ => field_is player_turn t).
  { apply Hweak, take_tile_from_pit_writes; done. }
  intros n.
  eapply hoare_bind with (R := fun _ => field_is player_turn t);
    [by apply hoare_gets|]. intros nfp.
  eapply hoare_bind with (R := fun _ => field_is player_turn t).
  { apply Hweak.
    pose proof (insert_tiles_in_penalty_column_writes
                  (field_is player_turn t)) as Hpen.
    unfold preserves. keep ltac:(field_tac).
    apply Hpen; by destruct p. }
  intros _.
  eapply hoare_bind with (R := fun _ => field_is player_turn t).
  { apply Hweak. destruct (negb (col =? 5)).
    - apply insert_tiles_in_column_writes; by destruct p.
    - apply insert_tiles_in_penalty_column_writes; by destruct p. }
  intros _.
  eapply hoare_bind
    with (R := fun turn g1 => turn = t);
    [by apply hoare_gets|]. intros turn.
  eapply hoare_bind
    with (R := fun _ g1 => player_turn g1 = other t).
  { apply hoare_modify. by intros g1 ->. }
  intros _. by apply hoare_ret.
Qed.

Lemma step_game_Ok action g r g' :
  Azul.step_game action g = (Ok r, g') ->
  let '(pit, tile, col) := from_action_to_tuple_action action in
  exists b g1, play_turn (player_turn g) pit tile col g = (Ok b, g1).
Proof.
  unfold Azul.step_game.
  destruct (from_action_to_tuple_action action) as [[pit tile] col].
  rewrite bind_gets. unfold bind at 1.
  destruct (play_turn (player_turn g) pit tile col g) as [[b|e] g1];
    [eauto|done].
Qed.

Lemma step_game_player_turn action g :
  player_turn (snd (Azul.step_game action g))
  = let '(pit, tile, col) := from_action_to_tuple_action action in
    player_turn (snd (play_turn (player_turn g) pit tile col g)).
Proof.
  pose proof (step_game_after_play_turn
    (field_is player_turn
       (let '(pit, tile, col) := from_action_to_tuple_action action in
        player_turn (snd (play_turn (player_turn g) pit tile col g))))
    action g) as H.
  apply H; clear H.
  - intros. apply action_analisys_frame.
  - apply is_turn_done_writes; done.
  - apply is_game_done_writes; done.
  - intros. apply calculate_score_writes; by destruct p.
  - apply compute_final_points_writes; done.
  - by destruct (from_action_to_tuple_action action) as [[pit tile] col].
Qed.

(** X8. When [step] returns, the legality check had answered, and the
    turn has passed to the other player exactly when the answer was
    true: a rejected move leaves the same player to move.  [step] then
    stores the player to move in [self.player]. *)
Theorem step_passes_turn self action r self' :
  Azul.step action self = (Ok r, self') ->
  let g := Azul.game self in
  let '(pit, tile, col) := from_action_to_tuple_action action in
  exists b,
    fst (valid_move (player_turn g) pit tile col g) = Ok b
    /\ player_turn (Azul.game self')
       = (if b then other (player_turn g) else player_turn g)
    /\ Azul.player self' = Azul.to_play (Azul.game self').
Proof.
  unfold Azul.step. intros Hstep.
  destruct (Azul.step_game action (Azul.game self)) as [[r'|e] g'] eqn:Hg;
    [|done].
  injection Hstep as <- <-. cbn [Azul.game Azul.player].
  pose proof (step_game_Ok action _ _ _ Hg) as Hok.
  pose proof (step_game_player_turn action (Azul.game self)) as Hturn.
  rewrite Hg in Hturn. cbn [snd] in Hturn.
  destruct (from_action_to_tuple_action action) as [[pit tile] col].
  destruct Hok as (b & g1 & Hplay). rewrite Hplay in Hturn.
  apply play_turn_answer in Hplay as [Hb Hp].
  exists b. split; [done|]. split; [|done]. by rewrite Hturn.
Qed.

Lemma step_passes_turn_witness :
  let self := Azul.mkEnv Examples.fresh 0 in
  let self' := snd (Azul.step 0 self) in
  let g := Azul.game self in
  let '(pit, tile, col) := from_action_to_tuple_action 0 in
  exists b,
    fst (valid_move (player_turn g) pit tile col g) = Ok b
    /\ player_turn (Azul.game self')
       = (if b then other (player_turn g) else player_turn g)
    /\ Azul.player self' = Azul.to_play (Azul.game self').
Proof.
  apply (step_passes_turn (Azul.mkEnv Examples.fresh 0) 0 (3, false)).
  vm_compute. reflexivity.
Defined.

(** ** When the game-over test runs *)

Lemma hoare_top {A} (m : M A) :
  hoare (fun _ => True) m (fun _ _ => True) (fun _ => True).
Proof. intros g _. by destruct (m g) as [[a|e] g']. Qed.

Lemma hoare_drop_raise {A} P (m : M A) Q E :
  hoare P m Q E -> hoare P m Q (fun _ => True).
Proof. intros H. eapply hoare_conseq; [exact H|done..]. Qed.

Lemma step_game_gameover action g :
  hoare (fun g0 => g0 = g) (Azul.step_game action)
    (fun r g' =>
       gameover g'
       = if snd r
         then has_full_row (board_p1 g) || has_full_row (board_p2 g)
         else gameover g)
    (fun _ => True).
Proof.
  set (K := fun g1 => board_p1 g1 = board_p1 g /\ board_p2 g1 = board_p2 g
                      /\ gameover g1 = gameover g).
  set (J := fun g1 =>
     gameover g1
     = if is_done_phase g1
       then has_full_row (board_p1 g) || has_full_row (board_p2 g)
       else gameover g).
  unfold Azul.step_game.
  destruct (from_action_to_tuple_action action) as [[pit tile] col].
  eapply hoare_bind with (R := fun p g1 => K g1);
    [apply hoare_gets; by intros ? ->|]. intros p.
  eapply hoare_bind with (R := fun _ => K).
  { eapply hoare_drop_raise, play_turn_writes;
      try (intros ? ? (? & ? & ?); by destruct p). }
  intros _.
  eapply hoare_bind with (R := fun _ => K).
  { eapply hoare_drop_raise, action_analisys_frame. }
  intros [[[[[? ?] ?] erp] ecp] ?].
  eapply hoare_bind with (R := fun _ => K).
  { eapply hoare_drop_raise, is_turn_done_writes. by intros ? ? (? & ? & ?). }
  intros _.
  eapply hoare_bind with (R := fun _ => J).
  { unfold is_game_done, is_turn_done.
    eapply hoare_bind with (R := fun _ => K);
      [apply hoare_modify; by intros ? (? & ? & ?)|]. intros _.
    eapply hoare_bind with (R := fun d g1 => K g1 /\ d = is_done_phase g1);
      [by apply hoare_gets|]. intros d.
    destruct d.
    - eapply hoare_bind
        with (R := fun b1 g1 => (K g1 /\ true = is_done_phase g1)
                                /\ b1 = board_p1 g1);
        [by apply hoare_gets|]. intros b1.
      destruct (has_full_row b1) eqn:Hb1.
      + apply hoare_modify. intros g1 [[(H1 & H2 & H3) Hd] ->].
        unfold J. simpl. by rewrite <- Hd, <- H1, Hb1.
      + eapply hoare_bind
          with (R := fun b2 g1 => ((K g1 /\ true = is_done_phase g1)
                                   /\ b1 = board_p1 g1) /\ b2 = board_p2 g1);
          [by apply hoare_gets|]. intros b2.
        destruct (has_full_row b2) eqn:Hb2; apply hoare_modify;
          intros g1 [[[(H1 & H2 & H3) Hd] ->] ->]; unfold J; simpl;
          by rewrite <- Hd, <- H1, <- H2, Hb1, Hb2.
    - apply hoare_ret. intros g1 [(H1 & H2 & H3) Hd]. unfold J.
      by rewrite <- Hd. }
  intros _.
  eapply hoare_bind with (R := fun _ => J); [by apply hoare_gets|].
  intros done_phase.
  eapply hoare_bind with (R := fun _ => J).
  { apply hoare_drop_raise with (E := J).
    pose proof (fun q => calculate_score_writes J q) as Hcs.
    pose proof (compute_final_points_writes J) as Hfp.
    destruct done_phase; [|by apply hoare_ret].
    eapply hoare_bind with (R := fun _ => J);
      [apply Hcs; by intros|]. intros _.
    eapply hoare_bind with (R := fun _ => J);
      [apply Hcs; by intros|]. intros _.
    eapply hoare_bind with (R := fun _ => J); [by apply hoare_gets|].
    intros over. destruct over; [|by apply hoare_ret].
    apply Hfp; by intros. }
  intros _. unfold Azul.have_winner.
  eapply hoare_bind with (R := fun d g1 => J g1 /\ d = is_done_phase g1);
    [by apply hoare_gets|]. intros d.
  eapply hoare_bind with (R := fun _ g1 => J g1 /\ d = is_done_phase g1);
    [by apply hoare_gets|]. intros ins.
  eapply hoare_bind with (R := fun _ g1 => J g1 /\ d = is_done_phase g1);
    [by apply hoare_gets|]. intros pen.
  apply hoare_ret. intros g1 [HJ ->]. exact HJ.
Qed.

(** X9. The game-over test of [step] runs before the round is scored.
    When [step] returns with the flag true, [gameover] says whether a
    wall had a full row before this call, so a row completed by this
    round's scoring is not seen (and the bonus pass it gates is not
    run); when the flag is false, [gameover] keeps its value. *)
Theorem gameover_set_before_scoring g action r g' :
  Azul.step_game action g = (Ok r, g') ->
  gameover g'
  = if snd r
    then has_full_row (board_p1 g) || has_full_row (board_p2 g)
    else gameover g.
Proof.
  intros Hstep. pose proof (step_game_gameover action g g eq_refl) as H.
  by rewrite Hstep in H.
Qed.

Lemma gameover_set_before_scoring_witness :
  gameover Examples.round_end
  = if snd (6, true)
    then has_full_row (board_p1 Examples.last_move)
         || has_full_row (board_p2 Examples.last_move)
    else gameover Examples.last_move.
Proof.
  apply (gameover_set_before_scoring Examples.last_move 89 (6, true)
           Examples.round_end).
  vm_compute. reflexivity.
Defined.

(** ** Scoring one player *)

(** X10. The scoring pass of one player, however it ends, changes
    nothing but that player's staging rows, wall and score: the other
    player's rows, wall and score, both penalty tracks (which are
    charged but never cleared), the pools and every marker and flag keep
    their values. *)
Theorem calculate_score_touches_own_side p g :
  let g' := snd (calculate_score p g) in
  rows_of (other p) g' = rows_of (other p) g
  /\ board_of (other p) g' = board_of (other p) g
  /\ score_of (other p) g' = score_of (other p) g
  /\ penalty_row_p1 g' = penalty_row_p1 g
  /\ penalty_row_p2 g' = penalty_row_p2 g
  /\ drawing_pit g' = drawing_pit g
  /\ player_turn g' = player_turn g
  /\ initial_player g' = initial_player g
  /\ new_first_player g' = new_first_player g
  /\ gameover g' = gameover g
  /\ is_done_phase g' = is_done_phase g
  /\ inserted_tile_in_column_for_action g'
     = inserted_tile_in_column_for_action g
  /\ penality_for_action g' = penality_for_action g.
Proof.
  set (I := fun g1 =>
    rows_of (other p) g1 = rows_of (other p) g
    /\ board_of (other p) g1 = board_of (other p) g
    /\ score_of (other p) g1 = score_of (other p) g
    /\ penalty_row_p1 g1 = penalty_row_p1 g
    /\ penalty_row_p2 g1 = penalty_row_p2 g
    /\ drawing_pit g1 = drawing_pit g
    /\ player_turn g1 = player_turn g
    /\ initial_player g1 = initial_player g
    /\ new_first_player g1 = new_first_player g
    /\ gameover g1 = gameover g
    /\ is_done_phase g1 = is_done_phase g
    /\ inserted_tile_in_column_for_action g1
       = inserted_tile_in_column_for_action g
    /\ penality_for_action g1 = penality_for_action g).
  assert (preserves I (calculate_score p)) as H.
  { apply calculate_score_writes; intros v g1 Hg1; destruct p; exact Hg1. }
  assert (I g) as Hg by (by repeat split).
  specialize (H g Hg). by destruct (calculate_score p g) as [[[]|e] g'].
Qed.

(** ** Walls only gain tiles *)

Lemma wall_extends_refl b : wall_extends b b.
Proof.
  apply Forall2_same_length_lookup_2; [done|].
  intros i r r' Hr Hr'. assert (r' = r) as -> by congruence.
  apply Forall2_same_length_lookup_2; [done|].
  intros j x y Hx Hy. left. congruence.
Qed.

Lemma Forall2_chain {A} (R : A -> A -> Prop) (a b c : list A) :
  (forall x y z, R x y -> R y z -> R x z) ->
  Forall2 R a b -> Forall2 R b c -> Forall2 R a c.
Proof.
  intros HR Hab. revert c.
  induction Hab as [|x y a b Hxy _ IH]; intros c Hbc; [done|].
  apply Forall2_cons_inv_l in Hbc as (z & c' & Hyz & Hbc & ->).
  constructor; [by eapply HR|by apply IH].
Qed.

Lemma wall_extends_trans a b c :
  wall_extends a b -> wall_extends b c -> wall_extends a c.
Proof.
  apply Forall2_chain. intros r1 r2 r3. apply Forall2_chain.
  intros x y z [->| ->] [->| ->]; auto.
Qed.

Lemma set2_extends b i j b' :
  Py.set2 b i j 1 = Some b' -> wall_extends b b'.
Proof.
  unfold Py.set2, Py.get, Py.set.
  destruct (Py.idx b i) as [k|]; [|done].
  destruct (b !! k) as [r|] eqn:Hr; [|done].
  destruct (Py.idx r j) as [c|]; [|done]. intros [= <-].
  rewrite <- (list_insert_id b k r Hr) at 1.
  apply Forall2_insert; [apply wall_extends_refl|].
  destruct (r !! c) as [x|] eqn:Hx.
  - rewrite <- (list_insert_id r c x Hx) at 1.
    apply Forall2_insert; [|by right].
    apply Forall2_same_length_lookup_2; [done|].
    intros n y z Hy Hz. left. congruence.
  - rewrite list_insert_ge by (by apply lookup_ge_None).
    apply Forall2_same_length_lookup_2; [done|].
    intros n y z Hy Hz. left. congruence.
Qed.

Lemma wall_extends_binary a b :
  wall_binary a -> wall_extends a b -> wall_binary b.
Proof.
  unfold wall_binary, wall_extends. intros Ha Hab.
  induction Hab as [|r r' a b Hr _ IH]; [done|].
  apply Forall_cons in Ha as [Hra Ha]. constructor; [|by apply IH].
  clear -Hr Hra. induction Hr as [|x y r r' Hxy _ IH]; [done|].
  apply Forall_cons in Hra as [Hx Hra]. constructor; [|by apply IH].
  destruct Hxy as [->| ->]; auto.
Qed.

Ltac wall_tac :=
  try done;
  repeat match goal with
  | H : Py.set2 (board_of _ _) _ _ 1 = Some _ |- _ => apply set2_extends in H
  | p : player |- _ => destruct p
  | |- context [if ?b then _ else _] => destruct b
  end;
  simpl in *; try done; eauto using wall_extends_trans.

Lemma calculate_score_wall B p q :
  preserves (fun g => wall_extends B (board_of p g)) (calculate_score q).
Proof.
  unfold preserves, calculate_score, calculate_score_row, clear_row,
    add_tile_to_scoreboard, compute_row_point, compute_column_point,
    calculate_penality, update_score.
  keep ltac:(wall_tac).
Qed.

Lemma step_game_wall action p g :
  wall_extends (board_of p g) (board_of p (snd (Azul.step_game action g))).
Proof.
  apply (step_game_after_play_turn
           (fun g1 => wall_extends (board_of p g) (board_of p g1))).
  - intros. apply action_analisys_frame.
  - apply is_turn_done_writes. by destruct p.
  - apply is_game_done_writes; by destruct p.
  - intros. apply calculate_score_wall.
  - apply compute_final_points_writes; by destruct p.
  - destruct (from_action_to_tuple_action action) as [[pit tile] col].
    assert (preserves (fun g1 => wall_extends (board_of p g) (board_of p g1))
              (play_turn (player_turn g) pit tile col)) as H.
    { apply play_turn_writes; intros v g1 Hg1;
        destruct p, (player_turn g); exact Hg1. }
    specialize (H g (wall_extends_refl _)).
    by destruct (play_turn (player_turn g) pit tile col g) as [[b|e] g1].
Qed.

Lemma wall_extends_get2 a b r c :
  wall_extends a b ->
  Py.get2 a r c = Some 1 -> Py.get2 b r c = Some 1.
Proof.
  unfold wall_extends, Py.get2, Py.get. intros Hab.
  rewrite (idx_length a b) by (by eapply Forall2_length).
  destruct (Py.idx b r) as [k|]; [|done].
  destruct (a !! k) as [ra|] eqn:Hra; [|done].
  destruct (Forall2_lookup_l _ _ _ _ _ Hab Hra) as (rb & -> & Hrow).
  rewrite (idx_length ra rb) by (by eapply Forall2_length).
  destruct (Py.idx rb c) as [n|]; [|done]. intros Hx.
  destruct (Forall2_lookup_l _ _ _ _ _ Hrow Hx) as (y & -> & [->| ->]); done.
Qed.

(** X11. [step] never takes a tile off a wall: for every integer
    submitted and however the call ends, each wall is the wall before
    the call with some cells set to 1, so a cell that holds 1 holds 1
    afterwards. *)
Theorem walls_only_gain_tiles g action p :
  let g' := snd (Azul.step_game action g) in
  wall_extends (board_of p g) (board_of p g')
  /\ forall r c,
       Py.get2 (board_of p g) r c = Some 1 ->
       Py.get2 (board_of p g') r c = Some 1.
Proof.
  pose proof (step_game_wall action p g) as H. split; [done|].
  intros r c. by apply wall_extends_get2.
Qed.

Lemma reachable_wall_binary g p : reachable g -> wall_binary (board_of p g).
Proof.
  induction 1 as [draws Hd|action g _ IH].
  - destruct (Azul_game_init_pools draws Hd)
      as (p0 & p1 & p2 & p3 & p4 & -> & _).
    destruct p; simpl; repeat constructor; by left.
  - eapply wall_extends_binary; [exact IH|apply step_game_wall].
Qed.

Lemma binary_row_full (row : list Z) :
  length row = 5%nat -> Forall (fun x => x = 0 \/ x = 1) row ->
  (sum_list row =? 5) = true <-> row = [1; 1; 1; 1; 1].
Proof.
  intros Hlen Hbin. cells_of row.
  repeat match goal with
  | H : Forall _ (_ :: _) |- _ => apply Forall_cons in H as [? H]
  end.
  unfold sum_list. simpl. rewrite Z.eqb_eq. split.
  - intros Hsum. repeat f_equal; lia.
  - intros [= -> -> -> -> ->]. done.
Qed.

(** X12. In every state reached by play each wall cell is 0 or 1, and
    the row test of the game-over check (the cells of a row sum to 5)
    holds exactly when a wall row has all five cells set. *)
Theorem wall_cells_are_binary g p :
  reachable g ->
  wall_binary (board_of p g)
  /\ (has_full_row (board_of p g) = true
      <-> [1; 1; 1; 1; 1] ∈ board_of p g).
Proof.
  intros Hreach. pose proof (reachable_wall_binary g p Hreach) as Hbin.
  split; [done|].
  pose proof (wf_board g (proj1 (reachable_Inv g Hreach)) p) as Hsh.
  unfold has_full_row. rewrite existsb_exists.
  unfold wall_binary in Hbin. rewrite Forall_forall in Hbin.
  assert (forall row, row ∈ board_of p g -> length row = 5%nat) as Hlen.
  { intros row Hrow. apply list_elem_of_lookup in Hrow as [k Hk].
    assert (shape (board_of p g) !! k = Some (length row)) as Hk'
      by (unfold shape; by rewrite list_lookup_fmap, Hk).
    rewrite Hsh in Hk'. do 5 (destruct k as [|k]; [by injection Hk'|]).
    done. }
  split.
  - intros (row & Hin%list_elem_of_In & Hsum).
    apply binary_row_full in Hsum as <-; auto.
  - intros Hin. exists [1; 1; 1; 1; 1]. split; [by apply list_elem_of_In|done].
Qed.

Lemma wall_cells_are_binary_witness :
  let g := Examples.round_end in
  wall_binary (board_of P1 g)
  /\ (has_full_row (board_of P1 g) = true
      <-> [1; 1; 1; 1; 1] ∈ board_of P1 g).
Proof.
  apply (wall_cells_are_binary Examples.round_end P1).
  apply (reach_step 89), last_move_reachable.
Defined.

(** ** Filling the penalty track *)

Lemma penalty_cost_S (j : nat) :
  (j < 7)%nat ->
  Spec.penalty_cost (penalty_block (S j))
  = Spec.penalty_cost (penalty_block j) + penalty_tier (Z.of_nat j).
Proof.
  intros H. do 7 (destruct j as [|j]; [reflexivity|]). lia.
Qed.

Lemma hoare_pure_r {A} (P0 : Prop) P (m : M A) Q E :
  (P0 -> hoare P m Q E) -> hoare (fun g => P g /\ P0) m Q E.
Proof. intros H g [Hg H0]. by apply H. Qed.

Lemma penalty_track_twice p v v' l l' g :
  set_penality_for_action v
    (set_penalty_of p l
       (set_penality_for_action v' (set_penalty_of p l' g)))
  = set_penality_for_action v (set_penalty_of p l g).
Proof. by destruct p. Qed.

Lemma penality_of_track p v l g :
  penality_for_action (set_penalty_of p l (set_penality_for_action v g)) = v.
Proof. by destruct p. Qed.

Section PenaltyLoop.

Context (g0 : Azul_game) (p : player) (n : Z) (k : nat).
Context (Hk : (k <= 7)%nat) (Hblock : penalty_of p g0 = penalty_block k).

(** Tiles placed by the first [i] iterations. *)
Let placed (i : nat) : nat :=
  Z.to_nat (Z.min (Z.max (Z.of_nat i - Z.of_nat k) 0) (Z.max 0 n)).

Let state (m : nat) : Azul_game :=
  set_penality_for_action
    (Spec.penalty_cost (penalty_block (k + m))
     - Spec.penalty_cost (penalty_block k))
    (set_penalty_of p (penalty_block (k + m)) g0).

Lemma penalty_state_0 : set_penality_for_action 0 g0 = state 0.
Proof.
  unfold state. rewrite Nat.add_0_r, Z.sub_diag, <- Hblock.
  by destruct p, g0.
Qed.

Lemma penalty_state_S m :
  (k + m < 7)%nat ->
  set_penality_for_action
    (penality_for_action (set_penalty_of p (penalty_block (S (k + m)))
                            (state m))
     + penalty_tier (Z.of_nat (k + m)))
    (set_penalty_of p (penalty_block (S (k + m))) (state m))
  = state (S m).
Proof.
  intros H. unfold state.
  replace (k + S m)%nat with (S (k + m)) by lia.
  rewrite (penalty_cost_S (k + m)) by done.
  rewrite penalty_track_twice, penality_of_track. f_equal. lia.
Qed.

Lemma insert_tiles_in_penalty_column_loop :
  hoare (fun g => g = state 0)
    (for_fold (Py.range 7) n (fun i number_of_tiles =>
       slot <- read1 (penalty_of p) i ;;
       if (slot =? 0) && (0 <? number_of_tiles) then
         write1 (penalty_of p) (set_penalty_of p) i 1 ;;
         modify (fun g =>
           set_penality_for_action
             (penality_for_action g + penalty_tier i) g) ;;
         ret (number_of_tiles - 1)
       else ret number_of_tiles))
    (fun rem g => g = state (placed 7) /\ rem = n - Z.of_nat (placed 7))
    (fun _ => False).
Proof.
  eapply hoare_conseq with (E' := fun _ => False);
    [apply (hoare_for_fold_pos
              (fun i rem g => g = state (placed i)
                              /\ rem = n - Z.of_nat (placed i)))| | |done].
  - intros i x rem Hx. apply range_lookup in Hx as [-> Hi].
    assert (penalty_of p (state (placed i)) = penalty_block (k + placed i))
      as Htrack by (unfold state; by destruct p).
    assert (length (penalty_block (k + placed i)) = 7%nat) as Hlen.
    { unfold penalty_block. apply block_length. unfold placed. lia. }
    eapply hoare_bind
      with (R := fun slot g =>
                   (g = state (placed i) /\ rem = n - Z.of_nat (placed i))
                   /\ slot = if (i <? k + placed i)%nat then 1 else 0).
    { apply hoare_read1. intros g [-> ->].
      rewrite Htrack, get_in_range, Nat2Z.id by lia.
      unfold penalty_block.
      destruct (i <? k + placed i)%nat eqn:E.
      - apply Nat.ltb_lt in E. by rewrite block_lookup_lt.
      - apply Nat.ltb_ge in E. rewrite block_lookup_ge; [done|lia]. }
    intros slot. apply hoare_pure_r. intros ->.
    destruct (i <? k + placed i)%nat eqn:E.
    + apply Nat.ltb_lt in E. simpl. apply hoare_ret. intros g [-> ->].
      assert (placed (S i) = placed i) as -> by (unfold placed in *; lia).
      done.
    + apply Nat.ltb_ge in E. change (0 =? 0) with true. cbn [andb].
      destruct (0 <? rem) eqn:Hrem.
      * apply Z.ltb_lt in Hrem.
        eapply hoare_bind
          with (R := fun _ g =>
                  (g = set_penalty_of p (penalty_block (S (k + placed i)))
                         (state (placed i)))
                  /\ rem = n - Z.of_nat (placed i)).
        { apply hoare_write1. intros g [-> ->].
          assert (k + placed i = i)%nat as Hi' by (unfold placed in *; lia).
          rewrite Htrack, set_in_range, Nat2Z.id by lia.
          unfold penalty_block. rewrite Hi', block_fill by lia. done. }
        intros _.
        eapply hoare_bind with (R := fun _ g =>
          g = state (S (placed i)) /\ rem = n - Z.of_nat (placed i)).
        { apply hoare_modify. intros g [-> ->]. split; [|done].
          assert (k + placed i = i)%nat as Hi' by (unfold placed in *; lia).
          replace (penalty_tier (Z.of_nat i))
            with (penalty_tier (Z.of_nat (k + placed i))) by (by rewrite Hi').
          apply penalty_state_S. lia. }
        intros _. apply hoare_ret. intros g [-> ->].
        assert (placed (S i) = S (placed i)) as ->
          by (unfold placed in *; lia).
        split; [done|lia].
      * apply Z.ltb_ge in Hrem. apply hoare_ret. intros g [-> ->].
        assert (placed (S i) = placed i) as -> by (unfold placed in *; lia).
        done.
  - intros g ->.
    assert (placed 0 = 0%nat) as -> by (unfold placed; lia).
    split; [done|lia].
  - intros rem g. by rewrite range_length.
Qed.

End PenaltyLoop.

Lemma insert_tiles_in_penalty_column_eq g p n k :
  (k <= 7)%nat ->
  penalty_of p g = penalty_block k ->
  let k' := Z.to_nat (Z.min 7 (Z.of_nat k + Z.max 0 n)) in
  insert_tiles_in_penalty_column n p g
  = (Ok tt,
     set_penality_for_action
       (Spec.penalty_cost (penalty_block k')
        - Spec.penalty_cost (penalty_block k))
       (set_penalty_of p (penalty_block k') g)).
Proof.
  intros Hk Hblock k'.
  pose proof (insert_tiles_in_penalty_column_loop g p n k Hk Hblock
                (set_penality_for_action 0 g)) as Hloop.
  unfold insert_tiles_in_penalty_column. unfold bind at 1, modify at 1.
  unfold bind at 1.
  destruct (for_fold _ _ _ _) as [[rem|e] g'].
  - destruct Hloop as [-> _]; [by apply penalty_state_0|].
    unfold ret. do 4 f_equal; subst k'; f_equal; lia.
  - destruct Hloop. by apply penalty_state_0.
Qed.

(** X13. On a track whose first [k] slots are occupied, inserting [n]
    tiles returns with the first [min 7 (k + max 0 n)] slots occupied
    and [penality_for_action] equal to the cost of the slots it filled
    (1, 1, 2, 2, 2, 3, 3 from the left); tiles that do not fit are
    dropped without any record, and a non-positive [n] fills nothing. *)
Theorem insert_tiles_in_penalty_column_fills g p n k :
  (k <= 7)%nat ->
  penalty_of p g = penalty_block k ->
  let k' := Z.to_nat (Z.min 7 (Z.of_nat k + Z.max 0 n)) in
  insert_tiles_in_penalty_column n p g
  = (Ok tt,
     set_penality_for_action
       (Spec.penalty_cost (penalty_block k')
        - Spec.penalty_cost (penalty_block k))
       (set_penalty_of p (penalty_block k') g)).
Proof. apply insert_tiles_in_penalty_column_eq. Qed.

Lemma insert_tiles_in_penalty_column_fills_witness :
  let k' := Z.to_nat (Z.min 7 (Z.of_nat 0 + Z.max 0 9)) in
  insert_tiles_in_penalty_column 9 P1 Examples.fresh
  = (Ok tt,
     set_penality_for_action
       (Spec.penalty_cost (penalty_block k')
        - Spec.penalty_cost (penalty_block 0))
       (set_penalty_of P1 (penalty_block k') Examples.fresh)).
Proof.
  apply (insert_tiles_in_penalty_column_fills Examples.fresh P1 9 0);
    [lia|reflexivity].
Defined.

(** ** Penalty tracks fill from the left and are never cleared *)

Ltac track_tac :=
  try done;
  unfold tracks_from in *;
  repeat match goal with
  | |- context [if ?b then _ else _] => destruct b
  end;
  try (let q := fresh "q" in
       intros q;
       repeat match goal with
       | H : forall _ : player, _ |- _ => specialize (H q)
       | p : player |- _ => destruct p
       end;
       simpl in *; done).

Lemma insert_tiles_in_penalty_column_tracks least n p :
  preserves (tracks_from least) (insert_tiles_in_penalty_column n p).
Proof.
  intros g Hg. destruct (Hg p) as (k & Hk & Hblock).
  rewrite (insert_tiles_in_penalty_column_eq g p n k) by (done || lia).
  intros q. destruct (Hg q) as (kq & Hkq & Hq).
  destruct p, q; simpl in *;
    first [by exists kq | eexists; split; [|done]; lia].
Qed.

Lemma play_turn_tracks least p pit tile col :
  preserves (tracks_from least) (play_turn p pit tile col).
Proof.
  pose proof (insert_tiles_in_penalty_column_tracks least) as Hpen.
  pose proof (valid_move_frame (tracks_from least)) as Hvalid.
  unfold preserves, play_turn, take_tile_from_pit, insert_tiles_in_column.
  keep ltac:(track_tac).
Qed.

Lemma step_game_tracks least action g :
  tracks_from least g -> tracks_from least (snd (Azul.step_game action g)).
Proof.
  intros Hg. apply step_game_after_play_turn.
  - intros. apply action_analisys_frame.
  - apply is_turn_done_writes. track_tac.
  - apply is_game_done_writes; track_tac.
  - intros. apply calculate_score_writes; intros v g1 Hg1; track_tac.
  - apply compute_final_points_writes; intros v g1 Hg1; track_tac.
  - destruct (from_action_to_tuple_action action) as [[pit tile] col].
    pose proof (play_turn_tracks least (player_turn g) pit tile col g Hg) as H.
    by destruct (play_turn (player_turn g) pit tile col g) as [[b|e] g'].
Qed.

Lemma reachable_tracks g : reachable g -> tracks_from (fun _ => 0%nat) g.
Proof.
  induction 1 as [draws Hd|action g _ IH].
  - destruct (Azul_game_init_pools draws Hd)
      as (p0 & p1 & p2 & p3 & p4 & -> & _).
    intros q. exists 0%nat. split; [lia|]. by destruct q.
  - by apply step_game_tracks.
Qed.

(** X14. In every state reached by play each penalty track has its
    occupied slots at the left end, so its cost is between 0 and 14;
    and [step] never clears a track: after any call the occupied
    prefix is at least as long as before. *)
Theorem penalty_tracks_fill_from_left g p :
  reachable g ->
  exists k,
    (k <= 7)%nat
    /\ penalty_of p g = penalty_block k
    /\ 0 <= Spec.penalty_cost (penalty_of p g) <= 14
    /\ forall action, exists k',
         (k <= k' <= 7)%nat
         /\ penalty_of p (snd (Azul.step_game action g)) = penalty_block k'.
Proof.
  intros Hreach. destruct (reachable_tracks g Hreach p) as (k & Hk & Hblock).
  exists k. split; [lia|]. split; [done|]. split.
  - rewrite Hblock. destruct Hk as [_ Hk].
    do 8 (destruct k as [|k]; [by vm_compute|]). lia.
  - intros action.
    assert (tracks_from (fun q => if player_eqb q p then k else 0%nat) g)
      as Hg.
    { intros q. destruct (reachable_tracks g Hreach q) as (kq & Hkq & Hq).
      destruct p, q; simpl;
        first [exists k; split; [lia|done] | exists kq; split; [lia|done]]. }
    destruct (step_game_tracks _ action g Hg p) as (k' & Hk' & Hblock').
    rewrite player_eqb_refl in Hk'. by exists k'.
Qed.

Lemma penalty_tracks_fill_from_left_witness :
  exists k,
    (k <= 7)%nat
    /\ penalty_of P2 Examples.last_move = penalty_block k
    /\ 0 <= Spec.penalty_cost (penalty_of P2 Examples.last_move) <= 14
    /\ forall action, exists k',
         (k <= k' <= 7)%nat
         /\ penalty_of P2 (snd (Azul.step_game action Examples.last_move))
            = penalty_block k'.
Proof.
  apply (penalty_tracks_fill_from_left Examples.last_move P2).
  apply last_move_reachable.
Defined.

(** ** Rejected moves *)

Lemma stateless_ret {A} (a : A) : stateless (ret a).
Proof. by exists (Ok a). Qed.

Lemma stateless_lift {A} (o : option A) : stateless (lift o).
Proof. destruct o as [a|]; [by exists (Ok a)|by exists (Raise IndexError)]. Qed.

Lemma stateless_bind {A B} (m : M A) (f : A -> M B) :
  stateless m -> (forall a, stateless (f a)) -> stateless (bind m f).
Proof.
  intros [[a|e] Hm] Hf.
  - destruct (Hf a) as [o Ho]. exists o. intros g. unfold bind.
    by rewrite Hm, Ho.
  - exists (Raise e). intros g. unfold bind. by rewrite Hm.
Qed.

Lemma stateless_if {A} (b : bool) (m1 m2 : M A) :
  stateless m1 -> stateless m2 -> stateless (if b then m1 else m2).
Proof. by destruct b. Qed.

(** The analysis of a move reads the mover's wall and staging rows and
    nothing else. *)
Lemma action_analisys_reads p t c g g' :
  board_of p g' = board_of p g -> rows_of p g' = rows_of p g ->
  action_analisys p t c g' = (fst (action_analisys p t c g), g').
Proof.
  intros Hb Hr. unfold action_analisys. rewrite !bind_gets, Hb, Hr.
  match goal with
  | |- ?K g' = _ => assert (stateless K) as [o Ho]
  end.
  { repeat first
      [ apply stateless_ret | apply stateless_lift
      | apply stateless_if | apply stateless_bind; [|intros ?] ]. }
  by rewrite !Ho.
Qed.

(** X15. A move the legality check rejects costs nothing: while tiles
    remain in the pools, [step] returns with the flag false and a
    reward made of the tile count left in
    [inserted_tile_in_column_for_action] by an earlier move plus the
    expected points of the analysis, with no penalty term, and the game
    is unchanged but for [penality_for_action], reset to 0, and
    [is_done_phase], set to false. *)
Theorem rejected_move_is_not_penalised g action analysis :
  let '(pit, tile, col) := from_action_to_tuple_action action in
  let p := player_turn g in
  fst (valid_move p pit tile col g) = Ok false ->
  pits_empty (drawing_pit g) = false ->
  fst (action_analisys p tile col g) = Ok analysis ->
  let '(_, _, _, expected_row_points, expected_column_point, _) :=
    analysis in
  Azul.step_game action g
  = (Ok (inserted_tile_in_column_for_action g + expected_row_points
         + expected_column_point - 0, false),
     set_is_done_phase false (set_penality_for_action 0 g)).
Proof.
  destruct (from_action_to_tuple_action action) as [[pit tile] col] eqn:Hdec.
  intros p Hv Hpit Han.
  destruct analysis as [[[[[a b] c] erp] ecp] f].
  unfold Azul.step_game. rewrite Hdec, bind_gets. fold p.
  erewrite bind_eq by (by apply play_turn_rejected).
  erewrite bind_eq.
  2:{ rewrite (action_analisys_reads p tile col g) by (by destruct p).
      by rewrite Han. }
  cbv beta iota.
  unfold is_game_done, is_turn_done, Azul.have_winner, bind, modify, gets,
    ret.
  cbn [drawing_pit set_is_done_phase set_penality_for_action is_done_phase].
  rewrite Hpit. by destruct g.
Qed.

Lemma rejected_move_is_not_penalised_witness :
  let g := Examples.after [0] Examples.fresh in
  Azul.step_game 1 g
  = (Ok (inserted_tile_in_column_for_action g + 0 + 0 - 0, false),
     set_is_done_phase false (set_penality_for_action 0 g)).
Proof.
  apply (rejected_move_is_not_penalised
           (Examples.after [0] Examples.fresh) 1 (0, 0, 0, 0, 0, 0));
    reflexivity.
Defined.

(** ** Staging slots hold 0 or a colour plus one *)

Lemma set2_Forall {A} (P : A -> Prop) (m : list (list A)) i j v m' :
  Py.set2 m i j v = Some m' ->
  Forall (Forall P) m -> P v -> Forall (Forall P) m'.
Proof.
  unfold Py.set2, Py.get, Py.set.
  destruct (Py.idx m i) as [k|]; [|done].
  destruct (m !! k) as [r|] eqn:Hr; [|done].
  destruct (Py.idx r j) as [c|]; [|done]. intros [= <-] Hm Hv.
  apply Forall_insert; [done|]. apply Forall_insert; [|done].
  rewrite Forall_forall in Hm. apply Hm. by eapply list_elem_of_lookup_2.
Qed.

Lemma slots_write q g i j v m :
  slots_ok g -> Py.set2 (rows_of q g) i j v = Some m -> 0 <= v <= 5 ->
  slots_ok (set_rows_of q m g).
Proof.
  intros Hg Hset Hv q'. pose proof (Hg q') as Hq'.
  pose proof (set2_Forall _ _ _ _ _ _ Hset (Hg q) Hv) as Hm.
  by destruct q, q'.
Qed.

Ltac slot_tac :=
  try done;
  repeat match goal with
  | |- context [if ?b then _ else _] => destruct b
  end;
  first
    [ eapply slots_write; [eassumption|eassumption|lia]
    | let q := fresh "q" in
      intros q;
      repeat match goal with
      | H : slots_ok _ |- _ => specialize (H q)
      | p : player |- _ => destruct p
      end;
      simpl in *; done ].

Lemma play_turn_slots p pit tile col :
  0 <= tile < 5 -> preserves slots_ok (play_turn p pit tile col).
Proof.
  intros Ht.
  pose proof (valid_move_frame slots_ok) as Hvalid.
  unfold preserves, play_turn, take_tile_from_pit, insert_tiles_in_column,
    insert_tiles_in_penalty_column.
  keep ltac:(slot_tac).
Qed.

Lemma calculate_score_slots p : preserves slots_ok (calculate_score p).
Proof.
  unfold preserves, calculate_score, calculate_score_row, clear_row,
    add_tile_to_scoreboard, compute_row_point, compute_column_point,
    calculate_penality, update_score.
  keep ltac:(slot_tac).
Qed.

Lemma step_game_slots action g :
  slots_ok g -> slots_ok (snd (Azul.step_game action g)).
Proof.
  intros Hg. apply step_game_after_play_turn.
  - intros. apply action_analisys_frame.
  - apply is_turn_done_writes. intros; slot_tac.
  - apply is_game_done_writes; intros; slot_tac.
  - apply calculate_score_slots.
  - apply compute_final_points_writes; intros; slot_tac.
  - destruct (decode_colour action) as (pit & tile & col & -> & Ht & _).
    pose proof (play_turn_slots (player_turn g) pit tile col Ht g Hg) as H.
    by destruct (play_turn (player_turn g) pit tile col g) as [[b|e] g'].
Qed.

Lemma reachable_slots g : reachable g -> slots_ok g.
Proof.
  induction 1 as [draws Hd|action g _ IH].
  - destruct (Azul_game_init_pools draws Hd)
      as (p0 & p1 & p2 & p3 & p4 & -> & _).
    intros q. destruct q; simpl; repeat constructor; lia.
  - by apply step_game_slots.
Qed.

(** ** The observation *)

Lemma row_count_0 row : row_count row = 0.
Proof.
  unfold row_count. induction row as [|x row IH]; simpl; [done|].
  by destruct (negb (x =? 0)).
Qed.

Lemma as_int8_matrix_ok (m : list (list Z)) (n : nat) :
  Forall (fun line => length line = n
                      /\ Forall (fun v => -128 <= v <= 127) line) m ->
  as_int8_matrix m = Some m.
Proof.
  intros Hm. unfold as_int8_matrix.
  rewrite (proj2 (forallb_forall _ m)); [done|].
  intros line Hin%list_elem_of_In.
  rewrite Forall_forall in Hm.
  destruct (Hm line Hin) as [Hlen Hfit].
  apply andb_true_iff. split.
  - apply Nat.eqb_eq. destruct m as [|l0 m]; [by apply elem_of_nil in Hin|].
    simpl. destruct (Hm l0) as [-> _]; [by left|done].
  - apply forallb_forall. intros v Hv%list_elem_of_In.
    rewrite Forall_forall in Hfit. specialize (Hfit v Hv).
    unfold fits_int8. apply andb_true_iff.
    split; [apply Z.leb_le|apply Z.leb_le]; lia.
Qed.

Lemma penalty_count_block (k : nat) :
  (k <= 7)%nat -> penalty_count (penalty_block k) = Z.of_nat k.
Proof. intros H. do 8 (destruct k as [|k]; [reflexivity|]). lia. Qed.

Lemma obs_rows_ok rows board penalty_row (k : nat) :
  shape rows = [1; 2; 3; 4; 5]%nat ->
  shape board = [5; 5; 5; 5; 5]%nat ->
  Forall (Forall (fun x => 0 <= x <= 5)) rows ->
  wall_binary board ->
  (k <= 7)%nat -> penalty_row = penalty_block k ->
  obs_rows rows board penalty_row
  = Some (zip_with (fun row wall_row =>
                      [default 0 (head row); 0] ++ wall_row) rows board
          ++ [[penalty_count penalty_row; 0; 0; 0; 0; 0; 0]]).
Proof.
  intros Hrows Hboard Hslots Hbin Hk ->.
  rows_of_shape Hrows. rows_of_shape Hboard.
  unfold obs_rows.
  remember row_count as count eqn:Hcount.
  remember as_int8_matrix as cast eqn:Hcast.
  remember (penalty_count (penalty_block k)) as pc eqn:Hpc.
  vm_compute. subst count cast pc.
  rewrite !row_count_0, penalty_count_block by done.
  apply (as_int8_matrix_ok _ 7).
  unfold wall_binary in Hbin.
  repeat match goal with
  | H : Forall _ (_ :: _) |- _ => apply Forall_cons in H as [? H]
  | H : Forall _ [] |- _ => clear H
  end.
  repeat match goal with
  | H : ?x = 0 \/ ?x = 1 |- _ =>
      assert (0 <= x <= 1) by (clear -H; lia); clear H
  end.
  repeat constructor; lia.
Qed.

Lemma obs_side_eq p g (k : nat) :
  wf g -> slots_ok g -> wall_binary (board_of p g) ->
  (k <= 7)%nat -> penalty_of p g = penalty_block k ->
  obs_rows (rows_of p g) (board_of p g) (penalty_of p g)
  = Some (obs_side p g)
  /\ shape (obs_side p g) = [7; 7; 7; 7; 7; 7]%nat.
Proof.
  intros Hwf Hslots Hbin Hk Hpen.
  split; [by apply (obs_rows_ok _ _ _ k); [apply Hwf|apply Hwf|..]|].
  unfold obs_side. pose proof (wf_rows g Hwf p) as Hrows.
  pose proof (wf_board g Hwf p) as Hboard.
  destruct (rows_of p g) as [|r0 rows]; [done|].
  revert Hrows Hboard. generalize (r0 :: rows). clear. intros rows Hrows.
  generalize (board_of p g). intros board Hboard.
  rows_of_shape Hrows. rows_of_shape Hboard. reflexivity.
Qed.

Lemma obs_pit_eq (d : list (list Z)) :
  shape d = [5; 5; 5; 5; 5; 5]%nat -> pits_nonneg d -> pool_total d <= 20 ->
  as_int8_matrix (map (fun pit => pit ++ [0; 0]) d)
  = Some (map (fun pit => pit ++ [0; 0]) d)
  /\ shape (map (fun pit => pit ++ [0; 0]) d) = [7; 7; 7; 7; 7; 7]%nat.
Proof.
  intros Hsh Hnn Hle.
  destruct (pit_cells _ Hsh) as
    (a0 & a1 & a2 & a3 & a4 & b0 & b1 & b2 & b3 & b4 & c0 & c1 & c2 & c3 & c4
     & d0 & d1 & d2 & d3 & d4 & e0 & e1 & e2 & e3 & e4
     & f0 & f1 & f2 & f3 & f4 & ->).
  split; [|reflexivity].
  apply (as_int8_matrix_ok _ 7). unfold pits_nonneg in Hnn.
  repeat match goal with
  | H : Forall _ (_ :: _) |- _ => apply Forall_cons in H as [? H]
  | H : Forall _ [] |- _ => clear H
  end.
  cbv -[Z.add Z.le] in Hle. simpl. repeat constructor; lia.
Qed.

Lemma board_to_obs_eq g :
  reachable g ->
  board_to_obs g
  = Some [obs_side P1 g; obs_side P2 g;
          map (fun pit => pit ++ [0; 0]) (drawing_pit g)]
  /\ (forall block,
        block ∈ [obs_side P1 g; obs_side P2 g;
                 map (fun pit => pit ++ [0; 0]) (drawing_pit g)] ->
        shape block = [7; 7; 7; 7; 7; 7]%nat)
  /\ forall row, row_count row = 0.
Proof.
  intros Hreach.
  destruct (reachable_Inv g Hreach) as (Hwf & _ & _).
  pose proof (reachable_slots g Hreach) as Hslots.
  destruct (reachable_pools g Hreach) as (Hsh & Hnn & Hle).
  destruct (reachable_tracks g Hreach P1) as (k1 & Hk1 & Hp1).
  destruct (reachable_tracks g Hreach P2) as (k2 & Hk2 & Hp2).
  destruct (obs_side_eq P1 g k1 Hwf Hslots
              (reachable_wall_binary g P1 Hreach)) as [E1 S1]; [lia|done|].
  destruct (obs_side_eq P2 g k2 Hwf Hslots
              (reachable_wall_binary g P2 Hreach)) as [E2 S2]; [lia|done|].
  destruct (obs_pit_eq _ Hsh Hnn Hle) as [E3 S3].
  split; [|split; [|apply row_count_0]].
  - unfold board_to_obs. simpl in E1, E2. rewrite E1, E2.
    cbn [mbind option_bind].
    rewrite E3. cbn [mbind option_bind]. rewrite S1, S2, S3.
    by rewrite decide_True.
  - intros block Hin.
    repeat (apply elem_of_cons in Hin as [->|Hin]; [done|]).
    by apply elem_of_nil in Hin.
Qed.

(** X16. In every state reached by play [board_to_obs] returns three
    6x7 blocks whose entries all fit a signed byte.  A player's block
    holds, for each staging row, its first slot, then 0, then the wall
    row, and last the number of occupied penalty slots followed by
    zeros; the third block holds the pools, each padded with two zeros.
    The second entry of a staging line is 0 whatever the row holds: the
    counting loop assigns [count = 0] again instead of adding to it. *)
Theorem board_to_obs_reachable g :
  reachable g ->
  board_to_obs g
  = Some [obs_side P1 g; obs_side P2 g;
          map (fun pit => pit ++ [0; 0]) (drawing_pit g)]
  /\ (forall block,
        block ∈ [obs_side P1 g; obs_side P2 g;
                 map (fun pit => pit ++ [0; 0]) (drawing_pit g)] ->
        shape block = [7; 7; 7; 7; 7; 7]%nat)
  /\ forall row, row_count row = 0.
Proof. apply board_to_obs_eq. Qed.

Lemma board_to_obs_reachable_witness :
  let g := Examples.last_move in
  board_to_obs g
  = Some [obs_side P1 g; obs_side P2 g;
          map (fun pit => pit ++ [0; 0]) (drawing_pit g)]
  /\ (forall block,
        block ∈ [obs_side P1 g; obs_side P2 g;
                 map (fun pit => pit ++ [0; 0]) (drawing_pit g)] ->
        shape block = [7; 7; 7; 7; 7; 7]%nat)
  /\ forall row, row_count row = 0.
Proof.
  apply (board_to_obs_reachable Examples.last_move), last_move_reachable.
Defined.

(** ** Reset *)

Lemma create_drawing_pit_returns refill g :
  randint_0_5 refill -> exists g', create_drawing_pit refill g = (Ok tt, g').
Proof.
  intros Hd.
  destruct (fill_pit_four (refill 0) (Hd 0)) as (p0 & E0 & _).
  destruct (fill_pit_four (refill 1) (Hd 1)) as (p1 & E1 & _).
  destruct (fill_pit_four (refill 2) (Hd 2)) as (p2 & E2 & _).
  destruct (fill_pit_four (refill 3) (Hd 3)) as (p3 & E3 & _).
  destruct (fill_pit_four (refill 4) (Hd 4)) as (p4 & E4 & _).
  unfold create_drawing_pit. change (Py.range 5) with [0; 1; 2; 3; 4].
  unfold for_fold, bind, lift, modify. rewrite E0, E1, E2, E3, E4.
  by eexists.
Qed.

(** X17. [reset] always ends with a newly constructed game, whatever the
    state of the one it replaces: the first statement's work (a new
    game, or a refill of the pools) is discarded.  It returns the
    observation of the new game and, like the constructor, stores 1 in
    [self.player] although P1 (0) is to move; [legal_actions] gives the
    same ids for both values there, the two sides of a new game being
    equal. *)
Theorem reset_builds_a_new_game refill draws self :
  randint_0_5 refill -> randint_0_5 draws ->
  let game := snd (Azul_game_init draws) in
  exists obs,
    Azul_reset refill draws self = Some (obs, Azul.mkEnv game 1)
    /\ Azul_init draws = Some (Azul.mkEnv game 1)
    /\ board_to_obs game = Some obs
    /\ Azul.to_play game = 0
    /\ Azul.legal_actions (Azul.mkEnv game 1)
       = Azul.legal_actions (Azul.mkEnv game 0).
Proof.
  intros Hr Hd game.
  assert (reachable game) as Hreach by (by apply reach_init).
  destruct (board_to_obs_eq game Hreach) as (Hobs & _).
  destruct (Azul_game_init_pools draws Hd)
    as (p0 & p1 & p2 & p3 & p4 & Hinit & _).
  eexists. split; [|split; [|split; [exact Hobs|]]].
  - unfold Azul_reset.
    destruct (Azul_game_init_pools refill Hr)
      as (q0 & q1 & q2 & q3 & q4 & Hinit' & _).
    destruct (create_drawing_pit_returns refill (Azul.game self) Hr)
      as [g' Hg'].
    rewrite Hinit', Hg'. destruct (gameover (Azul.game self));
      cbn [mbind option_bind]; unfold get_observation;
      subst game; rewrite Hinit in Hobs |- *; cbn [snd] in Hobs;
      by rewrite Hobs.
  - unfold Azul_init. subst game. rewrite Hinit in Hobs |- *.
    cbn [snd] in Hobs. by rewrite Hobs.
  - destruct (reachable_Inv game Hreach) as (Hwf & _).
    split; [subst game; by rewrite Hinit|].
    unfold Azul.legal_actions. cbn [Azul.player Azul.game].
    change (1 =? 0) with false. change (0 =? 0) with true. cbv iota.
    rewrite !valid_actions_eq by done.
    assert (forall i j k, legal_bool P2 game i j k = legal_bool P1 game i j k)
      as Hsame.
    { intros i j k. unfold legal_bool. subst game. by rewrite Hinit. }
    do 2 f_equal.
    apply list_bind_ext; [|done]. intros i.
    apply list_bind_ext; [|done]. intros j.
    apply list_bind_ext; [|done]. intros k. by rewrite Hsame.
Qed.

Lemma reset_builds_a_new_game_witness :
  let draws := fun i j => (i + j) mod 5 in
  let game := snd (Azul_game_init draws) in
  exists obs,
    Azul_reset draws draws (Azul.mkEnv Examples.round_end 0)
    = Some (obs, Azul.mkEnv game 1)
    /\ Azul_init draws = Some (Azul.mkEnv game 1)
    /\ board_to_obs game = Some obs
    /\ Azul.to_play game = 0
    /\ Azul.legal_actions (Azul.mkEnv game 1)
       = Azul.legal_actions (Azul.mkEnv game 0).
Proof.
  apply (reset_builds_a_new_game (fun i j => (i + j) mod 5)
           (fun i j => (i + j) mod 5) (Azul.mkEnv Examples.round_end 0));
    intros i j; apply Z.mod_pos_bound; lia.
Defined.

(** ** Filling a staging row *)

Lemma inserted_step p m m0 a g :
  set_inserted_tile_in_column_for_action
    (inserted_tile_in_column_for_action
       (set_rows_of p m
          (set_inserted_tile_in_column_for_action a (set_rows_of p m0 g)))
     + 1)
    (set_rows_of p m
       (set_inserted_tile_in_column_for_action a (set_rows_of p m0 g)))
  = set_inserted_tile_in_column_for_action (a + 1) (set_rows_of p m g).
Proof. by destruct p. Qed.

Section RowLoop.

Context (g0 : Azul_game) (p : player) (v n : Z) (c j : nat).
Context (Hv : v <> 0) (Hj : (j <= S c)%nat).
Context (Hrow : rows_of p g0 !! c = Some (row_block (S c) j v)).

(** Tiles placed by the first [i] iterations. *)
Let placed (i : nat) : nat :=
  Z.to_nat (Z.min (Z.max (Z.of_nat i - Z.of_nat j) 0) (Z.max 0 n)).

Let state (m : nat) : Azul_game :=
  set_inserted_tile_in_column_for_action (Z.of_nat m)
    (set_rows_of p (<[c := row_block (S c) (j + m) v]> (rows_of p g0)) g0).

Lemma row_state_0 : set_inserted_tile_in_column_for_action 0 g0 = state 0.
Proof.
  unfold state. rewrite Nat.add_0_r, list_insert_id by done.
  by rewrite set_rows_of_id.
Qed.

Lemma row_state_rows m :
  rows_of p (state m) !! c = Some (row_block (S c) (j + m) v).
Proof.
  unfold state.
  replace (rows_of p (set_inserted_tile_in_column_for_action (Z.of_nat m)
             (set_rows_of p (<[c := row_block (S c) (j + m) v]>
                               (rows_of p g0)) g0)))
    with (<[c := row_block (S c) (j + m) v]> (rows_of p g0))
    by (by destruct p).
  apply list_lookup_insert_eq. by eapply lookup_lt_Some.
Qed.

Lemma row_block_length m :
  (j + m <= S c)%nat -> length (row_block (S c) (j + m) v) = S c.
Proof. intros H. by apply block_length. Qed.

Lemma insert_tiles_in_column_loop :
  hoare (fun g => g = state 0)
    (for_fold (Py.range (Z.of_nat c + 1)) n
       (fun i number_of_drawed_tile =>
          slot <- read2 (rows_of p) (Z.of_nat c) i ;;
          if (slot =? 0) && (0 <? number_of_drawed_tile) then
            write2 (rows_of p) (set_rows_of p) (Z.of_nat c) i v ;;
            modify (fun g => set_inserted_tile_in_column_for_action
                      (inserted_tile_in_column_for_action g + 1) g) ;;
            ret (number_of_drawed_tile - 1)
          else ret number_of_drawed_tile))
    (fun rem g => g = state (placed (S c))
                  /\ rem = n - Z.of_nat (placed (S c)))
    (fun _ => False).
Proof.
  eapply hoare_conseq with (E' := fun _ => False);
    [apply (hoare_for_fold_pos
              (fun i rem g => g = state (placed i)
                              /\ rem = n - Z.of_nat (placed i)))| | |done].
  - intros i x rem Hx. apply range_lookup in Hx as [-> Hi].
    assert (j + placed i <= S c)%nat as Hfit by (unfold placed; lia).
    pose proof (row_state_rows (placed i)) as Hrows.
    pose proof (row_block_length (placed i) Hfit) as Hlen.
    eapply hoare_bind
      with (R := fun slot g =>
                   (g = state (placed i) /\ rem = n - Z.of_nat (placed i))
                   /\ slot = if (i <? j + placed i)%nat then v else 0).
    { apply hoare_read2. intros g [-> ->].
      rewrite (get2_in_range _ _ _ _ Hrows), Nat2Z.id by lia.
      unfold row_block.
      destruct (i <? j + placed i)%nat eqn:E.
      - apply Nat.ltb_lt in E. by rewrite block_lookup_lt.
      - apply Nat.ltb_ge in E. rewrite block_lookup_ge; [done|lia]. }
    intros slot. apply hoare_pure_r. intros ->.
    destruct (i <? j + placed i)%nat eqn:E.
    + apply Nat.ltb_lt in E.
      replace (v =? 0) with false by (symmetry; by apply Z.eqb_neq).
      simpl. apply hoare_ret. intros g [-> ->].
      assert (placed (S i) = placed i) as -> by (unfold placed in *; lia).
      done.
    + apply Nat.ltb_ge in E. change (0 =? 0) with true. cbn [andb].
      destruct (0 <? rem) eqn:Hrem.
      * apply Z.ltb_lt in Hrem.
        eapply hoare_bind
          with (R := fun _ g =>
                  (g = set_rows_of p
                         (<[c := row_block (S c) (S (j + placed i)) v]>
                            (rows_of p g0))
                         (state (placed i)))
                  /\ rem = n - Z.of_nat (placed i)).
        { apply hoare_write2. intros g [-> ->].
          assert (j + placed i = i)%nat as Hi' by (unfold placed in *; lia).
          rewrite (set2_in_range _ _ _ _ _ Hrows), Nat2Z.id by lia.
          unfold row_block at 1. rewrite Hi', block_fill by lia.
          split; [|done]. f_equal. unfold state.
          replace (rows_of p (set_inserted_tile_in_column_for_action
                     (Z.of_nat (placed i))
                     (set_rows_of p (<[c := row_block (S c) (j + placed i) v]>
                                       (rows_of p g0)) g0)))
            with (<[c := row_block (S c) (j + placed i) v]> (rows_of p g0))
            by (by destruct p).
          by rewrite list_insert_insert_eq. }
        intros _.
        eapply hoare_bind with (R := fun _ g =>
          g = state (S (placed i)) /\ rem = n - Z.of_nat (placed i)).
        { apply hoare_modify. intros g [-> ->]. split; [|done].
          unfold state. rewrite inserted_step.
          replace (j + S (placed i))%nat with (S (j + placed i)) by lia.
          by replace (Z.of_nat (S (placed i)))
            with (Z.of_nat (placed i) + 1) by lia. }
        intros _. apply hoare_ret. intros g [-> ->].
        assert (placed (S i) = S (placed i)) as ->
          by (unfold placed in *; lia).
        split; [done|lia].
      * apply Z.ltb_ge in Hrem. apply hoare_ret. intros g [-> ->].
        assert (placed (S i) = placed i) as -> by (unfold placed in *; lia).
        done.
  - intros g ->.
    assert (placed 0 = 0%nat) as -> by (unfold placed; lia).
    split; [done|lia].
  - intros rem g. rewrite range_length.
    by replace (Z.to_nat (Z.of_nat c + 1)) with (S c) by lia.
Qed.

End RowLoop.

Lemma insert_tiles_in_column_eq g p tile n (c j k : nat) :
  (c < 5)%nat -> tile + 1 <> 0 -> (j <= S c)%nat ->
  rows_of p g !! c = Some (row_block (S c) j (tile + 1)) ->
  (k <= 7)%nat -> penalty_of p g = penalty_block k ->
  let m := Z.to_nat (Z.min (Z.of_nat (S c) - Z.of_nat j) (Z.max 0 n)) in
  let k' := Z.to_nat (Z.min 7 (Z.of_nat k + Z.max 0 (n - Z.of_nat m))) in
  insert_tiles_in_column tile n (Z.of_nat c) p g
  = (Ok tt,
     set_penality_for_action
       (Spec.penalty_cost (penalty_block k')
        - Spec.penalty_cost (penalty_block k))
       (set_penalty_of p (penalty_block k')
          (set_inserted_tile_in_column_for_action (Z.of_nat m)
             (set_rows_of p
                (<[c := row_block (S c) (j + m) (tile + 1)]> (rows_of p g))
                g)))).
Proof.
  intros Hc Hv Hj Hrow Hk Hpen m k'.
  pose proof (insert_tiles_in_column_loop g p (tile + 1) n c j Hv Hj Hrow
                (set_inserted_tile_in_column_for_action 0 g)) as Hloop.
  unfold insert_tiles_in_column.
  replace (Z.of_nat c =? 5) with false by (symmetry; apply Z.eqb_neq; lia).
  unfold bind at 1, modify at 1. unfold bind at 1.
  destruct (for_fold _ _ _ _) as [[rem|e] g'].
  2:{ destruct Hloop. by apply row_state_0. }
  destruct Hloop as [-> ->]; [by apply row_state_0|].
  replace (Z.to_nat
             (Z.min (Z.max (Z.of_nat (S c) - Z.of_nat j) 0) (Z.max 0 n)))
    with m by (subst m; lia).
  rewrite (insert_tiles_in_penalty_column_eq _ p _ k); [|done|by destruct p].
  by replace (Z.to_nat
                (Z.min 7 (Z.of_nat k + Z.max 0 (n - Z.of_nat m))))
    with k' by (subst k'; lia).
Qed.

(** X18. Placing [n] drawn tiles of a colour on a staging row that holds
    [j] tiles of that colour (the rest free): the row takes as many as
    it has free slots, in its first free slots, and
    [inserted_tile_in_column_for_action] is that number; the tiles left
    over go to the penalty track as in X13, so when the track is full
    they vanish.  Nothing else changes. *)
Theorem insert_tiles_in_column_fills g p tile n (c j k : nat) :
  (c < 5)%nat -> tile + 1 <> 0 -> (j <= S c)%nat ->
  rows_of p g !! c = Some (row_block (S c) j (tile + 1)) ->
  (k <= 7)%nat -> penalty_of p g = penalty_block k ->
  let m := Z.to_nat (Z.min (Z.of_nat (S c) - Z.of_nat j) (Z.max 0 n)) in
  let k' := Z.to_nat (Z.min 7 (Z.of_nat k + Z.max 0 (n - Z.of_nat m))) in
  insert_tiles_in_column tile n (Z.of_nat c) p g
  = (Ok tt,
     set_penality_for_action
       (Spec.penalty_cost (penalty_block k')
        - Spec.penalty_cost (penalty_block k))
       (set_penalty_of p (penalty_block k')
          (set_inserted_tile_in_column_for_action (Z.of_nat m)
             (set_rows_of p
                (<[c := row_block (S c) (j + m) (tile + 1)]> (rows_of p g))
                g)))).
Proof. apply insert_tiles_in_column_eq. Qed.

Lemma insert_tiles_in_column_fills_witness :
  let g := Examples.fresh in
  let m := Z.to_nat (Z.min (Z.of_nat 2 - Z.of_nat 0) (Z.max 0 4)) in
  let k' := Z.to_nat (Z.min 7 (Z.of_nat 0 + Z.max 0 (4 - Z.of_nat m))) in
  insert_tiles_in_column 3 4 (Z.of_nat 1) P1 g
  = (Ok tt,
     set_penality_for_action
       (Spec.penalty_cost (penalty_block k')
        - Spec.penalty_cost (penalty_block 0))
       (set_penalty_of P1 (penalty_block k')
          (set_inserted_tile_in_column_for_action (Z.of_nat m)
             (set_rows_of P1
                (<[1%nat := row_block 2 (0 + m) (3 + 1)]> (rows_of P1 g))
                g)))).
Proof.
  apply (insert_tiles_in_column_fills Examples.fresh P1 3 4 1 0 0);
    first [lia | reflexivity].
Defined.

(** ** No legal move exactly when the round is over *)

Lemma forallb_false {A} (f : A -> bool) l :
  forallb f l = false -> exists k x, l !! k = Some x /\ f x = false.
Proof.
  induction l as [|y l IH]; simpl; [done|].
  destruct (f y) eqn:Hy; simpl.
  - intros (k & x & Hk & Hx)%IH. by exists (S k), x.
  - intros _. by exists 0%nat, y.
Qed.

Lemma pits_empty_false (d : list (list Z)) :
  pits_empty d = false ->
  exists (i j : nat) row x,
    d !! i = Some row /\ row !! j = Some x /\ x <> 0.
Proof.
  unfold pits_empty. intros (i & row & Hrow & Hf)%forallb_false.
  apply forallb_false in Hf as (j & x & Hx & Hz%Z.eqb_neq).
  by exists i, j, row, x.
Qed.

Lemma pits_empty_get2 (d : list (list Z)) i j n :
  pits_empty d = true -> Py.get2 d i j = Some n -> n = 0.
Proof.
  unfold pits_empty, Py.get2. intros Hall Hget.
  destruct (Py.get d i) as [row|] eqn:Hrow; [|done].
  apply get_elem_of in Hrow, Hget. rewrite forallb_forall in Hall.
  specialize (Hall row (proj1 (list_elem_of_In _ _) Hrow)).
  rewrite forallb_forall in Hall.
  by apply Z.eqb_eq, Hall, list_elem_of_In.
Qed.

(** X19. On a game with containers of the constructed sizes
    [legal_actions] returns the empty list exactly when every pool is
    empty: while a tile is left the player to move has a legal move
    (drafting it to the penalty track), and once the round is over no
    id is legal. *)
Theorem no_legal_action_iff_round_over self :
  wf (Azul.game self) ->
  exists ids,
    Azul.legal_actions self = Ok ids
    /\ (ids = [] <-> pits_empty (drawing_pit (Azul.game self)) = true).
Proof.
  intros Hwf. destruct (legal_actions_spec self Hwf) as (ids & Hids & Hspec).
  exists ids. split; [done|].
  set (g := Azul.game self) in *.
  set (p := if Azul.player self =? 0 then P1 else P2) in *.
  destruct (pits_empty (drawing_pit g)) eqn:Hempty.
  - split; [done|]. intros _.
    destruct ids as [|a ids]; [done|]. exfalso.
    destruct (proj1 (Hspec a)) as [_ Hv]; [by left|].
    destruct (from_action_to_tuple_action a) as [[pit tile] col].
    rewrite valid_move_eq in Hv. cbn [fst] in Hv.
    apply legal_accepts_count in Hv as (n & Hget & Hn).
    by apply (pits_empty_get2 _ _ _ _ Hempty) in Hget.
  - split; [|done]. intros ->. exfalso.
    destruct (pits_empty_false _ Hempty) as (i & j & row & x & Hrow & Hx & Hz).
    pose proof (wf_pit g Hwf) as Hsh.
    assert (i < 6)%nat as Hi.
    { apply lookup_lt_Some in Hrow.
      by rewrite <- shape_length, Hsh in Hrow. }
    assert (length row = 5%nat) as Hlen.
    { assert (shape (drawing_pit g) !! i = Some (length row)) as Hk
        by (unfold shape; by rewrite list_lookup_fmap, Hrow).
      rewrite Hsh in Hk. do 6 (destruct i as [|i]; [by injection Hk|]).
      done. }
    assert (j < 5)%nat as Hj by (apply lookup_lt_Some in Hx; lia).
    set (a := from_tuple_action_to_action (Z.of_nat i) (Z.of_nat j) 5).
    destruct (decode_encode (Z.of_nat i) (Z.of_nat j) 5) as [Ha Hdec];
      [lia..|].
    apply (not_elem_of_nil a), Hspec. split; [done|]. fold a in Hdec.
    rewrite Hdec, valid_move_eq. cbn [fst]. unfold legal.
    rewrite (get2_in_range _ _ _ _ Hrow), Nat2Z.id, Hx by lia.
    by replace (x =? 0) with false by (symmetry; by apply Z.eqb_neq).
Qed.

Lemma no_legal_action_iff_round_over_witness :
  let self := Azul.mkEnv Examples.round_end 0 in
  exists ids,
    Azul.legal_actions self = Ok ids
    /\ (ids = [] <-> pits_empty (drawing_pit (Azul.game self)) = true).
Proof.
  apply (no_legal_action_iff_round_over (Azul.mkEnv Examples.round_end 0)).
  split; [|intros []..]; reflexivity.
Defined.

(** ** Stepping on a finished round *)

Lemma score_rows_id p g :
  forallb (fun row => negb (row_complete row)) (rows_of p g) = true ->
  Spec.score_rows p g = g.
Proof.
  intros Hall. unfold Spec.score_rows.
  assert (forall r, Spec.score_row p g r = g) as Hrow.
  { intros r. unfold Spec.score_row.
    destruct (rows_of p g !! r) as [[|tile rest]|] eqn:Hr; try done.
    rewrite forallb_forall in Hall.
    specialize (Hall (tile :: rest)
      (proj1 (list_elem_of_In _ _) (list_elem_of_lookup_2 _ _ _ Hr))).
    simpl in Hall. by destruct (Spec.single_colour (tile :: rest) tile). }
  induction (seq 0 5) as [|r l IH]; simpl; [done|]. by rewrite Hrow.
Qed.

Lemma update_score_eq p points g :
  update_score p points g
  = (Ok tt, set_score_of p (Z.max 0 (score_of p g + points)) g).
Proof.
  unfold update_score, modify.
  destruct (0 <? score_of p g + points) eqn:E; do 2 f_equal.
  - apply Z.ltb_lt in E. lia.
  - apply Z.ltb_ge in E. lia.
Qed.

Lemma calculate_score_incomplete p g :
  wf g -> 0 <= score_of p g ->
  forallb (fun row => negb (row_complete row)) (rows_of p g) = true ->
  calculate_score p g
  = (Ok tt,
     set_score_of p
       (Z.max 0 (score_of p g - Spec.penalty_cost (penalty_of p g))) g).
Proof.
  intros Hwf Hs Hrows.
  rewrite calculate_score_eq, score_rows_id, calculate_penality_eq by done.
  by rewrite update_score_eq.
Qed.

Lemma is_game_done_eq g :
  is_game_done g
  = (Ok tt,
     if pits_empty (drawing_pit g)
     then set_gameover
            (has_full_row (board_p1 g) || has_full_row (board_p2 g))
            (set_is_done_phase true g)
     else set_is_done_phase false g).
Proof.
  unfold is_game_done, is_turn_done, bind, modify, gets. cbn.
  destruct (pits_empty (drawing_pit g)); [|reflexivity].
  change (board_p1 (set_is_done_phase true g)) with (board_p1 g).
  destruct (has_full_row (board_p1 g)); [reflexivity|].
  change (board_p2 (set_is_done_phase true g)) with (board_p2 g).
  by destruct (has_full_row (board_p2 g)).
Qed.

Lemma wf_same g g' :
  drawing_pit g' = drawing_pit g ->
  board_p1 g' = board_p1 g -> board_p2 g' = board_p2 g ->
  rows_p1 g' = rows_p1 g -> rows_p2 g' = rows_p2 g ->
  penalty_row_p1 g' = penalty_row_p1 g ->
  penalty_row_p2 g' = penalty_row_p2 g ->
  wf g -> wf g'.
Proof.
  intros Hd Hb1 Hb2 Hr1 Hr2 Hp1 Hp2 [Wd Wb Wr Wp].
  split; [by rewrite Hd|intros [|]; simpl..].
  - rewrite Hb1. apply (Wb P1).
  - rewrite Hb2. apply (Wb P2).
  - rewrite Hr1. apply (Wr P1).
  - rewrite Hr2. apply (Wr P2).
  - rewrite Hp1. apply (Wp P1).
  - rewrite Hp2. apply (Wp P2).
Qed.

Lemma valid_move_empty_pools p pit tile col g :
  wf g -> pits_empty (drawing_pit g) = true ->
  0 <= pit < 6 -> 0 <= tile < 5 ->
  fst (valid_move p pit tile col g) = Ok false.
Proof.
  intros Hwf Hempty Hp Ht. rewrite valid_move_eq. cbn [fst]. unfold legal.
  destruct (read_pit_ok g Hwf pit tile) as [d Hd]; [lia..|]. rewrite Hd.
  by rewrite (pits_empty_get2 _ _ _ _ Hempty Hd).
Qed.

(** X20. Calling [step] again on a finished round (empty pools, no
    complete staging row left) with an id in [0,180): the move is
    rejected, the flag is true again, and the round-end pass runs again.
    Each player's score is lowered once more by the cost of that
    player's penalty track, not below 0; and if a wall has a full row
    the end-game bonus is added once more. *)
Theorem step_after_round_end_scores_again g action :
  Inv g -> pits_empty (drawing_pit g) = true -> 0 <= action < 180 ->
  no_complete_row g ->
  exists reward g',
    Azul.step_game action g = (Ok (reward, true), g')
    /\ forall p, exists bonus,
         final_points (board_of p g) = Some bonus
         /\ score_of p g'
            = Z.max 0 (score_of p g - Spec.penalty_cost (penalty_of p g))
              + (if has_full_row (board_p1 g) || has_full_row (board_p2 g)
                 then bonus else 0).
Proof.
  intros (Hwf & _ & Hscore) Hempty Ha Hrows.
  destruct (decode_in_range action Ha)
    as (pit & tile & col & Hdec & Hp & Ht & Hc).
  destruct (final_points_total _ (wf_board g Hwf P1)) as (bonus1 & Hb1 & _).
  destruct (final_points_total _ (wf_board g Hwf P2)) as (bonus2 & Hb2 & _).
  simpl in Hb1, Hb2.
  unfold Azul.step_game. rewrite Hdec, bind_gets.
  erewrite bind_eq
    by (by apply play_turn_rejected, valid_move_empty_pools).
  set (g1 := set_penality_for_action 0 g).
  assert (wf g1) as Hwf1 by (by apply (wf_same g)).
  destruct (action_analisys_total (player_turn g) tile col g1 Hwf1 Ht Hc)
    as [[[[[[a b] c] erp] ecp] f] Han].
  erewrite bind_eq by exact Han. cbv beta iota.
  erewrite bind_eq.
  2:{ unfold is_turn_done, modify.
      change (drawing_pit g1) with (drawing_pit g). by rewrite Hempty. }
  erewrite bind_eq.
  2:{ rewrite is_game_done_eq.
      change (drawing_pit (set_is_done_phase true g1)) with (drawing_pit g).
      by rewrite Hempty. }
  set (over := has_full_row (board_p1 g) || has_full_row (board_p2 g)).
  set (g2 := set_gameover _ _).
  rewrite bind_gets. change (is_done_phase g2) with true. cbv iota.
  assert (wf g2) as Hwf2 by (by apply (wf_same g)).
  set (s1 := Z.max 0 (p1_score g - Spec.penalty_cost (penalty_row_p1 g))).
  set (s2 := Z.max 0 (p2_score g - Spec.penalty_cost (penalty_row_p2 g))).
  set (g3 := set_p1_score s1 g2).
  set (g4 := set_p2_score s2 g3).
  assert (calculate_score P1 g2 = (Ok tt, g3)) as H3.
  { rewrite calculate_score_incomplete;
      [done|done|apply (Hscore P1)|apply (Hrows P1)]. }
  assert (calculate_score P2 g3 = (Ok tt, g4)) as H4.
  { rewrite calculate_score_incomplete;
      [done|by apply (wf_same g)|apply (Hscore P2)|apply (Hrows P2)]. }
  set (g5 := if over
             then set_p2_score (s2 + bonus2) (set_p1_score (s1 + bonus1) g4)
             else g4).
  assert ((calculate_score P1 ;;
           calculate_score P2 ;;
           over <- gets gameover ;;
           if over then compute_final_points else ret tt) g2
          = (Ok tt, g5)) as H5.
  { erewrite bind_eq by exact H3. erewrite bind_eq by exact H4.
    rewrite bind_gets. change (gameover g4) with over. subst g5.
    destruct over; [|done].
    unfold compute_final_points. rewrite bind_gets.
    change (board_p1 g4) with (board_p1 g).
    erewrite bind_lift by exact Hb1. unfold bind at 1, modify at 1.
    rewrite bind_gets. change (board_p2 _) with (board_p2 g).
    erewrite bind_lift by exact Hb2. done. }
  erewrite bind_eq by exact H5.
  unfold Azul.have_winner. rewrite !bind_gets.
  eexists _, g5. split.
  - unfold ret. do 3 f_equal. subst g5. by destruct over.
  - intros [|]; [exists bonus1|exists bonus2]; (split; [done|]);
      subst g5; destruct over; simpl; subst s1 s2; lia.
Qed.

Lemma step_after_round_end_scores_again_witness :
  let g := Examples.round_end in
  exists reward g',
    Azul.step_game 0 g = (Ok (reward, true), g')
    /\ forall p, exists bonus,
         final_points (board_of p g) = Some bonus
         /\ score_of p g'
            = Z.max 0 (score_of p g - Spec.penalty_cost (penalty_of p g))
              + (if has_full_row (board_p1 g) || has_full_row (board_p2 g)
                 then bonus else 0).
Proof.
  apply (step_after_round_end_scores_again Examples.round_end 0).
  - apply reachable_Inv, (reach_step 89), last_move_reachable.
  - reflexivity.
  - lia.
  - intros []; reflexivity.
Defined.

(** ** The scripted opponent and the human player *)

Lemma valid_actions_none p g :
  wf g -> pits_empty (drawing_pit g) = true ->
  valid_actions p g = (Ok [], g).
Proof.
  intros Hwf Hempty. rewrite valid_actions_eq by done. do 2 f_equal.
  destruct (_ ≫= _) as [|[[i j] k] l] eqn:Hl; [done|]. exfalso.
  assert ((i, j, k) ∈ (i, j, k) :: l) as Hin by left.
  rewrite <- Hl in Hin.
  apply valid_actions_elem in Hin as [_ Hv]; [|done].
  rewrite valid_move_eq in Hv. cbn [fst] in Hv.
  apply legal_accepts_count in Hv as (n & Hget & Hn).
  by apply (pits_empty_get2 _ _ _ _ Hempty) in Hget.
Qed.

Lemma valid_actions_some p g :
  wf g -> pits_empty (drawing_pit g) = false ->
  exists t l, valid_actions p g = (Ok (t :: l), g).
Proof.
  intros Hwf Hempty. rewrite valid_actions_eq by done.
  destruct (_ ≫= _) as [|t l] eqn:Hl; [|by eexists _, _]. exfalso.
  destruct (pits_empty_false _ Hempty) as (i & j & row & x & Hrow & Hx & Hz).
  pose proof (wf_pit g Hwf) as Hsh.
  assert (i < 6)%nat as Hi.
  { apply lookup_lt_Some in Hrow. by rewrite <- shape_length, Hsh in Hrow. }
  assert (length row = 5%nat) as Hlen.
  { assert (shape (drawing_pit g) !! i = Some (length row)) as Hk
      by (unfold shape; by rewrite list_lookup_fmap, Hrow).
    rewrite Hsh in Hk. do 6 (destruct i as [|i]; [by injection Hk|]).
    done. }
  assert (j < 5)%nat as Hj by (apply lookup_lt_Some in Hx; lia).
  apply (not_elem_of_nil (Z.of_nat i, Z.of_nat j, 5)). rewrite <- Hl.
  apply valid_actions_elem; [done|]. split; [lia|].
  rewrite valid_move_eq. cbn [fst]. unfold legal.
  rewrite (get2_in_range _ _ _ _ Hrow), Nat2Z.id, Hx by lia.
  by replace (x =? 0) with false by (symmetry; by apply Z.eqb_neq).
Qed.

(** X21. The scripted opponent always plays for P2, whoever is to move.
    Whatever order the shuffle produces, while a tile is left in the
    pools it returns an id in [0,180) whose move the legality check
    accepts for P2, and leaves the game untouched; on a finished round
    it raises [IndexError]. *)
Theorem expert_action_plays_for_P2 shuffle g :
  (forall l, shuffle l ≡ₚ l) -> wf g ->
  (pits_empty (drawing_pit g) = false ->
   exists action,
     expert_action shuffle g = (Ok action, g)
     /\ 0 <= action < 180
     /\ (let '(pit, tile, col) := from_action_to_tuple_action action in
         fst (valid_move P2 pit tile col g) = Ok true))
  /\ (pits_empty (drawing_pit g) = true ->
      expert_action shuffle g = (Raise IndexError, g)).
Proof.
  intros Hperm Hwf. unfold expert_action. split; intros Hempty.
  - destruct (valid_actions_some P2 g Hwf Hempty) as (t & l & Hva).
    erewrite bind_eq by exact Hva.
    pose proof Hva as Hall. rewrite valid_actions_eq in Hall by done.
    injection Hall as Hall.
    destruct (last (shuffle (t :: l))) as [[[i j] k]|] eqn:Hlast.
    + assert ((i, j, k) ∈ t :: l) as Hin.
      { rewrite <- (Hperm (t :: l)). apply last_Some in Hlast as [l' ->].
        apply elem_of_app. right. by left. }
      rewrite <- Hall in Hin.
      apply valid_actions_elem in Hin as [(Hi & Hj & Hk) Hv]; [|done].
      destruct (decode_encode i j k Hi Hj Hk) as [Hr Hdec].
      eexists. split; [done|]. split; [done|]. by rewrite Hdec.
    + apply last_None in Hlast.
      pose proof (Hperm (t :: l)) as Hp. rewrite Hlast in Hp.
      by apply Permutation_nil_cons in Hp.
  - rewrite (bind_eq _ _ _ _ _ (valid_actions_none P2 g Hwf Hempty)).
    pose proof (Hperm []) as Hp. apply Permutation_nil_r in Hp.
    by rewrite Hp.
Qed.

Lemma expert_action_plays_for_P2_witness :
  let g := Examples.fresh in
  (pits_empty (drawing_pit g) = false ->
   exists action,
     expert_action (fun l => l) g = (Ok action, g)
     /\ 0 <= action < 180
     /\ (let '(pit, tile, col) := from_action_to_tuple_action action in
         fst (valid_move P2 pit tile col g) = Ok true))
  /\ (pits_empty (drawing_pit g) = true ->
      expert_action (fun l => l) g = (Raise IndexError, g)).
Proof.
  apply (expert_action_plays_for_P2 (fun l => l) Examples.fresh).
  - intros l. reflexivity.
  - split; [|intros []..]; reflexivity.
Defined.

Lemma in_copies (x : Z) {A} (l : list A) :
  existsb (Z.eqb x) (map (fun _ => x) l)
  = match l with [] => false | _ :: _ => true end.
Proof. destruct l; simpl; [done|]. by rewrite Z.eqb_refl. Qed.

(** X22. [human_to_action] does not check what the user types: its loop
    compares the id with copies of itself, one per legal action.  While
    the player to move has a legal action, the first triple typed is
    returned as an id, legal or not and in range or not; when the list
    of legal actions is empty, the loop asks again for ever (it returns
    for no amount of fuel). *)
Theorem human_to_action_accepts_anything input self :
  wf (Azul.game self) ->
  let typed :=
    from_tuple_action_to_action (input 0%nat) (input 1%nat) (input 2%nat) in
  (pits_empty (drawing_pit (Azul.game self)) = false ->
   forall fuel, human_to_action fuel input self = Some (Ok typed))
  /\ (pits_empty (drawing_pit (Azul.game self)) = true ->
      forall fuel, human_to_action fuel input self = None).
Proof.
  intros Hwf typed. unfold human_to_action. fold typed.
  set (p := if Azul.player self =? 0 then P1 else P2).
  split; intros Hempty fuel.
  - destruct (valid_actions_some p _ Hwf Hempty) as (t & l & Hva).
    destruct fuel; simpl; unfold Azul.legal_actions; fold p;
      rewrite Hva, in_copies; done.
  - pose proof (valid_actions_none p _ Hwf Hempty) as Hva.
    generalize 3%nat at 1. generalize typed.
    induction fuel as [|fuel IH]; intros a k; simpl;
      unfold Azul.legal_actions; fold p; rewrite Hva; [done|].
    apply IH.
Qed.

Lemma human_to_action_accepts_anything_witness :
  let self := Azul.mkEnv Examples.fresh 0 in
  let input := fun _ : nat => 7 in
  let typed :=
    from_tuple_action_to_action (input 0%nat) (input 1%nat) (input 2%nat) in
  (pits_empty (drawing_pit (Azul.game self)) = false ->
   forall fuel, human_to_action fuel input self = Some (Ok typed))
  /\ (pits_empty (drawing_pit (Azul.game self)) = true ->
      forall fuel, human_to_action fuel input self = None).
Proof.
  apply (human_to_action_accepts_anything (fun _ => 7)
           (Azul.mkEnv Examples.fresh 0)).
  split; [|intros []..]; reflexivity.
Defined.
